(** * Weighted quantiles of the climwip temperature graph diagnostic

    A shallow embedding of [weighted_quantile] from
    [esmvaltool/diag_scripts/weighting/weighted_temperature_graph.py]
    together with the numpy primitives it calls.

    Numbers.  The function is embedded twice.  In the first embedding, on
    which the general properties are proved, a Python float is an exact
    rational [Q]: sums, differences, products and quotients are not rounded
    and do not overflow, and an integer does not wrap around.  The only place
    where the function leaves the finite numbers there is the division by
    [max_val]; its result is a [float64], which adds the IEEE special values
    to [Q].  Two finite results are the same number when they are [Qeq];
    signed zeros are not modelled.  Comparisons, the index search of
    [np.interp] and the choice of its branches are those of numpy, so that a
    property which rests on them alone, given the x-coordinates, holds of
    the function as it runs.  The second embedding, [Binary64],
    computes with the binary64 numbers of the machine; it is evaluated on
    concrete inputs and shows where rounding, overflow and underflow take
    the function away from its exact value. *)

From Stdlib Require Import String.
From Stdlib Require Import List Bool Arith ZArith QArith Qminmax Qround Qabs.
From Stdlib Require Import Lia Lqa.
From Stdlib Require Import Permutation Sorted.
From Stdlib Require Floats.
Import ListNotations.

Open Scope Q_scope.

(** ** Numeric domain *)

Inductive float64 : Type :=
| Fin (q : Q)
| PInf
| NInf
| NaN.

Definition Qlt_bool (a b : Q) : bool := negb (Qle_bool b a).

Definition f_neg (a : float64) : float64 :=
  match a with
  | Fin q => Fin (- q)
  | PInf => NInf
  | NInf => PInf
  | NaN => NaN
  end.

Definition f_add (a b : float64) : float64 :=
  match a, b with
  | NaN, _ | _, NaN => NaN
  | Fin p, Fin q => Fin (p + q)
  | PInf, NInf | NInf, PInf => NaN
  | PInf, _ | _, PInf => PInf
  | NInf, _ | _, NInf => NInf
  end.

Definition f_sub (a b : float64) : float64 :=
  match a, b with
  | Fin p, Fin q => Fin (p - q)
  | _, _ => f_add a (f_neg b)
  end.

(** An infinity of the sign of [q], or NaN when [q] is zero. *)
Definition inf_of_sign (q : Q) : float64 :=
  if Qeq_bool q 0 then NaN else if Qlt_bool 0 q then PInf else NInf.

Definition f_mul (a b : float64) : float64 :=
  match a, b with
  | NaN, _ | _, NaN => NaN
  | Fin p, Fin q => Fin (p * q)
  | PInf, Fin q | Fin q, PInf => inf_of_sign q
  | NInf, Fin q | Fin q, NInf => inf_of_sign (- q)
  | PInf, PInf | NInf, NInf => PInf
  | PInf, NInf | NInf, PInf => NInf
  end.

Definition f_div (a b : float64) : float64 :=
  match a, b with
  | NaN, _ | _, NaN => NaN
  | Fin p, Fin q => if Qeq_bool q 0 then inf_of_sign p else Fin (p / q)
  | Fin _, (PInf | NInf) => Fin 0
  | PInf, Fin q => if Qle_bool 0 q then PInf else NInf
  | NInf, Fin q => if Qle_bool 0 q then NInf else PInf
  | (PInf | NInf), (PInf | NInf) => NaN
  end.

(** Comparisons of doubles: every comparison with NaN is false. *)
Definition f_lt (a b : float64) : bool :=
  match a, b with
  | NaN, _ | _, NaN => false
  | Fin p, Fin q => Qlt_bool p q
  | NInf, NInf | PInf, _ | _, NInf => false
  | NInf, _ | _, PInf => true
  end.

Definition f_le (a b : float64) : bool :=
  match a, b with
  | NaN, _ | _, NaN => false
  | Fin p, Fin q => Qle_bool p q
  | NInf, _ | _, PInf => true
  | PInf, _ | _, NInf => false
  end.

Definition f_eq (a b : float64) : bool :=
  match a, b with
  | Fin p, Fin q => Qeq_bool p q
  | PInf, PInf | NInf, NInf => true
  | _, _ => false
  end.

Definition isnan (a : float64) : bool :=
  match a with NaN => true | _ => false end.

(** ** Exceptions and results *)

(** [IndexError index size] is the error of an index out of the bounds of
    an axis of [size] entries; [ZeroLengthSlice] is the
    [IndexError('Cannot index with zero length slice.')] of an iris cube. *)
Inductive exn : Type :=
| ValueError (msg : string)
| IndexError (index size : nat)
| ZeroLengthSlice
| TypeError (msg : string).

Inductive result (A : Type) : Type :=
| Return (a : A)
| Raise (e : exn).

Arguments Return {A} a.
Arguments Raise {A} e.

Definition and_then {A B : Type} (m : result A) (k : A -> result B)
  : result B :=
  match m with
  | Return a => k a
  | Raise e => Raise e
  end.

Notation "x <- m ;; k" := (and_then m (fun x => k))
  (at level 61, m at next level, right associativity).

Notation "' pat <- m ;; k" :=
  (and_then m (fun x => match x with pat => k end))
  (at level 61, pat pattern, m at next level, right associativity).

Definition quantile_error : exn :=
  ValueError "Quantiles should be between 0.0 and 1.0".

Definition empty_reduction_error (op : string) : exn :=
  ValueError ("zero-size array to reduction operation " ++ op
              ++ " which has no identity")%string.

(** ** numpy primitives *)

Module np.

(** [np.ones(n)] *)
Definition ones (n : nat) : list Q := repeat 1 n.

(** Insertion of index [i] in front of the first index whose value is not
    smaller: with indices inserted from the last to the first this is a
    stable sort of the indices by value. *)
Fixpoint insert_idx (a : list Q) (i : nat) (idx : list nat) : list nat :=
  match idx with
  | [] => [i]
  | j :: rest =>
      if Qle_bool (nth i a 0) (nth j a 0) then i :: j :: rest
      else j :: insert_idx a i rest
  end.

(** [np.argsort(a)]: the indices that sort [a] in ascending order.  Equal
    entries are kept in their original order here.  numpy's default sort
    promises no order among equal entries (it depends on the version and
    the processor), so no property below is stated in terms of the place
    that the sort gives to one of several equal samples. *)
Definition argsort (a : list Q) : list nat :=
  fold_right (insert_idx a) [] (seq 0 (length a)).

(** [a[idx]] for an index array [idx]: fails on the first index out of
    bounds. *)
Fixpoint take (a : list Q) (idx : list nat) : result (list Q) :=
  match idx with
  | [] => Return []
  | i :: rest =>
      match nth_error a i with
      | Some x => r <- take a rest ;; Return (x :: r)
      | None => Raise (IndexError i (length a))
      end
  end.

Fixpoint cumsum_from (acc : Q) (a : list Q) : list Q :=
  match a with
  | [] => []
  | x :: rest => (acc + x) :: cumsum_from (acc + x) rest
  end.

(** [np.cumsum(a)], with sums that are exact *)
Definition cumsum (a : list Q) : list Q := cumsum_from 0 a.

(** [c * a] *)
Definition scale (c : Q) (a : list Q) : list Q := map (Qmult c) a.

(** [a - b] for arrays of the same shape *)
Fixpoint sub (a b : list Q) : list Q :=
  match a, b with
  | x :: a', y :: b' => (x - y) :: sub a' b'
  | _, _ => []
  end.

(** [a - c] for a scalar [c] *)
Definition sub_scalar (a : list Q) (c : Q) : list Q :=
  map (fun x => x - c) a.

(** [a / c] for a scalar [c]; a zero divisor gives NaN or an infinity *)
Definition div_scalar (a : list Q) (c : Q) : list float64 :=
  map (fun x => f_div (Fin x) (Fin c)) a.

(** [a.min()] *)
Definition min (a : list Q) : result Q :=
  match a with
  | [] => Raise (empty_reduction_error "minimum")
  | x :: rest => Return (fold_left Qmin rest x)
  end.

(** [a.max()] *)
Definition max (a : list Q) : result Q :=
  match a with
  | [] => Raise (empty_reduction_error "maximum")
  | x :: rest => Return (fold_left Qmax rest x)
  end.

(** [np.all((q >= 0) & (q <= 1))] *)
Definition all_in_unit (q : list Q) : bool :=
  forallb (fun x => Qle_bool 0 x && Qle_bool x 1) q.

(** *** [np.interp] *)

(** The result of numpy's [binary_search_with_guess]: [-1] for a key
    smaller than the first entry ([Below]), the length of the array for a
    key greater than the last entry ([Above]), otherwise an index
    ([Inside]). *)
Inductive position : Type :=
| Below
| Inside (j : nat)
| Above.

(** The value [i - 1] that the search returns for a counter [i]. *)
Definition position_of (i : nat) : position :=
  match i with
  | O => Below
  | S j => Inside j
  end.

(** The scan [for (i = 1; i < len && key >= arr[i]; ++i);] over the part of
    the array that starts at index [i]. *)
Fixpoint scan (key : Q) (arr : list float64) (i : nat) : nat :=
  match arr with
  | [] => i
  | a :: rest => if f_le a (Fin key) then scan key rest (S i) else i
  end.

(** The bisection [while (imin < imax)] with
    [imid = imin + ((imax - imin) >> 1)]; every round shortens the range,
    so [imax - imin] rounds of [fuel] are enough. *)
Fixpoint bisect (fuel : nat) (key : Q) (arr : list float64)
  (imin imax : nat) : nat :=
  match fuel with
  | O => imin
  | S fuel' =>
      if Nat.ltb imin imax then
        let imid := (imin + (imax - imin) / 2)%nat in
        if f_le (nth imid arr NaN) (Fin key)
        then bisect fuel' key arr (imid + 1) imax
        else bisect fuel' key arr imin imid
      else imin
  end.

Definition LIKELY_IN_CACHE_SIZE : nat := 8.

(** [binary_search_with_guess(key, arr, len, guess)] of numpy's
    [compiled_base.c], for an array that is not empty: a scan from the left
    in arrays of at most four entries; in longer ones the entries next to
    [guess] are tried first and a bisection, of the whole array or of the
    [LIKELY_IN_CACHE_SIZE] entries on the side of the key, settles the
    rest.  The guess is a [nat]: numpy raises every guess below 1 to 1, so
    the guess [-1] that a [Below] leaves behaves as 0. *)
Definition binary_search_with_guess (key : Q) (arr : list float64)
  (guess : nat) : position :=
  let len := length arr in
  let item i := nth i arr NaN in
  if f_lt (item (len - 1)%nat) (Fin key) then Above
  else if f_lt (Fin key) (item 0%nat) then Below
  else if Nat.leb len 4 then position_of (scan key (tl arr) 1)
  else
    let guess := if Nat.ltb (len - 3) guess then (len - 3)%nat else guess in
    let guess := if Nat.ltb guess 1 then 1%nat else guess in
    if f_lt (Fin key) (item guess) then
      if f_lt (Fin key) (item (guess - 1)%nat) then
        let imax := (guess - 1)%nat in
        let imin :=
          if Nat.ltb LIKELY_IN_CACHE_SIZE guess
             && f_le (item (guess - LIKELY_IN_CACHE_SIZE)%nat) (Fin key)
          then (guess - LIKELY_IN_CACHE_SIZE)%nat else 0%nat in
        position_of (bisect (imax - imin) key arr imin imax)
      else Inside (guess - 1)
    else if f_lt (Fin key) (item (guess + 1)%nat) then Inside guess
    else if f_lt (Fin key) (item (guess + 2)%nat) then Inside (guess + 1)
    else
      let imin := (guess + 2)%nat in
      let imax :=
        if Nat.ltb guess (len - LIKELY_IN_CACHE_SIZE - 1)
           && f_lt (Fin key) (item (guess + LIKELY_IN_CACHE_SIZE)%nat)
        then (guess + LIKELY_IN_CACHE_SIZE)%nat else len in
      position_of (bisect (imax - imin) key arr imin imax).

(** The index the next search starts from. *)
Definition guess_of (p : position) (len : nat) : nat :=
  match p with
  | Below => 0%nat
  | Inside j => j
  | Above => len
  end.

(** The value [np.interp] stores for [x_val] once its position [p] among
    the points [dx] is known, with [left = fp[0]] and [right = fp[-1]]. *)
Definition interp_at (p : position) (dx : list float64) (dy : list Q)
  (x_val : Q) : float64 :=
  let lval := hd 0 dy in
  let rval := last dy 0 in
  match p with
  | Below => Fin lval
  | Above => Fin rval
  | Inside j =>
      if Nat.eqb j (length dx - 1) then Fin (nth j dy 0)
      else if f_eq (nth j dx NaN) (Fin x_val) then Fin (nth j dy 0)
      else
        let slope :=
          f_div (Fin (nth (j + 1) dy 0 - nth j dy 0))
                (f_sub (nth (j + 1) dx NaN) (nth j dx NaN)) in
        let r :=
          f_add (f_mul slope (f_sub (Fin x_val) (nth j dx NaN)))
                (Fin (nth j dy 0)) in
        if isnan r then
          let r' :=
            f_add (f_mul slope (f_sub (Fin x_val) (nth (j + 1) dx NaN)))
                  (Fin (nth (j + 1) dy 0)) in
          if isnan r' && Qeq_bool (nth j dy 0) (nth (j + 1) dy 0)
          then Fin (nth j dy 0)
          else r'
        else r
  end.

(** The loop of [arr_interp] over the requested abscissas: the index found
    for one of them is the guess of the search for the next one. *)
Fixpoint interp_from (j : nat) (x : list Q) (dx : list float64)
  (dy : list Q) : list float64 :=
  match x with
  | [] => []
  | x_val :: rest =>
      let p := binary_search_with_guess x_val dx j in
      interp_at p dx dy x_val :: interp_from (guess_of p (length dx)) rest dx dy
  end.

(** The entry [arr_interp] stores for [x_val] when there is a single point
    [(xp[0], fp[0])]: no index is searched. *)
Definition interp_single (dx : list float64) (dy : list Q) (x_val : Q)
  : float64 :=
  let lval := hd 0 dy in
  let rval := last dy 0 in
  let xp_val := hd NaN dx in
  let fp_val := hd 0 dy in
  if f_lt (Fin x_val) xp_val then Fin lval
  else if f_lt xp_val (Fin x_val) then Fin rval
  else Fin fp_val.

(** [np.interp(x, xp, fp)] for [xp] and [fp] of the same length and not
    empty (numpy raises an error otherwise; the estimator never calls it
    so). *)
Definition interp (x : list Q) (xp : list float64) (fp : list Q)
  : list float64 :=
  if Nat.eqb (length xp) 1 then map (interp_single xp fp) x
  else interp_from 0 x xp fp.

End np.

(** ** The estimator *)

(** Lines 60 to 69: the samples in ascending order and the interpolation
    x-coordinates the function computes for them. *)
Definition sorted_coordinates (values weights : list Q)
  : result (list Q * list float64) :=
  let idx := np.argsort values in
  values <- np.take values idx ;;
  weights <- np.take weights idx ;;
  let weighted_quantiles :=
    np.sub (np.cumsum weights) (np.scale (1 # 2) weights) in
  min_val <- np.min weighted_quantiles ;;
  max_val <- np.max weighted_quantiles ;;
  let weighted_quantiles :=
    np.div_scalar (np.sub_scalar weighted_quantiles min_val) max_val in
  Return (values, weighted_quantiles).

Definition default_weights (values : list Q) (weights : option (list Q))
  : list Q :=
  match weights with
  | None => np.ones (length values)
  | Some w => w
  end.

Definition weighted_quantile (values quantiles : list Q)
  (weights : option (list Q)) : result (list float64) :=
  let weights := default_weights values weights in
  if negb (np.all_in_unit quantiles) then Raise quantile_error
  else
    '(values, weighted_quantiles) <- sorted_coordinates values weights ;;
    Return (np.interp quantiles weighted_quantiles values).

(** ** The estimator for any sort

    Of [np.argsort] numpy promises that its result sorts the array; about
    the order of equal entries its default sort promises nothing.  Here are
    lines 51 to 71 once more with the sort as a parameter [argsort], for
    the properties that are to hold whatever order the sort gives to equal
    samples.  With [np.argsort] above for [argsort] these are the two
    functions above. *)

Module AnySort.

Definition sorted_coordinates (argsort : list Q -> list nat)
  (values weights : list Q) : result (list Q * list float64) :=
  let idx := argsort values in
  values <- np.take values idx ;;
  weights <- np.take weights idx ;;
  let weighted_quantiles :=
    np.sub (np.cumsum weights) (np.scale (1 # 2) weights) in
  min_val <- np.min weighted_quantiles ;;
  max_val <- np.max weighted_quantiles ;;
  let weighted_quantiles :=
    np.div_scalar (np.sub_scalar weighted_quantiles min_val) max_val in
  Return (values, weighted_quantiles).

Definition weighted_quantile (argsort : list Q -> list nat)
  (values quantiles : list Q) (weights : option (list Q))
  : result (list float64) :=
  let weights := default_weights values weights in
  if negb (np.all_in_unit quantiles) then Raise quantile_error
  else
    '(values, weighted_quantiles) <-
      sorted_coordinates argsort values weights ;;
    Return (np.interp quantiles weighted_quantiles values).

End AnySort.

(** ** The estimator over a store of arrays

    The same function with the arrays held in a store, to state what a call
    does to the objects of its caller.  A Python name is a location; every
    numpy operation of the function returns a new array, and assigning the
    result to a name rebinds the name without touching the array it named
    before. *)

Module Stateful.

Inductive object : Type :=
| FloatArray (a : list Q)
| IndexArray (a : list nat)
| Float64Array (a : list float64).

Definition loc : Type := nat.
Definition heap : Type := list object.

Definition M (A : Type) : Type := heap -> result A * heap.

Definition ret {A : Type} (a : A) : M A := fun h => (Return a, h).

Definition raise {A : Type} (e : exn) : M A := fun h => (Raise e, h).

Definition lift {A : Type} (r : result A) : M A := fun h => (r, h).

Definition bind {A B : Type} (m : M A) (k : A -> M B) : M B :=
  fun h =>
    match m h with
    | (Return a, h') => k a h'
    | (Raise e, h') => (Raise e, h')
    end.

Notation "x <~ m ;; k" := (bind m (fun x => k))
  (at level 61, m at next level, right associativity).

Definition alloc (o : object) : M loc :=
  fun h => (Return (length h), h ++ [o]).

Definition floats (l : loc) : M (list Q) :=
  fun h =>
    match nth_error h l with
    | Some (FloatArray a) => (Return a, h)
    | _ => (Raise (TypeError "array of floats expected"), h)
    end.

Definition indices (l : loc) : M (list nat) :=
  fun h =>
    match nth_error h l with
    | Some (IndexArray a) => (Return a, h)
    | _ => (Raise (TypeError "array of indices expected"), h)
    end.

Definition float64s (l : loc) : M (list float64) :=
  fun h =>
    match nth_error h l with
    | Some (Float64Array a) => (Return a, h)
    | _ => (Raise (TypeError "array of doubles expected"), h)
    end.

(** [np.array(x)]: a copy of [x] *)
Definition array (x : loc) : M loc :=
  a <~ floats x ;; alloc (FloatArray a).

Definition len (x : loc) : M nat :=
  a <~ floats x ;; ret (length a).

Definition ones (n : nat) : M loc := alloc (FloatArray (np.ones n)).

Definition all_in_unit (x : loc) : M bool :=
  a <~ floats x ;; ret (np.all_in_unit a).

Definition argsort (x : loc) : M loc :=
  a <~ floats x ;; alloc (IndexArray (np.argsort a)).

Definition take (x idx : loc) : M loc :=
  a <~ floats x ;;
  i <~ indices idx ;;
  r <~ lift (np.take a i) ;;
  alloc (FloatArray r).

Definition cumsum (x : loc) : M loc :=
  a <~ floats x ;; alloc (FloatArray (np.cumsum a)).

Definition scale (c : Q) (x : loc) : M loc :=
  a <~ floats x ;; alloc (FloatArray (np.scale c a)).

Definition sub (x y : loc) : M loc :=
  a <~ floats x ;; b <~ floats y ;; alloc (FloatArray (np.sub a b)).

Definition sub_scalar (x : loc) (c : Q) : M loc :=
  a <~ floats x ;; alloc (FloatArray (np.sub_scalar a c)).

Definition div_scalar (x : loc) (c : Q) : M loc :=
  a <~ floats x ;; alloc (Float64Array (np.div_scalar a c)).

Definition min (x : loc) : M Q := a <~ floats x ;; lift (np.min a).

Definition max (x : loc) : M Q := a <~ floats x ;; lift (np.max a).

Definition interp (x xp fp : loc) : M loc :=
  a <~ floats x ;;
  b <~ float64s xp ;;
  c <~ floats fp ;;
  alloc (Float64Array (np.interp a b c)).

Definition weighted_quantile (values quantiles : loc) (weights : option loc)
  : M loc :=
  values <~ array values ;;
  quantiles <~ array quantiles ;;
  weights <~ match weights with
             | None => n <~ len values ;; ones n
             | Some w => ret w
             end ;;
  weights <~ array weights ;;
  ok <~ all_in_unit quantiles ;;
  if negb ok then raise quantile_error
  else
    idx <~ argsort values ;;
    values <~ take values idx ;;
    weights <~ take weights idx ;;
    c <~ cumsum weights ;;
    s <~ scale (1 # 2) weights ;;
    weighted_quantiles <~ sub c s ;;
    min_val <~ min weighted_quantiles ;;
    max_val <~ max weighted_quantiles ;;
    d <~ sub_scalar weighted_quantiles min_val ;;
    weighted_quantiles <~ div_scalar d max_val ;;
    interp quantiles weighted_quantiles values.

(** The weights argument of a call, as the store holds it. *)
Definition weights_at (h : heap) (weights : option loc)
  (ws : option (list Q)) : Prop :=
  match weights, ws with
  | None, None => True
  | Some l, Some w => nth_error h l = Some (FloatArray w)
  | _, _ => False
  end.

End Stateful.

(** A store with samples, one requested quantile and weights. *)
Definition example_store : Stateful.heap :=
  [Stateful.FloatArray [10; 20; 30];
   Stateful.FloatArray [1 # 2];
   Stateful.FloatArray [1; 1; 2]].

(** A store with samples, weights and two requests of quantiles. *)
Definition reuse_store : Stateful.heap :=
  [Stateful.FloatArray [10; 20; 30];
   Stateful.FloatArray [1 # 4];
   Stateful.FloatArray [1; 1; 2];
   Stateful.FloatArray [3 # 4; 1]].

(** ** Vocabulary of the properties *)

Definition val (a : list Q) (i : nat) : Q := nth i a 0.

(** The array [a[idx]] when no index is out of bounds. *)
Definition gather (a : list Q) (idx : list nat) : list Q := map (val a) idx.

Definition ascending (l : list Q) : Prop :=
  forall i j, (i <= j < length l)%nat -> nth i l 0 <= nth j l 0.

(** What numpy promises of [np.argsort(a)]: every index once, in an order
    in which the entries of [a] ascend. *)
Definition sorts (a : list Q) (idx : list nat) : Prop :=
  Permutation idx (seq 0 (length a)) /\ ascending (gather a idx).

Definition sorting (argsort : list Q -> list nat) : Prop :=
  forall a, sorts a (argsort a).

Definition le_at (a : list Q) (i j : nat) : Prop := val a i <= val a j.

(** The values of [a.min()] and [a.max()] for an array that is not empty. *)
Definition min_of (l : list Q) : Q := fold_left Qmin (tl l) (hd 0 l).
Definition max_of (l : list Q) : Q := fold_left Qmax (tl l) (hd 0 l).

(** Line 64: [np.cumsum(weights) - 0.5 * weights], the cumulated sum
    starting from [acc]. *)
Definition positions_from (acc : Q) (w : list Q) : list Q :=
  np.sub (np.cumsum_from acc w) (np.scale (1 # 2) w).

Definition positions (w : list Q) : list Q := positions_from 0 w.

(** Lines 67 to 69: the coordinates the function computes for weights [w],
    given in the order of the sorted samples, when [max_val] is not zero. *)
Definition normalized (w : list Q) : list Q :=
  map (fun x => (x - min_of (positions w)) / max_of (positions w))
      (positions w).

(** The samples and the weights in the order of the sort. *)
Definition sorted_values (values : list Q) : list Q :=
  gather values (np.argsort values).

Definition sorted_weights (values : list Q) (weights : option (list Q))
  : list Q :=
  gather (default_weights values weights) (np.argsort values).

(** Weights as the data model has them: one per sample, none negative, one
    at least positive.  Omitted weights are the weights [1]. *)
Definition valid_weights (values : list Q) (weights : option (list Q))
  : Prop :=
  let w := default_weights values weights in
  length w = length values /\ Forall (Qle 0) w /\ Exists (Qlt 0) w.

Definition pointwise_eq (xs xs' : list Q) : Prop :=
  length xs = length xs' /\ forall k, nth k xs 0 == nth k xs' 0.

(** The result [r] of interpolating at [x] over the points [(xs, ys)]. *)
Inductive interp_rel (xs ys : list Q) (x : Q) : Q -> Prop :=
| interp_below :
    x < hd 0 xs -> interp_rel xs ys x (hd 0 ys)
| interp_above :
    last xs 0 < x -> interp_rel xs ys x (last ys 0)
| interp_last :
    (forall k, (k < length xs)%nat -> nth k xs 0 <= x) ->
    x <= last xs 0 ->
    interp_rel xs ys x (last ys 0)
| interp_inside (j : nat) (r : Q) :
    (j + 1 < length xs)%nat ->
    (forall k, (k <= j)%nat -> nth k xs 0 <= x) ->
    x < nth (j + 1) xs 0 ->
    r == nth j ys 0
         + (nth (j + 1) ys 0 - nth j ys 0) / (nth (j + 1) xs 0 - nth j xs 0)
           * (x - nth j xs 0) ->
    interp_rel xs ys x r.

(** The entry of [np.interp] for a request of the single abscissa [x]. *)
Definition interp_one (dx : list float64) (dy : list Q) (x : Q) : float64 :=
  if Nat.eqb (length dx) 1 then np.interp_single dx dy x
  else np.interp_at (np.binary_search_with_guess x dx 0) dx dy x.

(** What the index search promises on an array of finite numbers in
    ascending order. *)
Definition located (xs : list Q) (key : Q) (p : np.position) : Prop :=
  match p with
  | np.Above => last xs 0 < key
  | np.Below => key < hd 0 xs
  | np.Inside j =>
      (j < length xs)%nat /\ key <= last xs 0 /\
      (forall k, (k <= j)%nat -> nth k xs 0 <= key) /\
      ((j + 1 < length xs)%nat -> key < nth (j + 1) xs 0)
  end.

(** An entry that [np.interp] returns over coordinates that are all NaN
    and the sorted samples [s]: NaN, or the common value of two samples
    next to each other in [s] that are equal. *)
Definition nan_or_tied (s : list Q) (e : float64) : Prop :=
  e = NaN \/
  exists j, (j + 1 < length s)%nat /\ nth j s 0 == nth (j + 1) s 0 /\
            e = Fin (nth j s 0).

(** No two samples are the same number. *)
Definition distinct (values : list Q) : Prop :=
  forall i j, (i < length values)%nat -> (j < length values)%nat ->
              i <> j -> ~ nth i values 0 == nth j values 0.

(** ** Reference definitions of the specification *)

(** Step 5 as the specification words it: subtract the minimum of the
    positions, then divide by the maximum of the shifted positions. *)
Definition spec_normalized (position : list Q) : list Q :=
  let shifted := map (fun p => p - min_of position) position in
  map (fun s => s / max_of shifted) shifted.

(** The standard percentile with linear interpolation of the samples at
    [p] percent: with the samples in ascending order and [h = p/100 * (N-1)],
    the value between the samples of index [floor h] and [floor h + 1] at
    the fraction [h - floor h]. *)
Definition standard_percentile (samples : list Q) (p : Q) : Q :=
  let s := sorted_values samples in
  let h := p / 100 * (inject_Z (Z.of_nat (length samples)) - 1) in
  let i := Z.to_nat (Qfloor h) in
  let lo := nth i s 0 in
  let hi := nth (Nat.min (i + 1) (length samples - 1)) s 0 in
  lo + (h - inject_Z (Qfloor h)) * (hi - lo).

(** ** Further vocabulary *)

(** At most one weight is zero, none is negative: any two of them have a
    positive sum. *)
Definition at_most_one_zero (w : list Q) : Prop :=
  forall i j, (i < length w)%nat -> (j < length w)%nat -> i <> j ->
              0 < nth i w 0 + nth j w 0.

(** The outcome [res] of a call over the store [h] is the outcome
    [expected] of the function: the same error, or the location of an
    array with the expected entries. *)
Definition outcome_in (h : Stateful.heap) (res : result Stateful.loc)
  (expected : result (list float64)) : Prop :=
  match res, expected with
  | Return l, Return r => nth_error h l = Some (Stateful.Float64Array r)
  | Raise e, Raise e' => e = e'
  | _, _ => False
  end.

(** ** Vertical finite differences of the Eady growth rate diagnostic

    [EadyGrowthRate.vertical_integration] from
    [esmvaltool/diag_scripts/primavera/eady_growth_rate/eady_growth_rate.py].
    The cubes have the axes (time, pressure level, latitude, longitude) and
    the method slices the second axis only; every other operation is
    element by element.  The model is the computation at one time, latitude
    and longitude: [x] and [y] are the values along the pressure axis, exact
    rationals as in the first embedding of the estimator. *)

Module Eady.

(** [x[:, k, :, :]] *)
Definition level (x : list Q) (k : nat) : result Q :=
  match nth_error x k with
  | Some v => Return v
  | None => Raise (IndexError k (length x))
  end.

(** The levels of [x] from [a] to [b - 1], for bounds that are not
    negative; the bounds are cut to the levels there are. *)
Definition span (x : list Q) (a b : nat) : list Q :=
  firstn (b - a) (skipn a x).

(** [x[:, a:b, :, :]] of an iris cube: a slice that selects no level is
    refused. *)
Definition slice (x : list Q) (a b : nat) : result (list Q) :=
  match span x a b with
  | [] => Raise ZeroLengthSlice
  | s => Return s
  end.

(** An operation element by element along one axis, with the broadcasting
    of an axis of length one. *)
Definition elementwise {A B C : Type} (f : A -> B -> C)
  (a : list A) (b : list B) : result (list C) :=
  if Nat.eqb (length a) (length b)
  then Return (map (fun p => f (fst p) (snd p)) (combine a b))
  else
    match a, b with
    | [u], _ => Return (map (f u) b)
    | _, [v] => Return (map (fun u => f u v) a)
    | _, _ => Raise (ValueError "operands could not be broadcast together")
    end.

Definition quotient (n d : Q) : float64 := f_div (Fin n) (Fin d).

(** [da.roll(a, shift, axis=1)] *)
Definition roll {A : Type} (shift : nat) (a : list A) : list A :=
  match length a with
  | O => a
  | S _ =>
      let k := (length a - shift mod length a)%nat in
      skipn k a ++ firstn k a
  end.

(** The slices are reached with at least two levels in [x], since the
    index 1 comes first, so the bound [plevs - 2] is not negative.  With
    exactly two levels the slice [2:plevs] of line 114 is empty. *)
Definition vertical_integration (x y : list Q) : result (list float64) :=
  let plevs := length x in
  x1 <- level x 1 ;;
  x0 <- level x 0 ;;
  y1 <- level y 1 ;;
  y0 <- level y 0 ;;
  let dxdy_0 := quotient (x1 - x0) (y1 - y0) in
  x_upper <- slice x 2 plevs ;;
  x_lower <- slice x 0 (plevs - 2) ;;
  dx <- elementwise Qminus x_upper x_lower ;;
  y_upper <- slice y 2 plevs ;;
  y_lower <- slice y 0 (plevs - 2) ;;
  dy <- elementwise Qminus y_upper y_lower ;;
  dxdy_centre <- elementwise quotient dx dy ;;
  xn <- level x (plevs - 1) ;;
  xm <- level x (plevs - 2) ;;
  yn <- level y (plevs - 1) ;;
  ym <- level y (plevs - 2) ;;
  let dxdy_end := quotient (xn - xm) (yn - ym) in
  let bounds := [dxdy_end; dxdy_0] in
  let dxdy := dxdy_centre ++ bounds in
  Return (roll 1 dxdy).

(** [abs] of a double *)
Definition f_abs (a : float64) : float64 :=
  match a with
  | Fin q => Fin (Qabs q)
  | PInf | NInf => PInf
  | NaN => NaN
  end.

(** [self.con] *)
Definition con : Q := 3098 # 10000.

(** [EadyGrowthRate.eady_growth_rate] at one time, latitude and longitude.
    The Coriolis parameter [fcor] depends on the latitude only and is one
    number for the column. *)
Definition eady_growth_rate (fcor : Q) (ua zg brunt : list Q)
  : result (list float64) :=
  dudz <- vertical_integration ua zg ;;
  let scaled := map (fun d => f_mul (Fin (con * Qabs fcor)) (f_abs d)) dudz in
  elementwise f_div scaled (map Fin brunt).

End Eady.

(** ** The caller of the estimator

    [calculate_percentiles] from [weighted_temperature_graph.py], for data
    held in memory.  [xr.apply_ufunc] with [vectorize=True] and the core
    dimension [model_ensemble] calls the function once for each slice of
    the data along the other dimension, with the values of the ensemble
    members as the only positional argument and [kwargs] as keywords. *)

Module Percentiles.

(** The values that reach the call as keywords: [None], an array of
    floats, or the empty dict that the test of line 156 lets through. *)
Inductive pyvalue : Type :=
| PyNone
| PyFloats (a : list Q)
| PyEmptyDict.

Inductive error : Type :=
| Exception (e : exn)
| KeyError (key : string)
| TooManyIndices.

Inductive outcome (A : Type) : Type :=
| Done (a : A)
| Failed (e : error).

Arguments Done {A} a.
Arguments Failed {A} e.

Definition then_ {A B : Type} (m : outcome A) (k : A -> outcome B)
  : outcome B :=
  match m with
  | Done a => k a
  | Failed e => Failed e
  end.

Notation "x <-- m ;; k" := (then_ m (fun x => k))
  (at level 61, m at next level, right associativity).

Definition of_result {A : Type} (r : result A) : outcome A :=
  match r with
  | Return a => Done a
  | Raise e => Failed (Exception e)
  end.

(** The body of [weighted_quantile] for the values a keyword can carry.
    A quantile argument that is not an array fails in the comparison of
    line 57; an empty dict as weights becomes an array without axes,
    which line 62 cannot index. *)
Definition weighted_quantile_py (values : list Q) (quantiles weights : pyvalue)
  : outcome (list float64) :=
  match quantiles with
  | PyNone =>
      Failed (Exception (TypeError
        "'>=' not supported between instances of 'NoneType' and 'int'"))
  | PyEmptyDict =>
      Failed (Exception (TypeError
        "'>=' not supported between instances of 'dict' and 'int'"))
  | PyFloats q =>
      match weights with
      | PyNone => of_result (weighted_quantile values q None)
      | PyFloats w => of_result (weighted_quantile values q (Some w))
      | PyEmptyDict =>
          if negb (np.all_in_unit q) then Failed (Exception quantile_error)
          else Failed TooManyIndices
      end
  end.

(** Lines 28 to 30: the parameters of [weighted_quantile]. *)
Definition parameters : list string := ["values"; "quantiles"; "weights"]%string.

Definition lookup {A : Type} (key : string) (d : list (string * A))
  : option A :=
  option_map snd (find (fun kv => String.eqb key (fst kv)) d).

(** The binding of the keywords of a call whose first parameter is bound
    by position, in the order of the dict. *)
Fixpoint bind_keywords (bound kwargs : list (string * pyvalue))
  : outcome (list (string * pyvalue)) :=
  match kwargs with
  | [] => Done bound
  | (name, v) :: rest =>
      if negb (existsb (String.eqb name) parameters) then
        Failed (Exception (TypeError
          ("weighted_quantile() got an unexpected keyword argument '"
           ++ name ++ "'")))
      else if String.eqb name "values"
              || existsb (fun kv => String.eqb name (fst kv)) bound then
        Failed (Exception (TypeError
          ("weighted_quantile() got multiple values for argument '"
           ++ name ++ "'")))
      else bind_keywords (bound ++ [(name, v)]) rest
  end%string.

(** [weighted_quantile(values, **kwargs)] *)
Definition call (values : list Q) (kwargs : list (string * pyvalue))
  : outcome (list float64) :=
  bound <-- bind_keywords [] kwargs ;;
  match lookup "quantiles" bound with
  | None =>
      Failed (Exception (TypeError
        "weighted_quantile() missing 1 required positional argument: 'quantiles'"))
  | Some quantiles =>
      let weights :=
        match lookup "weights" bound with
        | Some w => w
        | None => PyNone
        end in
      weighted_quantile_py values quantiles weights
  end.

(** The data: the names of the ensemble members and, for each point of
    the other dimension, the values of the members. *)
Record data_array : Type := {
  model_ensemble : list string;
  slices : list (list Q)
}.

(** [[weights[member] for member in members]] *)
Fixpoint member_weights (weights : list (string * Q)) (members : list string)
  : outcome (list Q) :=
  match members with
  | [] => Done []
  | member :: rest =>
      match lookup member weights with
      | None => Failed (KeyError member)
      | Some w => ws <-- member_weights weights rest ;; Done (w :: ws)
      end
  end.

Fixpoint for_each (f : list Q -> outcome (list float64))
  (l : list (list Q)) : outcome (list (list float64)) :=
  match l with
  | [] => Done []
  | s :: rest => r <-- f s ;; rs <-- for_each f rest ;; Done (r :: rs)
  end.

(** [xr.apply_ufunc(f, data, ..., vectorize=True)] *)
Definition apply_ufunc (f : list Q -> outcome (list float64))
  (l : list (list Q)) : outcome (list (list float64)) :=
  match l with
  | [] =>
      Failed (Exception (ValueError
        "cannot call `vectorize` on size 0 inputs unless `otypes` is set"))
  | _ => for_each f l
  end.

(** The result: the coordinate [percentiles] and one array for each
    slice. *)
Definition calculate_percentiles (data : data_array) (percentiles : list Q)
  (weights : option (list (string * Q)))
  : outcome (list Q * list (list float64)) :=
  weights <--
    match weights with
    | None => Done PyNone
    | Some [] => Done PyEmptyDict
    | Some w =>
        ws <-- member_weights w (model_ensemble data) ;; Done (PyFloats ws)
    end ;;
  output <--
    apply_ufunc
      (fun values =>
         call values [("sample_weight", weights);
                      ("quantiles",
                       PyFloats (map (fun p => p / 100) percentiles))]%string)
      (slices data) ;;
  Done (percentiles, output).

End Percentiles.

(** Two members and two points in time. *)
Definition example_data : Percentiles.data_array :=
  {| Percentiles.model_ensemble := ["model_a"; "model_b"]%string;
     Percentiles.slices := [[1; 2]; [3; 5]] |}.

(** ** The estimator over binary64 numbers

    The same function once more, statement by statement, with the numbers
    of the machine: an array of dtype float64 holds IEEE 754 binary64
    values and every operation on them rounds to nearest, overflows to an
    infinity and yields NaN as the hardware does.  Weights given as Python
    integers make an array of dtype int64, whose [np.cumsum] wraps around
    at [2^63] and which is converted to float64 where it meets a float.
    The samples and the quantiles are taken as float64 arrays (no
    arithmetic is done on integer samples before [np.interp] converts
    them).  This model is
    evaluated on concrete inputs, to show where rounding, overflow and
    wrap-around take the function away from its value in exact
    arithmetic. *)

Module Binary64.

Import PrimFloat.
Local Open Scope float_scope.

(** The weights as [np.array(weights)] holds them. *)
Inductive weights_array : Type :=
| Float64 (a : list float)
| Int64 (a : list Z).

(** The 64-bit integer that an integer result wraps around to. *)
Definition wrap_int64 (z : Z) : Z :=
  ((z + 2 ^ 63) mod 2 ^ 64 - 2 ^ 63)%Z.

(** The conversion of a 64-bit integer to float64, rounded to nearest. *)
Definition of_int64 (z : Z) : float :=
  if (z =? - 2 ^ 63)%Z then - 0x1p63
  else if (z <? 0)%Z then - of_uint63 (Uint63.of_Z (- z))
  else of_uint63 (Uint63.of_Z z).

Module np.

(** [np.ones(n)] *)
Definition ones (n : nat) : list float := repeat 1 n.

(** The order of numpy's sorts: NaN comes after every number. *)
Definition lt_nan_last (a b : float) : bool :=
  (a <? b) || (is_nan b && negb (is_nan a)).

Fixpoint insert_idx (a : list float) (i : nat) (idx : list nat)
  : list nat :=
  match idx with
  | [] => [i]
  | j :: rest =>
      if lt_nan_last (nth j a nan) (nth i a nan)
      then j :: insert_idx a i rest
      else i :: j :: rest
  end.

(** [np.argsort(a)], with equal entries in their original order. *)
Definition argsort (a : list float) : list nat :=
  fold_right (insert_idx a) [] (seq 0 (length a)).

(** [a[idx]] *)
Fixpoint take {A : Type} (a : list A) (idx : list nat) : result (list A) :=
  match idx with
  | [] => Return []
  | i :: rest =>
      match nth_error a i with
      | Some x => r <- take a rest ;; Return (x :: r)
      | None => Raise (IndexError i (length a))
      end
  end.

(** [weights[idx]]: the dtype is kept. *)
Definition take_weights (w : weights_array) (idx : list nat)
  : result weights_array :=
  match w with
  | Float64 a => r <- take a idx ;; Return (Float64 r)
  | Int64 a => r <- take a idx ;; Return (Int64 r)
  end.

(** The float64 array that an array becomes in arithmetic with floats. *)
Definition as_float64 (w : weights_array) : list float :=
  match w with
  | Float64 a => a
  | Int64 a => map of_int64 a
  end.

Fixpoint cumsum_from (acc : float) (a : list float) : list float :=
  match a with
  | [] => []
  | x :: rest => (acc + x) :: cumsum_from (acc + x) rest
  end.

(** [np.cumsum(a)]: the first entry is [a[0]], every further entry adds one
    entry of [a] to the entry before it. *)
Definition cumsum (a : list float) : list float :=
  match a with
  | [] => []
  | x :: rest => x :: cumsum_from x rest
  end.

Fixpoint cumsum_int64_from (acc : Z) (a : list Z) : list Z :=
  match a with
  | [] => []
  | x :: rest =>
      let sum := wrap_int64 (acc + x) in sum :: cumsum_int64_from sum rest
  end.

(** [np.cumsum(a)] of an int64 array: an int64 array, sums wrap around. *)
Definition cumsum_int64 (a : list Z) : list Z :=
  match a with
  | [] => []
  | x :: rest => x :: cumsum_int64_from x rest
  end.

(** [np.cumsum(weights)]: the dtype is kept. *)
Definition cumsum_weights (w : weights_array) : weights_array :=
  match w with
  | Float64 a => Float64 (cumsum a)
  | Int64 a => Int64 (cumsum_int64 a)
  end.

(** [c * a] *)
Definition scale (c : float) (a : list float) : list float :=
  map (fun x => c * x) a.

(** [a - b] for arrays of the same shape *)
Fixpoint sub (a b : list float) : list float :=
  match a, b with
  | x :: a', y :: b' => (x - y) :: sub a' b'
  | _, _ => []
  end.

(** [a - c] for a scalar [c] *)
Definition sub_scalar (a : list float) (c : float) : list float :=
  map (fun x => x - c) a.

(** [a / c] for a scalar [c] *)
Definition div_scalar (a : list float) (c : float) : list float :=
  map (fun x => x / c) a.

(** [a.min()]: a NaN in the array is the result. *)
Definition min (a : list float) : result float :=
  match a with
  | [] => Raise (empty_reduction_error "minimum")
  | x :: rest =>
      Return (fold_left (fun m y => if (m <=? y) || is_nan m then m else y)
                        rest x)
  end.

(** [a.max()]: a NaN in the array is the result. *)
Definition max (a : list float) : result float :=
  match a with
  | [] => Raise (empty_reduction_error "maximum")
  | x :: rest =>
      Return (fold_left (fun m y => if (y <=? m) || is_nan m then m else y)
                        rest x)
  end.

(** [np.all((q >= 0) & (q <= 1))] *)
Definition all_in_unit (q : list float) : bool :=
  forallb (fun x => (0 <=? x) && (x <=? 1)) q.

(** [for (i = 1; i < len && key >= arr[i]; ++i);] *)
Fixpoint scan (key : float) (arr : list float) (i : nat) : nat :=
  match arr with
  | [] => i
  | a :: rest => if a <=? key then scan key rest (S i) else i
  end.

(** [while (imin < imax)] of the bisection *)
Fixpoint bisect (fuel : nat) (key : float) (arr : list float)
  (imin imax : nat) : nat :=
  match fuel with
  | O => imin
  | S fuel' =>
      if Nat.ltb imin imax then
        let imid := (imin + (imax - imin) / 2)%nat in
        if nth imid arr nan <=? key
        then bisect fuel' key arr (imid + 1) imax
        else bisect fuel' key arr imin imid
      else imin
  end.

(** [binary_search_with_guess(key, arr, len, guess)]; the positions and the
    constant are those of the search over exact numbers above. *)
Definition binary_search_with_guess (key : float) (arr : list float)
  (guess : nat) : np.position :=
  let len := length arr in
  let item i := nth i arr nan in
  if item (len - 1)%nat <? key then np.Above
  else if key <? item 0%nat then np.Below
  else if Nat.leb len 4 then np.position_of (scan key (tl arr) 1)
  else
    let guess := if Nat.ltb (len - 3) guess then (len - 3)%nat else guess in
    let guess := if Nat.ltb guess 1 then 1%nat else guess in
    if key <? item guess then
      if key <? item (guess - 1)%nat then
        let imax := (guess - 1)%nat in
        let imin :=
          if Nat.ltb np.LIKELY_IN_CACHE_SIZE guess
             && (item (guess - np.LIKELY_IN_CACHE_SIZE)%nat <=? key)
          then (guess - np.LIKELY_IN_CACHE_SIZE)%nat else 0%nat in
        np.position_of (bisect (imax - imin) key arr imin imax)
      else np.Inside (guess - 1)
    else if key <? item (guess + 1)%nat then np.Inside guess
    else if key <? item (guess + 2)%nat then np.Inside (guess + 1)
    else
      let imin := (guess + 2)%nat in
      let imax :=
        if Nat.ltb guess (len - np.LIKELY_IN_CACHE_SIZE - 1)
           && (key <? item (guess + np.LIKELY_IN_CACHE_SIZE)%nat)
        then (guess + np.LIKELY_IN_CACHE_SIZE)%nat else len in
      np.position_of (bisect (imax - imin) key arr imin imax).

(** The entry of [np.interp] for [x_val] at the position [p]. *)
Definition interp_at (p : np.position) (dx dy : list float)
  (x_val : float) : float :=
  let lval := hd nan dy in
  let rval := last dy nan in
  match p with
  | np.Below => lval
  | np.Above => rval
  | np.Inside j =>
      if Nat.eqb j (length dx - 1) then nth j dy nan
      else if nth j dx nan =? x_val then nth j dy nan
      else
        let slope :=
          (nth (j + 1) dy nan - nth j dy nan)
          / (nth (j + 1) dx nan - nth j dx nan) in
        let r := slope * (x_val - nth j dx nan) + nth j dy nan in
        if is_nan r then
          let r' :=
            slope * (x_val - nth (j + 1) dx nan) + nth (j + 1) dy nan in
          if is_nan r' && (nth j dy nan =? nth (j + 1) dy nan)
          then nth j dy nan
          else r'
        else r
  end.

(** The loop of [arr_interp]: a NaN abscissa is copied, every other one is
    searched from the index found for the one before. *)
Fixpoint interp_from (j : nat) (x dx dy : list float) : list float :=
  match x with
  | [] => []
  | x_val :: rest =>
      if is_nan x_val then x_val :: interp_from j rest dx dy
      else
        let p := binary_search_with_guess x_val dx j in
        interp_at p dx dy x_val
        :: interp_from (np.guess_of p (length dx)) rest dx dy
  end.

Definition interp_single (dx dy : list float) (x_val : float) : float :=
  let lval := hd nan dy in
  let rval := last dy nan in
  let xp_val := hd nan dx in
  let fp_val := hd nan dy in
  if x_val <? xp_val then lval
  else if xp_val <? x_val then rval
  else fp_val.

(** [np.interp(x, xp, fp)] *)
Definition interp (x xp fp : list float) : list float :=
  if Nat.eqb (length xp) 1 then map (interp_single xp fp) x
  else interp_from 0 x xp fp.

End np.

(** Lines 60 to 69.  In [np.cumsum(weights) - 0.5 * weights] the product
    and the difference are float64 arrays. *)
Definition sorted_coordinates (values : list float) (weights : weights_array)
  : result (list float * list float) :=
  let idx := np.argsort values in
  values <- np.take values idx ;;
  weights <- np.take_weights weights idx ;;
  let weighted_quantiles :=
    np.sub (np.as_float64 (np.cumsum_weights weights))
           (np.scale 0.5 (np.as_float64 weights)) in
  min_val <- np.min weighted_quantiles ;;
  max_val <- np.max weighted_quantiles ;;
  let weighted_quantiles :=
    np.div_scalar (np.sub_scalar weighted_quantiles min_val) max_val in
  Return (values, weighted_quantiles).

Definition weighted_quantile (values quantiles : list float)
  (weights : option weights_array) : result (list float) :=
  let weights :=
    match weights with
    | None => Float64 (np.ones (length values))
    | Some w => w
    end in
  if negb (np.all_in_unit quantiles) then Raise quantile_error
  else
    '(values, weighted_quantiles) <- sorted_coordinates values weights ;;
    Return (np.interp quantiles weighted_quantiles values).

End Binary64.

(** * Properties *)

(** ** Comparisons *)

Lemma Qlt_bool_iff (a b : Q) : Qlt_bool a b = true <-> a < b.
Proof.
  unfold Qlt_bool. rewrite negb_true_iff.
  destruct (Qle_bool b a) eqn:E.
  - apply Qle_bool_iff in E. split; [discriminate | intro; lra].
  - split; [intros _ | reflexivity].
    destruct (Qlt_le_dec a b) as [H | H]; [exact H |].
    apply Qle_bool_iff in H. congruence.
Qed.

Lemma Qlt_bool_false (a b : Q) : Qlt_bool a b = false <-> b <= a.
Proof.
  unfold Qlt_bool. rewrite negb_false_iff. apply Qle_bool_iff.
Qed.

Lemma Qle_bool_false (a b : Q) : Qle_bool a b = false <-> b < a.
Proof.
  rewrite <- Qlt_bool_iff. unfold Qlt_bool.
  destruct (Qle_bool a b); simpl; split; congruence.
Qed.

Lemma Qeq_bool_false (a b : Q) : Qeq_bool a b = false <-> ~ a == b.
Proof.
  split.
  - intros E H. apply Qeq_bool_iff in H. congruence.
  - apply Qeq_bool_neq_inv || (intro H; destruct (Qeq_bool a b) eqn:E;
      [apply Qeq_bool_iff in E; contradiction | reflexivity]).
Qed.

(** ** Indexing *)

Lemma take_in_bounds (a : list Q) (idx : list nat) :
  Forall (fun i => (i < length a)%nat) idx ->
  np.take a idx = Return (gather a idx).
Proof.
  induction 1 as [| i rest Hi _ IH]; simpl; [reflexivity |].
  destruct (nth_error a i) as [x |] eqn:E.
  - rewrite IH. unfold gather. simpl. unfold val.
    rewrite (nth_error_nth _ _ 0 E). reflexivity.
  - apply nth_error_None in E. lia.
Qed.

Lemma take_out_of_bounds (a : list Q) (idx : list nat) :
  Exists (fun i => (length a <= i)%nat) idx ->
  exists i, In i idx /\ (length a <= i)%nat /\
            np.take a idx = Raise (IndexError i (length a)).
Proof.
  induction 1 as [i rest Hi | i rest _ IH].
  - exists i. simpl. rewrite (proj2 (nth_error_None a i) Hi). auto.
  - simpl. destruct (nth_error a i) as [x |] eqn:E.
    + destruct IH as (k & Hin & Hk & ->). exists k. auto.
    + exists i. pose proof (proj1 (nth_error_None a i) E). auto.
Qed.

(** ** Sorting *)

Lemma insert_idx_perm (a : list Q) (i : nat) (idx : list nat) :
  Permutation (np.insert_idx a i idx) (i :: idx).
Proof.
  induction idx as [| j rest IH]; simpl; [reflexivity |].
  destruct (Qle_bool (nth i a 0) (nth j a 0)); [reflexivity |].
  rewrite IH. apply perm_swap.
Qed.

Lemma argsort_perm (a : list Q) :
  Permutation (np.argsort a) (seq 0 (length a)).
Proof.
  unfold np.argsort. induction (seq 0 (length a)) as [| i l IH]; simpl.
  - reflexivity.
  - rewrite insert_idx_perm. now constructor.
Qed.

Lemma argsort_length (a : list Q) : length (np.argsort a) = length a.
Proof.
  rewrite (Permutation_length (argsort_perm a)). apply length_seq.
Qed.

Lemma argsort_in (a : list Q) (i : nat) :
  In i (np.argsort a) <-> (i < length a)%nat.
Proof.
  split; intro H.
  - apply (Permutation_in _ (argsort_perm a)) in H.
    apply in_seq in H. lia.
  - apply (Permutation_in _ (Permutation_sym (argsort_perm a))).
    apply in_seq. lia.
Qed.

Lemma insert_idx_sorted (a : list Q) (i : nat) (idx : list nat) :
  Sorted (le_at a) idx -> Sorted (le_at a) (np.insert_idx a i idx).
Proof.
  induction 1 as [| j rest Hs IH Hhd]; simpl.
  - repeat constructor.
  - destruct (Qle_bool (nth i a 0) (nth j a 0)) eqn:E.
    + apply Qle_bool_iff in E. repeat constructor; assumption.
    + apply Qle_bool_false in E. constructor; [exact IH |].
      destruct Hhd as [| k rest' Hk]; simpl.
      * constructor. unfold le_at, val. lra.
      * destruct (Qle_bool (nth i a 0) (nth k a 0));
          constructor; unfold le_at, val in *; lra.
Qed.

Lemma argsort_sorted (a : list Q) : Sorted (le_at a) (np.argsort a).
Proof.
  unfold np.argsort. induction (seq 0 (length a)) as [| i l IH]; simpl.
  - constructor.
  - now apply insert_idx_sorted.
Qed.

Lemma StronglySorted_ascending (l : list Q) :
  StronglySorted Qle l -> ascending l.
Proof.
  induction 1 as [| x l Hs IH Hall]; intros i j Hij; simpl in Hij.
  - lia.
  - destruct i as [| i], j as [| j]; simpl; try lra; try lia.
    + rewrite Forall_forall in Hall. apply Hall, nth_In. lia.
    + apply IH. lia.
Qed.

Lemma gather_argsort_ascending (a : list Q) :
  ascending (gather a (np.argsort a)).
Proof.
  apply StronglySorted_ascending.
  assert (H : StronglySorted (le_at a) (np.argsort a)).
  { apply Sorted_StronglySorted; [| apply argsort_sorted].
    intros x y z. unfold le_at. lra. }
  unfold gather. induction H as [| i l _ IH Hall]; simpl; constructor.
  - exact IH.
  - rewrite Forall_map. exact Hall.
Qed.

Lemma gather_seq (a : list Q) : gather a (seq 0 (length a)) = a.
Proof.
  unfold gather, val. induction a as [| x a IH]; simpl; [reflexivity |].
  f_equal. rewrite <- seq_shift, map_map. exact IH.
Qed.

Lemma gather_argsort_perm (a : list Q) :
  Permutation (gather a (np.argsort a)) a.
Proof.
  unfold gather at 1. rewrite (Permutation_map _ (argsort_perm a)).
  fold (gather a (seq 0 (length a))).
  now rewrite gather_seq.
Qed.

Lemma take_argsort (a : list Q) :
  np.take a (np.argsort a) = Return (gather a (np.argsort a)).
Proof.
  apply take_in_bounds, Forall_forall. intros i. apply argsort_in.
Qed.

(** ** Reductions *)

Lemma np_min_nonempty (l : list Q) : l <> [] -> np.min l = Return (min_of l).
Proof. destruct l; [congruence | reflexivity]. Qed.

Lemma np_max_nonempty (l : list Q) : l <> [] -> np.max l = Return (max_of l).
Proof. destruct l; [congruence | reflexivity]. Qed.

Lemma Qmin_cases (x y : Q) : Qmin x y = x \/ Qmin x y = y.
Proof. unfold Qmin, GenericMinMax.gmin. destruct (x ?= y); auto. Qed.

Lemma Qmax_cases (x y : Q) : Qmax x y = x \/ Qmax x y = y.
Proof. unfold Qmax, GenericMinMax.gmax. destruct (x ?= y); auto. Qed.

Lemma fold_Qmin_spec (l : list Q) (x : Q) :
  In (fold_left Qmin l x) (x :: l) /\
  Forall (Qle (fold_left Qmin l x)) (x :: l).
Proof.
  revert x. induction l as [| y l IH]; intros x; simpl.
  - split; [auto | constructor; [lra | constructor]].
  - destruct (IH (Qmin x y)) as [Hin Hall]. split.
    + destruct Hin as [<- | Hin]; [| auto].
      destruct (Qmin_cases x y) as [-> | ->]; auto.
    + inversion Hall as [| ? ? Hm Hl]; subst.
      pose proof (Q.le_min_l x y). pose proof (Q.le_min_r x y).
      repeat constructor; try lra. exact Hl.
Qed.

Lemma fold_Qmax_spec (l : list Q) (x : Q) :
  In (fold_left Qmax l x) (x :: l) /\
  Forall (fun y => y <= fold_left Qmax l x) (x :: l).
Proof.
  revert x. induction l as [| y l IH]; intros x; simpl.
  - split; [auto | constructor; [lra | constructor]].
  - destruct (IH (Qmax x y)) as [Hin Hall]. split.
    + destruct Hin as [<- | Hin]; [| auto].
      destruct (Qmax_cases x y) as [-> | ->]; auto.
    + inversion Hall as [| ? ? Hm Hl]; subst.
      pose proof (Q.le_max_l x y). pose proof (Q.le_max_r x y).
      repeat constructor; try lra. exact Hl.
Qed.

Lemma min_of_spec (l : list Q) :
  l <> [] -> In (min_of l) l /\ Forall (Qle (min_of l)) l.
Proof.
  destruct l as [| x l]; [congruence | intros _]. apply fold_Qmin_spec.
Qed.

Lemma max_of_spec (l : list Q) :
  l <> [] -> In (max_of l) l /\ Forall (fun y => y <= max_of l) l.
Proof.
  destruct l as [| x l]; [congruence | intros _]. apply fold_Qmax_spec.
Qed.

Lemma last_nth (l : list Q) : last l 0 = nth (length l - 1) l 0.
Proof.
  induction l as [| x l IH]; [reflexivity |].
  destruct l as [| y l]; [reflexivity |].
  change (last (x :: y :: l) 0) with (last (y :: l) 0). rewrite IH.
  simpl. now rewrite Nat.sub_0_r.
Qed.

Lemma hd_nth (l : list Q) : hd 0 l = nth 0 l 0.
Proof. now destruct l. Qed.

Lemma min_of_ascending (l : list Q) :
  l <> [] -> ascending l -> min_of l == hd 0 l.
Proof.
  intros Hne Hasc. destruct (min_of_spec l Hne) as [Hin Hall].
  apply Qle_antisym.
  - rewrite Forall_forall in Hall. apply Hall.
    destruct l; [congruence | now left].
  - destruct (In_nth _ _ 0 Hin) as (k & Hk & <-).
    rewrite hd_nth. apply Hasc. lia.
Qed.

Lemma max_of_ascending (l : list Q) :
  l <> [] -> ascending l -> max_of l == last l 0.
Proof.
  intros Hne Hasc. destruct (max_of_spec l Hne) as [Hin Hall].
  assert (0 < length l)%nat by (destruct l; simpl; [congruence | lia]).
  apply Qle_antisym.
  - destruct (In_nth _ _ 0 Hin) as (k & Hk & <-).
    rewrite last_nth. apply Hasc. lia.
  - rewrite Forall_forall in Hall. apply Hall.
    rewrite last_nth. apply nth_In. lia.
Qed.

(** ** Positions of the samples in the cumulated weights *)

Lemma positions_from_cons (acc x : Q) (w : list Q) :
  positions_from acc (x :: w) =
  (acc + x - (1 # 2) * x) :: positions_from (acc + x) w.
Proof. reflexivity. Qed.

Lemma positions_from_length (acc : Q) (w : list Q) :
  length (positions_from acc w) = length w.
Proof.
  revert acc. induction w as [| x w IH]; intros acc; [reflexivity |].
  rewrite positions_from_cons. simpl. now rewrite IH.
Qed.

Lemma positions_from_lower (acc : Q) (w : list Q) :
  Forall (Qle 0) w -> Forall (Qle acc) (positions_from acc w).
Proof.
  intros H. revert acc. induction H as [| x w Hx _ IH]; intros acc.
  - constructor.
  - rewrite positions_from_cons. constructor; [lra |].
    eapply Forall_impl; [| apply IH]. simpl. intros y Hy. lra.
Qed.

Lemma positions_from_sorted (acc : Q) (w : list Q) :
  Forall (Qle 0) w -> StronglySorted Qle (positions_from acc w).
Proof.
  intros H. revert acc. induction H as [| x w Hx Hw IH]; intros acc.
  - constructor.
  - rewrite positions_from_cons. constructor; [apply IH |].
    eapply Forall_impl; [| apply positions_from_lower, Hw].
    simpl. intros y Hy. lra.
Qed.

Lemma positions_from_last (acc : Q) (w : list Q) :
  Forall (Qle 0) w -> Exists (Qlt 0) w ->
  acc < last (positions_from acc w) 0.
Proof.
  intros H. revert acc. induction H as [| x w Hx Hw IH]; intros acc Hex.
  - inversion Hex.
  - rewrite positions_from_cons. destruct w as [| y w].
    + simpl. inversion Hex as [? ? Hp | ? ? Hp]; subst; [lra | inversion Hp].
    + rewrite positions_from_cons.
      change (last (?a :: ?b :: ?l) 0) with (last (b :: l) 0).
      rewrite <- positions_from_cons.
      inversion Hex as [? ? Hp | ? ? Hp]; subst.
      * pose proof (positions_from_lower (acc + x) (y :: w) Hw) as Hl.
        rewrite Forall_forall in Hl.
        assert (acc + x <= last (positions_from (acc + x) (y :: w)) 0).
        { apply Hl. rewrite last_nth. apply nth_In.
          rewrite positions_from_length. simpl. lia. }
        lra.
      * specialize (IH (acc + x) Hp). lra.
Qed.

Lemma positions_ascending (w : list Q) :
  Forall (Qle 0) w -> ascending (positions w).
Proof. intros H. now apply StronglySorted_ascending, positions_from_sorted. Qed.

Lemma positions_max_pos (w : list Q) :
  Forall (Qle 0) w -> Exists (Qlt 0) w -> 0 < max_of (positions w).
Proof.
  intros Hw Hex.
  assert (Hne : positions w <> []).
  { destruct w; [inversion Hex | discriminate]. }
  rewrite (max_of_ascending _ Hne (positions_ascending w Hw)).
  now apply positions_from_last.
Qed.

Lemma positions_min_nonneg (w : list Q) :
  w <> [] -> Forall (Qle 0) w -> 0 <= min_of (positions w).
Proof.
  intros Hne Hw.
  assert (Hp : positions w <> []) by (destruct w; [congruence | discriminate]).
  destruct (min_of_spec _ Hp) as [Hin _].
  pose proof (positions_from_lower 0 w Hw) as Hl.
  rewrite Forall_forall in Hl. now apply Hl.
Qed.

(** ** The interpolation x-coordinates *)

Lemma nth_map_Q (f : Q -> Q) (l : list Q) (k : nat) :
  (k < length l)%nat -> nth k (map f l) 0 = f (nth k l 0).
Proof.
  intros Hk. rewrite (nth_indep _ 0 (f 0)) by now rewrite length_map.
  apply map_nth.
Qed.

Lemma nth_map_Fin (l : list Q) (k : nat) :
  (k < length l)%nat -> nth k (map Fin l) NaN = Fin (nth k l 0).
Proof.
  intros Hk. rewrite (nth_indep _ NaN (Fin 0)) by now rewrite length_map.
  apply (map_nth Fin).
Qed.

Lemma div_scalar_fin (l : list Q) (c : Q) :
  ~ c == 0 -> np.div_scalar l c = map Fin (map (fun x => x / c) l).
Proof.
  intros Hc. unfold np.div_scalar. rewrite map_map.
  apply map_ext. intros x. simpl.
  now rewrite (proj2 (Qeq_bool_false c 0) Hc).
Qed.

Lemma div_scalar_zero (l : list Q) (c : Q) :
  c == 0 -> Forall (fun x => x == 0) l ->
  np.div_scalar l c = map (fun _ => NaN) l.
Proof.
  intros Hc Hl. unfold np.div_scalar.
  induction Hl as [| x l Hx _ IH]; [reflexivity |].
  cbn [map]. rewrite IH. f_equal. unfold f_div, inf_of_sign.
  now rewrite (proj2 (Qeq_bool_iff c 0) Hc), (proj2 (Qeq_bool_iff x 0) Hx).
Qed.

Lemma gather_length (a : list Q) (idx : list nat) :
  length (gather a idx) = length idx.
Proof. apply length_map. Qed.

Lemma positions_nonempty (w : list Q) : w <> [] -> positions w <> [].
Proof. destruct w; [congruence | discriminate]. Qed.

Lemma positions_unfold (w : list Q) :
  np.sub (np.cumsum w) (np.scale (1 # 2) w) = positions w.
Proof. reflexivity. Qed.

(** What lines 60 to 69 compute when the samples are not empty and no
    weight is missing. *)
Lemma sorted_coordinates_eq (values weights : list Q) :
  values <> [] -> (length values <= length weights)%nat ->
  let w := gather weights (np.argsort values) in
  sorted_coordinates values weights =
  Return (gather values (np.argsort values),
          np.div_scalar (np.sub_scalar (positions w) (min_of (positions w)))
                        (max_of (positions w))).
Proof.
  intros Hne Hlen w. unfold sorted_coordinates.
  rewrite take_argsort. simpl.
  rewrite take_in_bounds.
  2:{ apply Forall_forall. intros i Hi. apply argsort_in in Hi. lia. }
  simpl. rewrite !positions_unfold. fold w.
  assert (Hw : w <> []).
  { intros E. apply (f_equal (@length Q)) in E.
    unfold w in E. rewrite gather_length, argsort_length in E.
    destruct values; [congruence | discriminate]. }
  rewrite (np_min_nonempty _ (positions_nonempty w Hw)). simpl.
  rewrite (np_max_nonempty _ (positions_nonempty w Hw)). reflexivity.
Qed.

Lemma sorted_coordinates_fin (values weights : list Q) :
  values <> [] -> (length values <= length weights)%nat ->
  let w := gather weights (np.argsort values) in
  ~ max_of (positions w) == 0 ->
  sorted_coordinates values weights =
  Return (gather values (np.argsort values), map Fin (normalized w)).
Proof.
  intros Hne Hlen w Hmax.
  rewrite (sorted_coordinates_eq values weights Hne Hlen). fold w.
  rewrite (div_scalar_fin _ _ Hmax). unfold normalized, np.sub_scalar.
  do 3 f_equal. apply map_map.
Qed.

Lemma normalized_length (w : list Q) : length (normalized w) = length w.
Proof.
  unfold normalized. rewrite length_map. apply positions_from_length.
Qed.

Lemma normalized_nth (w : list Q) (k : nat) :
  (k < length w)%nat ->
  nth k (normalized w) 0 =
  (nth k (positions w) 0 - min_of (positions w)) / max_of (positions w).
Proof.
  intros Hk. unfold normalized. rewrite nth_map_Q; [reflexivity |].
  unfold positions. now rewrite positions_from_length.
Qed.

Section Normalized.

Variable w : list Q.
Hypothesis w_nonneg : Forall (Qle 0) w.
Hypothesis w_positive : Exists (Qlt 0) w.

Lemma w_nonempty : w <> [].
Proof using w_nonneg w_positive.
  destruct w; [inversion w_positive | discriminate].
Qed.

Lemma normalized_ascending : ascending (normalized w).
Proof using w_nonneg w_positive.
  intros i j Hij. rewrite normalized_length in Hij.
  rewrite !normalized_nth by lia.
  pose proof (positions_max_pos w w_nonneg w_positive) as Hmax.
  pose proof (positions_ascending w w_nonneg i j) as Hasc.
  unfold positions in Hasc at 1. rewrite positions_from_length in Hasc.
  specialize (Hasc Hij).
  apply Qmult_le_r with (z := max_of (positions w)); [exact Hmax |].
  field_simplify; [lra | lra | lra].
Qed.

Lemma normalized_first : hd 0 (normalized w) == 0.
Proof using w_nonneg w_positive.
  pose proof w_nonempty as Hne.
  assert (0 < length w)%nat by (destruct w; simpl; [congruence | lia]).
  rewrite hd_nth, normalized_nth by lia.
  pose proof (positions_max_pos w w_nonneg w_positive) as Hmax.
  rewrite <- hd_nth.
  rewrite (min_of_ascending _ (positions_nonempty w Hne)
             (positions_ascending w w_nonneg)).
  field. lra.
Qed.

Lemma normalized_last : last (normalized w) 0 <= 1.
Proof using w_nonneg w_positive.
  pose proof w_nonempty as Hne.
  assert (0 < length w)%nat by (destruct w; simpl; [congruence | lia]).
  rewrite last_nth, normalized_length, normalized_nth by lia.
  pose proof (positions_max_pos w w_nonneg w_positive) as Hmax.
  pose proof (positions_min_nonneg w Hne w_nonneg) as Hmin.
  destruct (max_of_spec _ (positions_nonempty w Hne)) as [_ Hall].
  rewrite Forall_forall in Hall.
  assert (Hk : nth (length w - 1) (positions w) 0 <= max_of (positions w)).
  { apply Hall, nth_In. unfold positions.
    rewrite positions_from_length. lia. }
  apply Qle_shift_div_r; [exact Hmax | lra].
Qed.

End Normalized.

(** ** Interpolation over finite coordinates *)

Lemma scan_spec (key : Q) (xs : list Q) (i : nat) :
  let j := np.scan key (map Fin xs) i in
  (i <= j <= i + length xs)%nat /\
  (forall k, (k < j - i)%nat -> nth k xs 0 <= key) /\
  ((j - i < length xs)%nat -> key < nth (j - i) xs 0).
Proof.
  revert i. induction xs as [| a xs IH]; intros i; simpl.
  - repeat split; intros; lia.
  - destruct (Qle_bool a key) eqn:E.
    + apply Qle_bool_iff in E.
      destruct (IH (S i)) as (Hr & Hle & Hgt).
      set (j := np.scan key (map Fin xs) (S i)) in *.
      repeat split; try lia.
      * intros [| k] Hk; [exact E | apply Hle; lia].
      * intros Hj. replace (j - i)%nat with (S (j - S i)) by lia.
        apply Hgt. lia.
    + apply Qle_bool_false in E. rewrite Nat.sub_diag.
      repeat split; intros; try lia; auto.
Qed.

Lemma last_map_Fin (xs : list Q) :
  xs <> [] -> last (map Fin xs) NaN = Fin (last xs 0).
Proof.
  induction xs as [| a xs IH]; [congruence | intros _].
  destruct xs as [| b xs]; [reflexivity |].
  simpl in *. apply IH. discriminate.
Qed.

Lemma nth_last_Fin (xs : list Q) :
  xs <> [] -> nth (length xs - 1) (map Fin xs) NaN = Fin (last xs 0).
Proof.
  intros Hne. rewrite nth_map_Fin, <- last_nth; [reflexivity |].
  destruct xs; [congruence | cbn; lia].
Qed.

(** More rounds than the range is long change nothing. *)
Lemma bisect_fuel (key : Q) (arr : list float64) (fuel imin imax : nat) :
  (imax - imin <= fuel)%nat ->
  np.bisect fuel key arr imin imax
  = np.bisect (imax - imin) key arr imin imax.
Proof.
  remember (imax - imin)%nat as n eqn:Hn.
  revert fuel imin imax Hn.
  induction n as [n IH] using lt_wf_ind. intros fuel imin imax Hn Hf.
  destruct fuel as [| fuel].
  - assert (Hz : n = 0%nat) by lia. now rewrite Hz.
  - destruct n as [| n].
    + cbn [np.bisect]. destruct (Nat.ltb_spec imin imax); [lia | reflexivity].
    + cbn [np.bisect]. destruct (Nat.ltb_spec imin imax); [| reflexivity].
      set (imid := (imin + (imax - imin) / 2)%nat).
      assert (Hmid : (imin <= imid < imax)%nat).
      { unfold imid. split; [lia |].
        assert ((imax - imin) / 2 < imax - imin)%nat
          by (apply Nat.div_lt; lia).
        lia. }
      destruct (f_le (nth imid arr NaN) (Fin key)).
      * rewrite (IH (imax - (imid + 1))%nat) by lia.
        symmetry. apply (IH (imax - (imid + 1))%nat); lia.
      * rewrite (IH (imid - imin)%nat) by lia.
        symmetry. apply (IH (imid - imin)%nat); lia.
Qed.

(** The bisection keeps the key between the entries left of [imin] and the
    entry at [imax]. *)
Lemma bisect_spec (key : Q) (xs : list Q) (fuel imin imax : nat) :
  ascending xs ->
  (imin <= imax <= length xs)%nat -> (imax - imin <= fuel)%nat ->
  (forall k, (k < imin)%nat -> nth k xs 0 <= key) ->
  ((imax < length xs)%nat -> key < nth imax xs 0) ->
  let r := np.bisect fuel key (map Fin xs) imin imax in
  (imin <= r <= imax)%nat /\
  (forall k, (k < r)%nat -> nth k xs 0 <= key) /\
  ((r < length xs)%nat -> key < nth r xs 0).
Proof.
  intros Hasc. revert imin imax.
  induction fuel as [| fuel IH]; intros imin imax Hr Hf Hlo Hhi.
  - cbn. assert (imin = imax) by lia. subst imax. auto.
  - cbn [np.bisect]. destruct (Nat.ltb_spec imin imax) as [Hlt | Hge].
    + set (imid := (imin + (imax - imin) / 2)%nat).
      assert (Hmid : (imin <= imid < imax)%nat).
      { unfold imid. split; [lia |].
        assert ((imax - imin) / 2 < imax - imin)%nat
          by (apply Nat.div_lt; lia).
        lia. }
      rewrite nth_map_Fin by lia. cbn [f_le].
      destruct (Qle_bool (nth imid xs 0) key) eqn:E.
      * apply Qle_bool_iff in E.
        destruct (IH (imid + 1)%nat imax) as (H1 & H2 & H3);
          [lia | lia | | exact Hhi | ].
        { intros k Hk. apply Qle_trans with (nth imid xs 0); [| exact E].
          apply Hasc. lia. }
        repeat split; auto; lia.
      * apply Qle_bool_false in E.
        destruct (IH imin imid) as (H1 & H2 & H3);
          [lia | lia | exact Hlo | intros _; exact E | ].
        repeat split; auto; lia.
    + assert (imin = imax) by lia. subst imax. auto.
Qed.

(** A counter [r] that the bisection or the scan leaves gives the index
    [r - 1] its place. *)
Lemma located_position_of (xs : list Q) (key : Q) (r : nat) :
  xs <> [] -> hd 0 xs <= key -> key <= last xs 0 ->
  (r <= length xs)%nat ->
  (forall k, (k < r)%nat -> nth k xs 0 <= key) ->
  ((r < length xs)%nat -> key < nth r xs 0) ->
  located xs key (np.position_of r).
Proof.
  intros Hne H0 Hl Hr Hlo Hhi. destruct r as [| j]; cbn.
  - destruct xs as [| a xs]; cbn in *; [congruence |].
    assert (key < a) by (apply Hhi; lia). lra.
  - repeat split; [lia | exact Hl | |].
    + intros k Hk. apply Hlo. lia.
    + intros Hj. replace (j + 1)%nat with (S j) by lia. apply Hhi. lia.
Qed.

(** On finite coordinates in ascending order the search finds the place of
    the key, whatever the guess. *)
Lemma search_located (key : Q) (xs : list Q) (guess : nat) :
  ascending xs -> xs <> [] ->
  located xs key (np.binary_search_with_guess key (map Fin xs) guess).
Proof.
  intros Hasc Hne. unfold np.binary_search_with_guess.
  rewrite length_map, (nth_last_Fin xs Hne).
  assert (Hlen : (0 < length xs)%nat) by (destruct xs; [congruence | cbn; lia]).
  rewrite (nth_map_Fin xs 0) by lia.
  replace (nth 0 xs 0) with (hd 0 xs) by (destruct xs; reflexivity).
  cbn [f_lt].
  destruct (Qlt_bool (last xs 0) key) eqn:E1.
  { now apply Qlt_bool_iff in E1. }
  apply Qlt_bool_false in E1.
  destruct (Qlt_bool key (hd 0 xs)) eqn:E2.
  { now apply Qlt_bool_iff in E2. }
  apply Qlt_bool_false in E2.
  destruct (Nat.leb_spec (length xs) 4) as [H4 | H4].
  { destruct xs as [| a xs]; [congruence |]. cbn [map tl].
    destruct (scan_spec key xs 1) as (Hr & Hle & Hgt).
    set (r := np.scan key (map Fin xs) 1) in *.
    apply located_position_of; auto; cbn [length]; [lia | |].
    - intros [| k] Hk; [exact E2 |]. cbn [nth]. apply Hle. lia.
    - intros Hj. destruct r as [| r]; [lia |]. cbn [nth].
      replace r with (S r - 1)%nat by lia. apply Hgt. cbn [length] in Hj. lia. }
  set (g1 := if Nat.ltb (length xs - 3) guess then (length xs - 3)%nat
             else guess).
  set (g := if Nat.ltb g1 1 then 1%nat else g1).
  assert (Hg : (1 <= g <= length xs - 3)%nat).
  { unfold g, g1.
    destruct (Nat.ltb_spec (length xs - 3) guess);
      repeat match goal with
             | |- context [Nat.ltb ?a ?b] => destruct (Nat.ltb_spec a b)
             end; lia. }
  clearbody g. clear g1.
  rewrite !nth_map_Fin by lia. cbn [f_lt].
  assert (Hup : forall i j, (i <= j < length xs)%nat ->
                            key < nth i xs 0 -> key < nth j xs 0).
  { intros i j Hij Hk. apply Qlt_le_trans with (nth i xs 0); [exact Hk |].
    now apply Hasc. }
  assert (Hdown : forall i j, (i <= j < length xs)%nat ->
                              nth j xs 0 <= key -> nth i xs 0 <= key).
  { intros i j Hij Hk. apply Qle_trans with (nth j xs 0); [| exact Hk].
    now apply Hasc. }
  destruct (Qlt_bool key (nth g xs 0)) eqn:E3.
  - apply Qlt_bool_iff in E3.
    destruct (Qlt_bool key (nth (g - 1) xs 0)) eqn:E4.
    + apply Qlt_bool_iff in E4.
      match goal with
      | |- context [np.bisect _ _ _ ?i _] => set (imin := i)
      end.
      assert (Hmin : (imin <= g - 1)%nat /\
                     forall k, (k < imin)%nat -> nth k xs 0 <= key).
      { unfold imin, np.LIKELY_IN_CACHE_SIZE.
        destruct (Nat.ltb_spec 8 g) as [H8 | H8]; cbn [andb];
          [| split; intros; lia].
        rewrite ?nth_map_Fin by lia. cbn [f_le].
        destruct (Qle_bool (nth (g - 8) xs 0) key) eqn:E5;
          [| split; intros; lia].
        apply Qle_bool_iff in E5. split; [lia |].
        intros k Hk. apply (Hdown k (g - 8)%nat); [lia | exact E5]. }
      destruct Hmin as (Hmin & Hlo). clearbody imin.
      destruct (bisect_spec key xs (g - 1 - imin) imin (g - 1) Hasc)
        as (Hr & Hle & Hgt); [lia | lia | exact Hlo | intros _; exact E4 |].
      apply located_position_of; auto. lia.
    + apply Qlt_bool_false in E4. cbn.
      repeat split; [lia | exact E1 | |].
      * intros k Hk. apply (Hdown k (g - 1)%nat); [lia | exact E4].
      * intros _. replace (g - 1 + 1)%nat with g by lia. exact E3.
  - apply Qlt_bool_false in E3.
    destruct (Qlt_bool key (nth (g + 1) xs 0)) eqn:E4.
    { apply Qlt_bool_iff in E4. cbn.
      repeat split; [lia | exact E1 | | intros _; exact E4].
      intros k Hk. apply (Hdown k g); [lia | exact E3]. }
    apply Qlt_bool_false in E4.
    destruct (Qlt_bool key (nth (g + 2) xs 0)) eqn:E5.
    { apply Qlt_bool_iff in E5. cbn.
      repeat split; [lia | exact E1 | |].
      - intros k Hk. apply (Hdown k (g + 1)%nat); [lia | exact E4].
      - intros _. replace (g + 1 + 1)%nat with (g + 2)%nat by lia. exact E5. }
    apply Qlt_bool_false in E5.
    match goal with
    | |- context [np.bisect _ _ _ _ ?i] => set (imax := i)
    end.
    assert (Hmax : (g + 2 <= imax <= length xs)%nat /\
                   ((imax < length xs)%nat -> key < nth imax xs 0)).
    { unfold imax, np.LIKELY_IN_CACHE_SIZE.
      destruct (Nat.ltb_spec g (length xs - 8 - 1)) as [H8 | H8]; cbn [andb];
        [| split; intros; lia].
      rewrite ?nth_map_Fin by lia. cbn [f_lt].
      destruct (Qlt_bool key (nth (g + 8) xs 0)) eqn:E6;
        [| split; intros; lia].
      apply Qlt_bool_iff in E6. split; [lia | intros _; exact E6]. }
    destruct Hmax as (Hmax & Hhi). clearbody imax.
    destruct (bisect_spec key xs (imax - (g + 2)) (g + 2) imax Hasc)
      as (Hr & Hle & Hgt); [lia | lia | | exact Hhi |].
    { intros k Hk. apply (Hdown k (g + 1)%nat); [lia | exact E4]. }
    apply located_position_of; auto. lia.
Qed.

(** The place of a key is unique. *)
Lemma located_unique (xs : list Q) (key : Q) (p p' : np.position) :
  ascending xs -> xs <> [] ->
  located xs key p -> located xs key p' -> p = p'.
Proof.
  intros Hasc Hne Hp Hp'.
  assert (H0 : forall j, (j < length xs)%nat ->
                         (forall k, (k <= j)%nat -> nth k xs 0 <= key) ->
                         hd 0 xs <= key).
  { intros j Hj Hle. specialize (Hle 0%nat). destruct xs; cbn in *;
      [congruence | apply Hle; lia]. }
  assert (Hends : hd 0 xs <= last xs 0).
  { rewrite hd_nth, last_nth. apply Hasc.
    destruct xs; [congruence | cbn; lia]. }
  destruct p as [| j |], p' as [| j' |]; cbn in Hp, Hp'; try reflexivity;
    try lra.
  - destruct Hp' as (Hj' & Hl' & Hle' & Hgt').
    pose proof (H0 _ Hj' Hle'). lra.
  - destruct Hp as (Hj & Hl & Hle & Hgt).
    pose proof (H0 _ Hj Hle). lra.
  - destruct Hp as (Hj & Hl & Hle & Hgt).
    destruct Hp' as (Hj' & Hl' & Hle' & Hgt').
    f_equal. destruct (Nat.lt_trichotomy j j') as [H | [H | H]];
      [| exact H |].
    + assert (key < nth (j + 1) xs 0) by (apply Hgt; lia).
      assert (nth (j + 1) xs 0 <= key) by (apply Hle'; lia). lra.
    + assert (key < nth (j' + 1) xs 0) by (apply Hgt'; lia).
      assert (nth (j' + 1) xs 0 <= key) by (apply Hle; lia). lra.
Qed.

Lemma search_guess (key : Q) (xs : list Q) (guess : nat) :
  ascending xs -> xs <> [] ->
  np.binary_search_with_guess key (map Fin xs) guess
  = np.binary_search_with_guess key (map Fin xs) 0.
Proof.
  intros Hasc Hne.
  apply (located_unique xs key); auto using search_located.
Qed.

(** Over finite coordinates in ascending order every entry of [np.interp]
    is the entry of the request of its abscissa alone. *)
Lemma interp_map (quantiles xs ys : list Q) :
  ascending xs -> xs <> [] ->
  np.interp quantiles (map Fin xs) ys
  = map (interp_one (map Fin xs) ys) quantiles.
Proof.
  intros Hasc Hne. unfold np.interp, interp_one.
  destruct (Nat.eqb (length (map Fin xs)) 1); [reflexivity |].
  generalize 0%nat at 1. induction quantiles as [| q quantiles IH]; intros g.
  - reflexivity.
  - cbn [np.interp_from map]. rewrite (search_guess q xs g Hasc Hne).
    f_equal. apply IH.
Qed.

Lemma interp_one_fin (xs ys : list Q) (x : Q) :
  ascending xs -> xs <> [] -> length xs = length ys ->
  exists r, interp_one (map Fin xs) ys x = Fin r /\ interp_rel xs ys x r.
Proof.
  intros Hasc Hne Hlen. unfold interp_one. rewrite length_map.
  destruct (Nat.eqb_spec (length xs) 1) as [H1 | H1].
  - unfold np.interp_single.
    destruct xs as [| a [| ? ?]]; try discriminate.
    destruct ys as [| b [| ? ?]]; try discriminate.
    cbn [map hd f_lt last].
    destruct (Qlt_bool x a) eqn:E1.
    { apply Qlt_bool_iff in E1. eexists. split; [reflexivity |].
      now apply (interp_below [a] [b]). }
    apply Qlt_bool_false in E1.
    destruct (Qlt_bool a x) eqn:E2.
    { apply Qlt_bool_iff in E2. eexists. split; [reflexivity |].
      now apply (interp_above [a] [b]). }
    apply Qlt_bool_false in E2.
    eexists. split; [reflexivity |].
    apply (interp_last [a] [b]); simpl; [| exact E2].
    intros [| k] Hk; [exact E1 | lia].
  - pose proof (search_located x xs 0 Hasc Hne) as Hs.
    destruct (np.binary_search_with_guess x (map Fin xs) 0) as [| j |];
      cbn [located] in Hs; unfold np.interp_at; rewrite ?length_map.
    + eexists. split; [reflexivity |]. now apply interp_below.
    + destruct Hs as (Hj & Hlast & Hle & Hgt).
      destruct (Nat.eqb_spec j (length xs - 1)) as [Hjl | Hjl].
      * eexists. split; [reflexivity |].
        rewrite Hjl, Hlen, <- last_nth.
        apply interp_last; [| exact Hlast].
        intros k Hk. apply Hle. lia.
      * assert (Hj1 : (j + 1 < length xs)%nat) by lia.
        specialize (Hgt Hj1).
        pose proof (Hle j (Nat.le_refl j)) as Hjx.
        rewrite !nth_map_Fin by lia. cbn [f_eq f_sub f_div].
        destruct (Qeq_bool (nth j xs 0) x) eqn:E.
        { apply Qeq_bool_iff in E. eexists. split; [reflexivity |].
          apply (interp_inside xs ys x j); auto.
          rewrite <- E. field. lra. }
        assert (Hd : ~ nth (j + 1) xs 0 - nth j xs 0 == 0) by lra.
        rewrite (proj2 (Qeq_bool_false _ _) Hd).
        cbn [f_mul f_add isnan]. eexists. split; [reflexivity |].
        apply (interp_inside xs ys x j); auto. ring.
    + eexists. split; [reflexivity |]. now apply interp_above.
Qed.

(** Interpolated values lie between the values they are taken from. *)
Lemma segment_bounds (x0 x1 y0 y1 x r : Q) :
  x0 <= x -> x < x1 -> y0 <= y1 ->
  r == y0 + (y1 - y0) / (x1 - x0) * (x - x0) ->
  y0 <= r <= y1.
Proof.
  intros H0 H1 Hy Hr.
  assert (Hd : 0 < x1 - x0) by lra.
  set (t := (x - x0) / (x1 - x0)).
  assert (Ht0 : 0 <= t).
  { unfold t. apply Qle_shift_div_l; [exact Hd | lra]. }
  assert (Ht1 : t <= 1).
  { unfold t. apply Qle_shift_div_r; [exact Hd | lra]. }
  assert (Hr' : r == y0 + (y1 - y0) * t).
  { rewrite Hr. unfold t. field. lra. }
  assert (0 <= (y1 - y0) * t) by (apply Qmult_le_0_compat; lra).
  assert (0 <= (y1 - y0) * (1 - t)) by (apply Qmult_le_0_compat; lra).
  split; lra.
Qed.

(** On one segment the interpolated value grows with the abscissa. *)
Lemma segment_monotone (x0 x1 y0 y1 x x' r r' : Q) :
  x0 < x1 -> y0 <= y1 -> x <= x' ->
  r == y0 + (y1 - y0) / (x1 - x0) * (x - x0) ->
  r' == y0 + (y1 - y0) / (x1 - x0) * (x' - x0) ->
  r <= r'.
Proof.
  intros Hx Hy Hxx Hr Hr'.
  assert (Hs : 0 <= (y1 - y0) / (x1 - x0)).
  { apply Qle_shift_div_l; lra. }
  assert (0 <= (y1 - y0) / (x1 - x0) * (x' - x)).
  { apply Qmult_le_0_compat; lra. }
  rewrite Hr, Hr'. lra.
Qed.

Lemma pointwise_eq_refl (xs : list Q) : pointwise_eq xs xs.
Proof. split; [reflexivity | intros k; reflexivity]. Qed.

Lemma ascending_ends (l : list Q) :
  l <> [] -> ascending l -> hd 0 l <= last l 0.
Proof.
  intros Hne Hasc. rewrite hd_nth, last_nth. apply Hasc.
  destruct l; simpl; [congruence | lia].
Qed.

Section Interpolation.

Variables xs ys : list Q.
Hypothesis xs_nonempty : xs <> [].
Hypothesis same_length : length xs = length ys.
Hypothesis xs_ascending : ascending xs.
Hypothesis ys_ascending : ascending ys.

Lemma ys_nonempty : ys <> [].
Proof using xs_nonempty same_length xs_ascending ys_ascending.
  intros E. rewrite E in same_length. destruct xs; [congruence | discriminate].
Qed.

Lemma interp_rel_inside_bounds (x r : Q) (j : nat) :
  (j + 1 < length xs)%nat ->
  nth j xs 0 <= x -> x < nth (j + 1) xs 0 ->
  r == nth j ys 0
       + (nth (j + 1) ys 0 - nth j ys 0) / (nth (j + 1) xs 0 - nth j xs 0)
         * (x - nth j xs 0) ->
  nth j ys 0 <= r <= nth (j + 1) ys 0.
Proof using xs_nonempty same_length xs_ascending ys_ascending.
  intros Hj H0 H1 Hr.
  apply (segment_bounds (nth j xs 0) (nth (j + 1) xs 0) _ _ x); auto.
  apply ys_ascending. lia.
Qed.

Lemma interp_rel_bounds (x r : Q) :
  interp_rel xs ys x r -> hd 0 ys <= r <= last ys 0.
Proof using xs_nonempty same_length xs_ascending ys_ascending.
  pose proof (ascending_ends ys ys_nonempty ys_ascending) as Hends.
  intros [Hx | Hx | Hall Hx | j r' Hj Hle Hgt Hr]; try lra.
  destruct (interp_rel_inside_bounds x r' j Hj (Hle j (Nat.le_refl j)) Hgt Hr)
    as [Hlo Hhi].
  rewrite hd_nth, last_nth. split.
  - apply Qle_trans with (nth j ys 0); [apply ys_ascending; lia | exact Hlo].
  - apply Qle_trans with (nth (j + 1) ys 0);
      [exact Hhi | apply ys_ascending; lia].
Qed.

Variable xs' : list Q.
Hypothesis xs_xs' : pointwise_eq xs xs'.

Lemma xs'_ascending : ascending xs'.
Proof using xs_nonempty same_length xs_ascending ys_ascending xs_xs'.
  destruct xs_xs' as [Hlen Hpw]. intros i j Hij.
  rewrite <- !Hpw. apply xs_ascending. lia.
Qed.

Lemma interp_rel_transfer (x r : Q) :
  interp_rel xs' ys x r -> interp_rel xs ys x r.
Proof using xs_nonempty same_length xs_ascending ys_ascending xs_xs'.
  destruct xs_xs' as [Hlen Hpw].
  intros [Hx | Hx | Hall Hx | j r' Hj Hle Hgt Hr].
  - apply interp_below. rewrite hd_nth in *. now rewrite Hpw.
  - apply interp_above. rewrite last_nth in *. now rewrite Hpw, Hlen.
  - apply interp_last.
    + intros k Hk. rewrite Hpw. apply Hall. lia.
    + rewrite last_nth in *. now rewrite Hpw, Hlen.
  - apply (interp_inside xs ys x j).
    + lia.
    + intros k Hk. rewrite Hpw. now apply Hle.
    + now rewrite Hpw.
    + now rewrite !Hpw.
Qed.

(** Interpolation is monotone in the abscissa. *)
Lemma interp_rel_monotone (x x' r r' : Q) :
  x <= x' -> interp_rel xs ys x r -> interp_rel xs' ys x' r' -> r <= r'.
Proof using xs_nonempty same_length xs_ascending ys_ascending xs_xs'.
  intros Hxx H1 H2. apply interp_rel_transfer in H2.
  pose proof (interp_rel_bounds x r H1) as B1.
  pose proof (interp_rel_bounds x' r' H2) as B2.
  pose proof (ascending_ends xs xs_nonempty xs_ascending) as Hends.
  assert (Hn : (0 < length xs)%nat).
  { destruct xs; simpl; [congruence | lia]. }
  destruct H1 as [Hx | Hx | Hall Hx | j r1 Hj Hle Hgt Hr]; try lra;
    destruct H2 as [Hx' | Hx' | Hall' Hx' | j' r2 Hj' Hle' Hgt' Hr'];
    try lra.
  - (* above, inside *)
    assert (nth (j' + 1) xs 0 <= last xs 0).
    { rewrite last_nth. apply xs_ascending. lia. }
    lra.
  - (* last, below *)
    specialize (Hall 0%nat Hn). rewrite hd_nth in Hx'. lra.
  - (* last, inside *)
    specialize (Hall (j' + 1)%nat Hj'). lra.
  - (* inside, below *)
    specialize (Hle 0%nat (Nat.le_0_l j)). rewrite hd_nth in Hx'. lra.
  - (* inside, inside *)
    pose proof (Hle j (Nat.le_refl j)) as Hjx.
    pose proof (Hle' j' (Nat.le_refl j')) as Hjx'.
    destruct (lt_eq_lt_dec j j') as [[Hlt | Heq] | Hlt].
    + destruct (interp_rel_inside_bounds x r1 j Hj Hjx Hgt Hr) as [_ Hhi].
      destruct (interp_rel_inside_bounds x' r2 j' Hj' Hjx' Hgt' Hr')
        as [Hlo _].
      assert (nth (j + 1) ys 0 <= nth j' ys 0) by (apply ys_ascending; lia).
      lra.
    + subst j'.
      apply (segment_monotone (nth j xs 0) (nth (j + 1) xs 0)
               (nth j ys 0) (nth (j + 1) ys 0) x x'); auto; try lra.
      apply ys_ascending. lia.
    + assert (nth (j' + 1) xs 0 <= nth j xs 0) by (apply xs_ascending; lia).
      lra.
Qed.

End Interpolation.

(** Interpolation does not depend on how the coordinates are written. *)
Lemma interp_rel_unique (xs xs' ys : list Q) (x r r' : Q) :
  xs <> [] -> length xs = length ys -> ascending xs -> ascending ys ->
  pointwise_eq xs xs' ->
  interp_rel xs ys x r -> interp_rel xs' ys x r' -> r == r'.
Proof.
  intros Hne Hlen Hxs Hys Hpw H1 H2.
  pose proof (interp_rel_transfer xs ys Hne Hlen Hxs Hys xs' Hpw x r' H2)
    as H2'.
  apply Qle_antisym.
  - apply (interp_rel_monotone xs ys Hne Hlen Hxs Hys xs' Hpw x x r r');
      [lra | exact H1 | exact H2].
  - apply (interp_rel_monotone xs ys Hne Hlen Hxs Hys xs
             (pointwise_eq_refl xs) x x r' r); [lra | exact H2' | exact H1].
Qed.

(** ** The estimator on well-formed input *)

Lemma gather_Forall (P : Q -> Prop) (a : list Q) (idx : list nat) :
  Forall P a -> Forall (fun i => (i < length a)%nat) idx ->
  Forall P (gather a idx).
Proof.
  intros Ha Hidx. unfold gather. rewrite Forall_map.
  eapply Forall_impl; [| exact Hidx]. simpl. intros i Hi.
  rewrite Forall_forall in Ha. apply Ha. unfold val. now apply nth_In.
Qed.

Lemma gather_Exists (P : Q -> Prop) (a : list Q) (idx : list nat) :
  Exists P a -> (forall i, (i < length a)%nat -> In i idx) ->
  Exists P (gather a idx).
Proof.
  intros Ha Hidx. apply Exists_exists in Ha. destruct Ha as (x & Hin & Hx).
  destruct (In_nth _ _ 0 Hin) as (k & Hk & <-).
  apply Exists_exists. exists (val a k). split; [| exact Hx].
  unfold gather. apply in_map, Hidx, Hk.
Qed.

Section ValidInput.

Variables (values : list Q) (weights : option (list Q)).
Hypothesis values_nonempty : values <> [].
Hypothesis weights_valid : valid_weights values weights.

Let ws := sorted_weights values weights.
Let vs := sorted_values values.

Lemma sorted_weights_length : length ws = length values.
Proof using values_nonempty weights_valid.
  unfold ws, sorted_weights. now rewrite gather_length, argsort_length.
Qed.

Lemma sorted_values_length : length vs = length values.
Proof using values_nonempty weights_valid.
  unfold vs, sorted_values. now rewrite gather_length, argsort_length.
Qed.

Lemma sorted_weights_nonneg : Forall (Qle 0) ws.
Proof using values_nonempty weights_valid.
  destruct weights_valid as (Hlen & Hnn & _).
  apply gather_Forall; [exact Hnn |].
  apply Forall_forall. intros i Hi. apply argsort_in in Hi. lia.
Qed.

Lemma sorted_weights_positive : Exists (Qlt 0) ws.
Proof using values_nonempty weights_valid.
  destruct weights_valid as (Hlen & _ & Hex).
  apply gather_Exists; [exact Hex |].
  intros i Hi. apply argsort_in. lia.
Qed.

Lemma sorted_coordinates_valid :
  sorted_coordinates values (default_weights values weights) =
  Return (vs, map Fin (normalized ws)).
Proof using values_nonempty weights_valid.
  destruct weights_valid as (Hlen & _ & _).
  apply sorted_coordinates_fin; [exact values_nonempty | lia |].
  pose proof (positions_max_pos ws sorted_weights_nonneg
                sorted_weights_positive) as H.
  fold (sorted_weights values weights). fold ws. lra.
Qed.

Lemma weighted_quantile_valid (quantiles : list Q) :
  np.all_in_unit quantiles = true ->
  weighted_quantile values quantiles weights =
  Return (np.interp quantiles (map Fin (normalized ws)) vs).
Proof using values_nonempty weights_valid.
  intros Hq. unfold weighted_quantile. rewrite Hq. cbn [negb].
  now rewrite sorted_coordinates_valid.
Qed.

Lemma normalized_nonempty : normalized ws <> [].
Proof using values_nonempty weights_valid.
  intros E. apply (f_equal (@length Q)) in E.
  rewrite normalized_length, sorted_weights_length in E.
  destruct values; [congruence | discriminate].
Qed.

Lemma coordinates_length : length (normalized ws) = length vs.
Proof using values_nonempty weights_valid.
  now rewrite normalized_length, sorted_weights_length,
    sorted_values_length.
Qed.

Lemma coordinates_ascending : ascending (normalized ws).
Proof using values_nonempty weights_valid.
  exact (normalized_ascending ws sorted_weights_nonneg
           sorted_weights_positive).
Qed.

(** The requested quantiles are interpolated one by one. *)
Lemma weighted_quantile_each (quantiles : list Q) :
  np.all_in_unit quantiles = true ->
  weighted_quantile values quantiles weights =
  Return (map (interp_one (map Fin (normalized ws)) vs) quantiles).
Proof using values_nonempty weights_valid.
  intros Hq. rewrite (weighted_quantile_valid quantiles Hq).
  now rewrite (interp_map quantiles (normalized ws) vs
                 coordinates_ascending normalized_nonempty).
Qed.

(** One requested quantile: the result is finite and is the
    interpolation over the coordinates and the sorted samples. *)
Lemma weighted_quantile_one (q : Q) :
  0 <= q <= 1 ->
  exists r, weighted_quantile values [q] weights = Return [Fin r] /\
            interp_rel (normalized ws) vs q r.
Proof using values_nonempty weights_valid.
  intros Hq.
  destruct (interp_one_fin (normalized ws) vs q coordinates_ascending
              normalized_nonempty coordinates_length) as (r & Hr & Hrel).
  exists r. split; [| exact Hrel].
  rewrite weighted_quantile_each.
  - cbn [map]. now rewrite Hr.
  - unfold np.all_in_unit. cbn [forallb].
    rewrite (proj2 (Qle_bool_iff 0 q)), (proj2 (Qle_bool_iff q 1)) by lra.
    reflexivity.
Qed.

Lemma sorted_values_ascending : ascending vs.
Proof using values_nonempty weights_valid. apply gather_argsort_ascending. Qed.

Lemma sorted_values_nonempty : vs <> [].
Proof using values_nonempty weights_valid.
  intros E. apply (f_equal (@length Q)) in E.
  rewrite sorted_values_length in E.
  destruct values; [congruence | discriminate].
Qed.

Lemma sorted_values_first : hd 0 vs == min_of values.
Proof using values_nonempty weights_valid.
  assert (Hperm : Permutation vs values) by apply gather_argsort_perm.
  destruct (min_of_spec values values_nonempty) as [Hin Hall].
  assert (Hn : (0 < length vs)%nat).
  { rewrite sorted_values_length.
    destruct values; simpl; [congruence | lia]. }
  apply Qle_antisym.
  - apply (Permutation_in _ (Permutation_sym Hperm)) in Hin.
    destruct (In_nth _ _ 0 Hin) as (k & Hk & <-).
    rewrite hd_nth. apply sorted_values_ascending. lia.
  - rewrite Forall_forall in Hall. apply Hall.
    apply (Permutation_in _ Hperm). rewrite hd_nth. now apply nth_In.
Qed.

Lemma sorted_values_last : last vs 0 == max_of values.
Proof using values_nonempty weights_valid.
  assert (Hperm : Permutation vs values) by apply gather_argsort_perm.
  destruct (max_of_spec values values_nonempty) as [Hin Hall].
  assert (Hn : (0 < length vs)%nat).
  { rewrite sorted_values_length.
    destruct values; simpl; [congruence | lia]. }
  apply Qle_antisym.
  - rewrite Forall_forall in Hall. apply Hall.
    apply (Permutation_in _ Hperm). rewrite last_nth. apply nth_In. lia.
  - apply (Permutation_in _ (Permutation_sym Hperm)) in Hin.
    destruct (In_nth _ _ 0 Hin) as (k & Hk & <-).
    rewrite last_nth. apply sorted_values_ascending. lia.
Qed.

End ValidInput.

(** ** Boundary quantiles *)

Lemma normalized_second (w : list Q) :
  Forall (Qle 0) w -> Exists (Qlt 0) w -> (2 <= length w)%nat ->
  0 < nth 0 w 0 + nth 1 w 0 -> 0 < nth 1 (normalized w) 0.
Proof.
  intros Hnn Hex Hlen Hsum.
  pose proof (positions_max_pos w Hnn Hex) as Hmax.
  rewrite normalized_nth by lia.
  rewrite (min_of_ascending _ (positions_nonempty w (w_nonempty w Hnn Hex))
             (positions_ascending w Hnn)).
  destruct w as [| a [| b w]]; simpl in Hlen; try lia.
  unfold positions at 1 2. rewrite !positions_from_cons.
  cbn [nth hd] in *.
  apply Qlt_shift_div_l; [exact Hmax | lra].
Qed.

(** The coordinates start at 0 and end at [1 - min_val / max_val]. *)
Lemma normalized_span (w : list Q) :
  Forall (Qle 0) w -> Exists (Qlt 0) w ->
  hd 0 (normalized w) == 0 /\
  last (normalized w) 0
  == 1 - min_of (positions w) / max_of (positions w).
Proof.
  intros Hnn Hex. split; [now apply normalized_first |].
  pose proof (w_nonempty w Hnn Hex) as Hne.
  assert (0 < length w)%nat by (destruct w; simpl; [congruence | lia]).
  pose proof (positions_max_pos w Hnn Hex) as Hmax.
  rewrite last_nth, normalized_length, normalized_nth by lia.
  pose proof (max_of_ascending _ (positions_nonempty w Hne)
                (positions_ascending w Hnn)) as Hlast.
  rewrite last_nth in Hlast. unfold positions in Hlast at 2.
  rewrite positions_from_length in Hlast. rewrite <- Hlast.
  field. lra.
Qed.

(** ** A single sample *)

(** [C10]: one sample with a positive weight.  The only x-coordinate is 0,
    no division by zero happens, and every requested quantile is the
    sample. *)
Theorem single_sample (v w : Q) (quantiles : list Q) :
  0 < w -> np.all_in_unit quantiles = true ->
  (exists x, sorted_coordinates [v] [w] = Return ([v], [Fin x]) /\ x == 0) /\
  weighted_quantile [v] quantiles (Some [w])
  = Return (map (fun _ => Fin v) quantiles).
Proof.
  intros Hw Hq.
  assert (Hp : ~ 0 + w - (1 # 2) * w == 0) by lra.
  assert (Hc : sorted_coordinates [v] [w] =
               Return ([v], [Fin ((0 + w - (1 # 2) * w - (0 + w - (1 # 2) * w))
                                  / (0 + w - (1 # 2) * w))])).
  { unfold sorted_coordinates. cbn. unfold val. cbn.
    now rewrite (proj2 (Qeq_bool_false _ _) Hp). }
  split.
  - eexists. split; [exact Hc |]. field. lra.
  - unfold weighted_quantile. rewrite Hq. cbn [negb default_weights].
    rewrite Hc. cbn [and_then]. unfold np.interp.
    cbn [length Nat.eqb]. f_equal.
    apply map_ext. intros q. unfold np.interp_single.
    cbn [hd last f_lt].
    repeat match goal with
           | |- context [if ?b then _ else _] => destruct b
           end; reflexivity.
Qed.

Lemma single_sample_witness :
  (0 < 3 /\ np.all_in_unit [0; 1 # 2; 1] = true) /\
  (exists x, sorted_coordinates [5] [3] = Return ([5], [Fin x]) /\ x == 0) /\
  weighted_quantile [5] [0; 1 # 2; 1] (Some [3])
  = Return [Fin 5; Fin 5; Fin 5].
Proof.
  assert (Hw : 0 < 3) by reflexivity.
  assert (Hq : np.all_in_unit [0; 1 # 2; 1] = true) by reflexivity.
  split; [exact (conj Hw Hq) |].
  exact (single_sample 5 3 [0; 1 # 2; 1] Hw Hq).
Defined.

(** ** Errors *)

Lemma all_in_unit_false (quantiles : list Q) :
  np.all_in_unit quantiles = false <->
  Exists (fun q => ~ (0 <= q <= 1)) quantiles.
Proof.
  unfold np.all_in_unit. induction quantiles as [| q l IH]; cbn [forallb].
  - split; [discriminate | intros H; inversion H].
  - rewrite andb_false_iff, IH, Exists_cons, andb_false_iff.
    rewrite !Qle_bool_false. split.
    + intros [[H | H] | H]; [left; lra | left; lra | now right].
    + intros [H | H]; [left | now right].
      destruct (Qlt_le_dec q 0) as [H0 | H0]; [now left | right].
      destruct (Qlt_le_dec 1 q) as [H1 | H1]; [exact H1 | lra].
Qed.

Lemma take_cases (a : list Q) (idx : list nat) :
  (exists r, np.take a idx = Return r) \/
  (exists i, np.take a idx = Raise (IndexError i (length a))).
Proof.
  induction idx as [| i rest IH]; simpl.
  - left. now eexists.
  - destruct (nth_error a i).
    + destruct IH as [(r & ->) | (k & ->)]; simpl.
      * left. now eexists.
      * right. now eexists.
    + right. now eexists.
Qed.

(** The errors of lines 60 to 69 are not the quantile error. *)
Lemma sorted_coordinates_error (values weights : list Q) (e : exn) :
  sorted_coordinates values weights = Raise e -> e <> quantile_error.
Proof.
  unfold sorted_coordinates.
  destruct (take_cases values (np.argsort values)) as [(vs & ->) | (i & ->)];
    cbn [and_then]; [| intros [= <-]; discriminate].
  destruct (take_cases weights (np.argsort values)) as [(ws & ->) | (i & ->)];
    cbn [and_then]; [| intros [= <-]; discriminate].
  destruct (np.sub (np.cumsum ws) (np.scale (1 # 2) ws)) as [| p l];
    cbn; [intros [= <-]; discriminate | discriminate].
Qed.

(** [C4]: the quantile error is raised exactly when a requested quantile is
    outside [0, 1]; nothing is returned then. *)
Theorem invalid_quantile_iff
  (values quantiles : list Q) (weights : option (list Q)) :
  weighted_quantile values quantiles weights = Raise quantile_error <->
  Exists (fun q => ~ (0 <= q <= 1)) quantiles.
Proof.
  rewrite <- all_in_unit_false. unfold weighted_quantile.
  destruct (np.all_in_unit quantiles); cbn [negb].
  - split; [| discriminate]. intros H. exfalso.
    destruct (sorted_coordinates values (default_weights values weights))
      as [[vs xs] | e] eqn:E; cbn in H; [discriminate |].
    injection H as ->. now apply sorted_coordinates_error in E.
  - split; reflexivity.
Qed.

(** ** Weights that are all zero *)

Lemma positions_from_zero (acc : Q) (w : list Q) :
  acc == 0 -> Forall (fun x => x == 0) w ->
  Forall (fun x => x == 0) (positions_from acc w).
Proof.
  intros Hacc H. revert acc Hacc.
  induction H as [| x w Hx _ IH]; intros acc Hacc.
  - constructor.
  - rewrite positions_from_cons. constructor; [lra | apply IH; lra].
Qed.

Lemma gather_all (P : Q -> Prop) (a : list Q) (idx : list nat) :
  P 0 -> Forall P a -> Forall P (gather a idx).
Proof.
  intros H0 Ha. unfold gather. rewrite Forall_map. apply Forall_forall.
  intros i _. unfold val. destruct (nth_in_or_default i a 0) as [H | ->].
  - rewrite Forall_forall in Ha. now apply Ha.
  - exact H0.
Qed.

Lemma interp_from_length (g : nat) (x : list Q) (dx : list float64)
  (dy : list Q) :
  length (np.interp_from g x dx dy) = length x.
Proof.
  revert g. induction x as [| q x IH]; intros g; cbn; [| rewrite IH];
    reflexivity.
Qed.

Lemma interp_length (x : list Q) (xp : list float64) (fp : list Q) :
  length (np.interp x xp fp) = length x.
Proof.
  unfold np.interp. destruct (Nat.eqb (length xp) 1).
  - apply length_map.
  - apply interp_from_length.
Qed.

(** Among NaN the bisection never moves its lower end. *)
Lemma bisect_nan (key : Q) (n fuel imin imax : nat) :
  np.bisect fuel key (repeat NaN n) imin imax = imin.
Proof.
  revert imax. induction fuel as [| fuel IH]; intros imax; cbn [np.bisect].
  - reflexivity.
  - destruct (Nat.ltb imin imax); [| reflexivity].
    rewrite nth_repeat. cbn [f_le]. apply IH.
Qed.

(** Among NaN every comparison fails: the scan of a short array stops at
    once and gives the index 0, the search of a longer one ends one past
    the guess it started from. *)
Lemma search_nan (key : Q) (n guess : nat) :
  (2 <= n)%nat ->
  exists j, np.binary_search_with_guess key (repeat NaN n) guess
            = np.Inside j /\ (j + 1 < n)%nat.
Proof.
  intros Hn. unfold np.binary_search_with_guess.
  rewrite repeat_length, !nth_repeat. cbn [f_lt f_le].
  rewrite !andb_false_r.
  destruct (Nat.leb_spec n 4) as [H4 | H4].
  - exists 0%nat. split; [| lia].
    destruct n as [| [| n]]; [lia | lia | reflexivity].
  - rewrite bisect_nan.
    set (g1 := if Nat.ltb (n - 3) guess then (n - 3)%nat else guess).
    set (g := if Nat.ltb g1 1 then 1%nat else g1).
    assert (Hg : (1 <= g <= n - 3)%nat).
    { unfold g, g1.
      destruct (Nat.ltb_spec (n - 3) guess);
        repeat match goal with
               | |- context [Nat.ltb ?a ?b] => destruct (Nat.ltb_spec a b)
               end; lia. }
    exists (g + 1)%nat. split; [| lia].
    now replace (g + 2)%nat with (S (g + 1)) by lia.
Qed.

Lemma interp_at_nan (j n : nat) (dy : list Q) (x : Q) :
  (j + 1 < n)%nat ->
  np.interp_at (np.Inside j) (repeat NaN n) dy x
  = if Qeq_bool (nth j dy 0) (nth (j + 1) dy 0) then Fin (nth j dy 0)
    else NaN.
Proof.
  intros Hj. unfold np.interp_at. rewrite repeat_length, !nth_repeat.
  destruct (Nat.eqb_spec j (n - 1)); [lia |]. reflexivity.
Qed.

Lemma interp_from_nan (g : nat) (x dy : list Q) (n : nat) :
  (2 <= n)%nat -> length dy = n ->
  Forall (nan_or_tied dy) (np.interp_from g x (repeat NaN n) dy).
Proof.
  intros Hn Hlen. revert g.
  induction x as [| q x IH]; intros g; cbn [np.interp_from].
  - constructor.
  - constructor; [| apply IH].
    destruct (search_nan q n g Hn) as (j & -> & Hj).
    rewrite (interp_at_nan j n dy q Hj).
    destruct (Qeq_bool (nth j dy 0) (nth (j + 1) dy 0)) eqn:E.
    + right. exists j. apply Qeq_bool_iff in E. repeat split; [lia | exact E].
    + now left.
Qed.

Lemma gather_nth (a : list Q) (idx : list nat) (k : nat) :
  (k < length idx)%nat -> nth k (gather a idx) 0 = val a (nth k idx 0%nat).
Proof.
  intros Hk. unfold gather.
  rewrite (nth_indep _ 0 (val a 0%nat)) by now rewrite length_map.
  apply (map_nth (val a)).
Qed.

(** Samples that are pairwise different have no two equal neighbours after
    the sort. *)
Lemma sorted_values_distinct (values : list Q) (j : nat) :
  distinct values -> (j + 1 < length values)%nat ->
  ~ nth j (sorted_values values) 0 == nth (j + 1) (sorted_values values) 0.
Proof.
  intros Hd Hj. unfold sorted_values.
  assert (Hl := argsort_length values).
  rewrite !gather_nth by lia. unfold val.
  apply Hd.
  - apply argsort_in, nth_In. lia.
  - apply argsort_in, nth_In. lia.
  - assert (Hnd : NoDup (np.argsort values)).
    { apply (Permutation_NoDup (Permutation_sym (argsort_perm values))).
      apply seq_NoDup. }
    intros E. apply (proj1 (NoDup_nth _ 0%nat) Hnd) in E; lia.
Qed.

(** [C5], what the code does: weights that are all zero raise no error.
    Every x-coordinate is the NaN of 0/0 and an array is returned, one
    entry for each requested quantile.  A single sample is returned for
    every quantile; with more samples an entry is NaN, unless the search
    among the NaN stops between two equal samples, whose value the entry
    then is; samples that are pairwise different give NaN only. *)
Theorem zero_weights_no_error (values quantiles weights : list Q) :
  values <> [] -> length weights = length values ->
  Forall (fun w => w == 0) weights ->
  np.all_in_unit quantiles = true ->
  sorted_coordinates values weights
  = Return (sorted_values values, repeat NaN (length values)) /\
  exists r, weighted_quantile values quantiles (Some weights) = Return r /\
            length r = length quantiles /\
            (length values = 1%nat ->
             r = map (fun _ => Fin (hd 0 values)) quantiles) /\
            ((1 < length values)%nat ->
             Forall (nan_or_tied (sorted_values values)) r) /\
            ((1 < length values)%nat -> distinct values ->
             r = repeat NaN (length quantiles)).
Proof.
  intros Hne Hlen Hz Hq.
  set (ws := gather weights (np.argsort values)).
  assert (Hws : Forall (fun x => x == 0) (positions ws)).
  { apply positions_from_zero; [reflexivity |].
    apply gather_all; [reflexivity | exact Hz]. }
  assert (Hwne : positions ws <> []).
  { apply positions_nonempty. intros E. apply (f_equal (@length Q)) in E.
    unfold ws in E. rewrite gather_length, argsort_length in E.
    destruct values; [congruence | discriminate]. }
  assert (Hc : sorted_coordinates values weights
               = Return (sorted_values values, repeat NaN (length values))).
  { rewrite sorted_coordinates_eq by (auto; lia). fold ws.
    rewrite div_scalar_zero.
    - unfold np.sub_scalar. rewrite map_map, map_const.
      unfold positions. rewrite positions_from_length.
      unfold ws. now rewrite gather_length, argsort_length.
    - destruct (max_of_spec _ Hwne) as [Hin _].
      rewrite Forall_forall in Hws. now apply Hws.
    - unfold np.sub_scalar. rewrite Forall_map.
      destruct (min_of_spec _ Hwne) as [Hin _].
      pose proof Hws as Hws'. rewrite Forall_forall in Hws'.
      specialize (Hws' _ Hin).
      eapply Forall_impl; [| exact Hws]. simpl. intros x Hx. lra. }
  split; [exact Hc |].
  unfold weighted_quantile. rewrite Hq. cbn [negb default_weights].
  rewrite Hc. cbn [and_then]. eexists. split; [reflexivity |].
  assert (Hsl : length (sorted_values values) = length values).
  { unfold sorted_values. now rewrite gather_length, argsort_length. }
  assert (Hmany : (1 < length values)%nat ->
                  Forall (nan_or_tied (sorted_values values))
                    (np.interp quantiles (repeat NaN (length values))
                       (sorted_values values))).
  { intros H1. unfold np.interp. rewrite repeat_length.
    destruct (Nat.eqb_spec (length values) 1) as [E | _]; [lia |].
    apply interp_from_nan; [lia | exact Hsl]. }
  split; [apply interp_length |]. split; [| split].
  - intros H1. destruct values as [| v [| ? ?]]; try discriminate.
    reflexivity.
  - exact Hmany.
  - intros H1 Hd. rewrite <- (interp_length quantiles
      (repeat NaN (length values)) (sorted_values values)).
    apply Forall_eq_repeat.
    eapply Forall_impl; [| exact (Hmany H1)].
    intros e [-> | (j & Hj & Heq & _)]; [reflexivity |].
    exfalso. rewrite Hsl in Hj.
    exact (sorted_values_distinct values j Hd Hj Heq).
Qed.

Lemma zero_weights_no_error_witness :
  (([7] <> [] /\ length [0] = length [7] /\
    Forall (fun w => w == 0) [0] /\
    np.all_in_unit [1 # 4; 3 # 4] = true /\ length [7] = 1%nat) /\
   sorted_coordinates [7] [0] = Return ([7], [NaN]) /\
   weighted_quantile [7] [1 # 4; 3 # 4] (Some [0])
   = Return [Fin 7; Fin 7]) /\
  (([2; 1] <> [] /\ length [0; 0] = length [2; 1] /\
    Forall (fun w => w == 0) [0; 0] /\
    np.all_in_unit [1 # 4; 3 # 4] = true /\
    (1 < length [2; 1]%Q)%nat /\ distinct [2; 1]) /\
   sorted_coordinates [2; 1] [0; 0] = Return ([1; 2], [NaN; NaN]) /\
   weighted_quantile [2; 1] [1 # 4; 3 # 4] (Some [0; 0])
   = Return [NaN; NaN]) /\
  (([0; 1; 2; 3; 3] <> [] /\
    length [0; 0; 0; 0; 0] = length [0; 1; 2; 3; 3] /\
    Forall (fun w => w == 0) [0; 0; 0; 0; 0] /\
    np.all_in_unit [1 # 4; 3 # 4] = true /\
    (1 < length [0; 1; 2; 3; 3]%Q)%nat) /\
   exists r, weighted_quantile [0; 1; 2; 3; 3] [1 # 4; 3 # 4]
               (Some [0; 0; 0; 0; 0]) = Return r /\
             length r = 2%nat /\
             Forall (nan_or_tied (sorted_values [0; 1; 2; 3; 3])) r).
Proof.
  assert (Hq : np.all_in_unit [1 # 4; 3 # 4] = true) by reflexivity.
  split; [| split].
  - assert (Hne : [7] <> []) by discriminate.
    assert (Hlen : length [0] = length [7]) by reflexivity.
    assert (Hz : Forall (fun w => w == 0) [0]) by (repeat constructor).
    assert (H1 : length [7] = 1%nat) by reflexivity.
    split; [exact (conj Hne (conj Hlen (conj Hz (conj Hq H1)))) |].
    destruct (zero_weights_no_error [7] [1 # 4; 3 # 4] [0] Hne Hlen Hz Hq)
      as (Hc & r & Hr & _ & Hone & _).
    split; [exact Hc |]. rewrite Hr. f_equal. exact (Hone H1).
  - assert (Hne : [2; 1] <> []) by discriminate.
    assert (Hlen : length [0; 0] = length [2; 1]) by reflexivity.
    assert (Hz : Forall (fun w => w == 0) [0; 0]) by (repeat constructor).
    assert (H1 : (1 < length [2; 1]%Q)%nat) by (simpl; lia).
    assert (Hd : distinct [2; 1]).
    { intros i j Hi Hj Hij. simpl in Hi, Hj.
      destruct i as [| [| i]], j as [| [| j]]; try lia; simpl; discriminate. }
    split; [exact (conj Hne (conj Hlen (conj Hz (conj Hq (conj H1 Hd))))) |].
    destruct (zero_weights_no_error [2; 1] [1 # 4; 3 # 4] [0; 0]
                Hne Hlen Hz Hq) as (Hc & r & Hr & _ & _ & _ & Hnan).
    split; [exact Hc |]. rewrite Hr. f_equal. exact (Hnan H1 Hd).
  - assert (Hne : [0; 1; 2; 3; 3] <> []) by discriminate.
    assert (Hlen : length [0; 0; 0; 0; 0] = length [0; 1; 2; 3; 3])
      by reflexivity.
    assert (Hz : Forall (fun w => w == 0) [0; 0; 0; 0; 0])
      by (repeat constructor).
    assert (H1 : (1 < length [0; 1; 2; 3; 3]%Q)%nat) by (simpl; lia).
    split; [exact (conj Hne (conj Hlen (conj Hz (conj Hq H1)))) |].
    destruct (zero_weights_no_error [0; 1; 2; 3; 3] [1 # 4; 3 # 4]
                [0; 0; 0; 0; 0] Hne Hlen Hz Hq)
      as (_ & r & Hr & Hl & _ & Htied & _).
    exists r. split; [exact Hr |]. split; [exact Hl |]. exact (Htied H1).
Defined.

(** [C5] as stated fails: no error is raised for weights [0; 0], the
    result is NaN. *)
Lemma all_zero_returns_nan :
  weighted_quantile [1; 2] [1 # 2] (Some [0; 0]) = Return [NaN] /\
  ~ (exists e, weighted_quantile [1; 2] [1 # 2] (Some [0; 0]) = Raise e).
Proof.
  split; [reflexivity |]. intros (e & H). discriminate H.
Qed.

(** ** Weights of another length *)

Lemma gather_firstn (a : list Q) (n : nat) (idx : list nat) :
  Forall (fun i => (i < n)%nat) idx ->
  gather (firstn n a) idx = gather a idx.
Proof.
  intros H. unfold gather. apply map_ext_in. intros i Hi.
  rewrite Forall_forall in H. specialize (H i Hi).
  unfold val. rewrite nth_firstn.
  now rewrite (proj2 (Nat.ltb_lt i n) H).
Qed.

Lemma argsort_bounded (a : list Q) :
  Forall (fun i => (i < length a)%nat) (np.argsort a).
Proof. apply Forall_forall. intros i. apply argsort_in. Qed.

(** [C6], what the code does: it never compares the two lengths.  A
    quantile out of range is reported first.  Otherwise too few weights
    make the reordering of the weights by the sort indices fail with the
    error of an index out of the bounds of the weights, and nothing is
    returned; weights in excess are ignored: the call is the call with the
    first weights, which for samples that are not empty returns an entry for
    each quantile and for no sample at all fails in the minimum of an empty
    array. *)
Theorem weights_length_mismatch (values quantiles weights : list Q) :
  length weights <> length values ->
  (np.all_in_unit quantiles = false ->
   weighted_quantile values quantiles (Some weights)
   = Raise quantile_error) /\
  (np.all_in_unit quantiles = true ->
   ((length weights < length values)%nat ->
    exists i, (length weights <= i < length values)%nat /\
              weighted_quantile values quantiles (Some weights)
              = Raise (IndexError i (length weights))) /\
   ((length values < length weights)%nat ->
    weighted_quantile values quantiles (Some weights)
    = weighted_quantile values quantiles
        (Some (firstn (length values) weights)) /\
    (values <> [] ->
     exists r, weighted_quantile values quantiles (Some weights) = Return r /\
               length r = length quantiles) /\
    (values = [] ->
     weighted_quantile values quantiles (Some weights)
     = Raise (empty_reduction_error "minimum")))).
Proof.
  intros _. split; intros Hq; unfold weighted_quantile; rewrite Hq;
    cbn [negb default_weights]; [reflexivity |].
  split; intros Hlen.
  - unfold sorted_coordinates. rewrite take_argsort. cbn [and_then].
    destruct (take_out_of_bounds weights (np.argsort values))
      as (i & Hin & Hi & ->).
    + apply Exists_exists. exists (length weights).
      split; [apply argsort_in; lia | lia].
    + exists i. apply argsort_in in Hin. split; [lia | reflexivity].
  - split; [| split].
    + unfold sorted_coordinates. rewrite take_argsort. cbn [and_then].
      rewrite !take_in_bounds.
      * now rewrite gather_firstn by apply argsort_bounded.
      * rewrite length_firstn, Nat.min_l by lia. apply argsort_bounded.
      * eapply Forall_impl; [| apply argsort_bounded]. simpl. lia.
    + intros Hne.
      rewrite (sorted_coordinates_eq values weights Hne) by lia.
      cbn [and_then]. eexists. split; [reflexivity |].
      apply interp_length.
    + intros ->. reflexivity.
Qed.

Lemma weights_length_mismatch_witness :
  (length [1] <> length [1; 2] /\ np.all_in_unit [3 # 2] = false /\
   weighted_quantile [1; 2] [3 # 2] (Some [1]) = Raise quantile_error) /\
  (length [1] <> length [1; 2] /\ np.all_in_unit [1 # 2] = true /\
   (length [1]%Q < length [1; 2]%Q)%nat /\
   exists i, (1 <= i < 2)%nat /\
             weighted_quantile [1; 2] [1 # 2] (Some [1])
             = Raise (IndexError i 1)) /\
  (length [1; 1; 5] <> length [1; 2] /\ np.all_in_unit [1 # 2] = true /\
   (length [1; 2]%Q < length [1; 1; 5]%Q)%nat /\ [1; 2] <> [] /\
   weighted_quantile [1; 2] [1 # 2] (Some [1; 1; 5])
   = weighted_quantile [1; 2] [1 # 2] (Some [1; 1]) /\
   exists r, weighted_quantile [1; 2] [1 # 2] (Some [1; 1; 5]) = Return r /\
             length r = 1%nat) /\
  (length [1] <> length (@nil Q) /\ np.all_in_unit [1 # 2] = true /\
   (length (@nil Q) < length [1]%Q)%nat /\
   weighted_quantile [] [1 # 2] (Some [1])
   = Raise (empty_reduction_error "minimum")).
Proof.
  assert (Hq : np.all_in_unit [1 # 2] = true) by reflexivity.
  assert (Hq' : np.all_in_unit [3 # 2] = false) by reflexivity.
  assert (H1 : length [1] <> length [1; 2]) by discriminate.
  assert (H2 : length [1; 1; 5] <> length [1; 2]) by discriminate.
  assert (H3 : length [1] <> length (@nil Q)) by discriminate.
  assert (L1 : (length [1]%Q < length [1; 2]%Q)%nat) by (simpl; lia).
  assert (L2 : (length [1; 2]%Q < length [1; 1; 5]%Q)%nat) by (simpl; lia).
  assert (L3 : (length (@nil Q) < length [1]%Q)%nat) by (simpl; lia).
  assert (Hne : [1; 2] <> []) by discriminate.
  split; [| split; [| split]].
  - split; [exact H1 |]. split; [exact Hq' |].
    exact (proj1 (weights_length_mismatch [1; 2] [3 # 2] [1] H1) Hq').
  - split; [exact H1 |]. split; [exact Hq |]. split; [exact L1 |].
    exact (proj1 (proj2 (weights_length_mismatch [1; 2] [1 # 2] [1] H1) Hq)
             L1).
  - split; [exact H2 |]. split; [exact Hq |]. split; [exact L2 |].
    split; [exact Hne |].
    pose proof (proj2 (proj2 (weights_length_mismatch [1; 2] [1 # 2]
                                [1; 1; 5] H2) Hq) L2) as (Ha & Hb & _).
    exact (conj Ha (Hb Hne)).
  - split; [exact H3 |]. split; [exact Hq |]. split; [exact L3 |].
    pose proof (proj2 (proj2 (weights_length_mismatch [] [1 # 2] [1] H3)
                         Hq) L3) as (_ & _ & Hc).
    exact (Hc eq_refl).
Defined.

(** [C6] as stated fails: a weight too many raises nothing. *)
Lemma surplus_weights_no_error :
  length [1; 1; 5] <> length [1; 2] /\
  (exists r, weighted_quantile [1; 2] [1 # 2] (Some [1; 1; 5])
             = Return [Fin r] /\ r == 7 # 4) /\
  ~ (exists e, weighted_quantile [1; 2] [1 # 2] (Some [1; 1; 5]) = Raise e).
Proof.
  split; [discriminate |]. split.
  - eexists. split; [vm_compute; reflexivity | reflexivity].
  - intros (e & H). discriminate H.
Qed.

(** ** Equal weights *)

Lemma nth_repeat_lt (c : Q) (n i : nat) :
  (i < n)%nat -> nth i (repeat c n) 0 = c.
Proof.
  revert i. induction n as [| n IH]; intros i Hi; [lia |].
  destruct i as [| i]; [reflexivity |]. simpl. apply IH. lia.
Qed.

Lemma gather_repeat (c : Q) (n : nat) (idx : list nat) :
  Forall (fun i => (i < n)%nat) idx ->
  gather (repeat c n) idx = repeat c (length idx).
Proof.
  intros H. rewrite <- map_const. unfold gather. apply map_ext_in.
  intros i Hi. rewrite Forall_forall in H. unfold val.
  apply nth_repeat_lt, H, Hi.
Qed.

Lemma sorted_weights_repeat (values : list Q) (c : Q) :
  sorted_weights values (Some (repeat c (length values)))
  = repeat c (length values).
Proof.
  unfold sorted_weights. cbn [default_weights].
  rewrite gather_repeat by apply argsort_bounded.
  now rewrite argsort_length.
Qed.

Lemma valid_weights_repeat (values : list Q) (c : Q) :
  values <> [] -> 0 < c ->
  valid_weights values (Some (repeat c (length values))).
Proof.
  intros Hne Hc. unfold valid_weights. cbn [default_weights].
  split; [apply repeat_length |]. split.
  - apply Forall_forall. intros x Hx. apply repeat_spec in Hx. subst. lra.
  - destruct values; [congruence |]. left. exact Hc.
Qed.

Lemma valid_weights_None (values : list Q) :
  values <> [] -> valid_weights values None.
Proof.
  intros Hne. apply (valid_weights_repeat values 1 Hne). reflexivity.
Qed.

(** Positions are proportional to a common factor of the weights. *)
Lemma positions_from_scale (c acc acc' : Q) (n k : nat) :
  acc' == c * acc ->
  nth k (positions_from acc' (repeat c n)) 0
  == c * nth k (positions_from acc (repeat 1 n)) 0.
Proof.
  revert acc acc' k. induction n as [| n IH]; intros acc acc' k H.
  - destruct k; simpl; ring.
  - cbn [repeat]. rewrite !positions_from_cons. destruct k as [| k].
    + cbn [nth]. rewrite H. ring.
    + cbn [nth]. apply IH. rewrite H. ring.
Qed.

Lemma normalized_repeat (c : Q) (n : nat) :
  (0 < n)%nat -> 0 < c ->
  pointwise_eq (normalized (repeat c n)) (normalized (repeat 1 n)).
Proof.
  intros Hn Hc. split.
  { now rewrite !normalized_length, !repeat_length. }
  intros k. destruct (le_lt_dec n k) as [Hk | Hk].
  { rewrite !nth_overflow; [reflexivity | |];
      rewrite normalized_length, repeat_length; exact Hk. }
  assert (Hpos : forall d, 0 < d ->
            Forall (Qle 0) (repeat d n) /\ Exists (Qlt 0) (repeat d n) /\
            repeat d n <> []).
  { intros d Hd. destruct n as [| m]; [lia |]. repeat split.
    - apply Forall_forall. intros x Hx. apply repeat_spec in Hx. subst. lra.
    - left. exact Hd.
    - discriminate. }
  destruct (Hpos c Hc) as (Hnn & Hex & Hne).
  destruct (Hpos 1 ltac:(reflexivity)) as (Hnn1 & Hex1 & Hne1).
  pose proof (positions_max_pos _ Hnn1 Hex1) as Hmax1.
  assert (Hmin : min_of (positions (repeat c n))
                 == c * min_of (positions (repeat 1 n))).
  { rewrite !min_of_ascending
      by auto using positions_nonempty, positions_ascending.
    rewrite !hd_nth. apply positions_from_scale. ring. }
  assert (Hmax : max_of (positions (repeat c n))
                 == c * max_of (positions (repeat 1 n))).
  { rewrite !max_of_ascending
      by auto using positions_nonempty, positions_ascending.
    rewrite !last_nth. unfold positions.
    rewrite !positions_from_length, !repeat_length.
    apply positions_from_scale. ring. }
  rewrite !normalized_nth by now rewrite repeat_length.
  rewrite Hmin, Hmax.
  unfold positions at 1 3.
  rewrite (positions_from_scale c 0 0 n k) by ring.
  fold (positions (repeat 1 n)). field. split; lra.
Qed.

Lemma interp_pointwise (xs xs' ys quantiles : list Q) :
  xs <> [] -> length xs = length ys -> ascending xs -> ascending ys ->
  pointwise_eq xs xs' ->
  exists r r',
    np.interp quantiles (map Fin xs) ys = map Fin r /\
    np.interp quantiles (map Fin xs') ys = map Fin r' /\
    Forall2 Qeq r r'.
Proof.
  intros Hne Hlen Hxs Hys Hpw.
  assert (Hne' : xs' <> []).
  { destruct Hpw as [Hl _]. intros ->.
    destruct xs; [congruence | discriminate]. }
  assert (Hlen' : length xs' = length ys) by (destruct Hpw; lia).
  assert (Hxs' : ascending xs').
  { intros i j Hij. destruct Hpw as [Hl Hk].
    pose proof (Hk i). pose proof (Hk j).
    assert (nth i xs 0 <= nth j xs 0) by (apply Hxs; lia). lra. }
  rewrite (interp_map quantiles xs ys Hxs Hne).
  rewrite (interp_map quantiles xs' ys Hxs' Hne').
  induction quantiles as [| q l (r & r' & H1 & H2 & H12)].
  - exists [], []. repeat split. constructor.
  - destruct (interp_one_fin xs ys q Hxs Hne Hlen) as (a & Ha & Hra).
    destruct (interp_one_fin xs' ys q Hxs' Hne' Hlen') as (a' & Ha' & Hra').
    exists (a :: r), (a' :: r'). cbn [map].
    rewrite Ha, Ha', H1, H2. repeat split.
    constructor; [| exact H12].
    exact (interp_rel_unique xs xs' ys q a a' Hne Hlen Hxs Hys Hpw Hra Hra').
Qed.

(** ** Any sort *)

Lemma argsort_sorting : sorting np.argsort.
Proof.
  intros a. split; [apply argsort_perm | apply gather_argsort_ascending].
Qed.

(** With [np.argsort] for the sort these are the functions above. *)
Lemma any_sort_coordinates (values weights : list Q) :
  AnySort.sorted_coordinates np.argsort values weights
  = sorted_coordinates values weights.
Proof. reflexivity. Qed.

Lemma any_sort_estimator (values quantiles : list Q)
  (weights : option (list Q)) :
  AnySort.weighted_quantile np.argsort values quantiles weights
  = weighted_quantile values quantiles weights.
Proof. reflexivity. Qed.

Lemma sorts_length (a : list Q) (idx : list nat) :
  sorts a idx -> length idx = length a.
Proof.
  intros [Hperm _]. rewrite (Permutation_length Hperm). apply length_seq.
Qed.

Lemma sorts_in (a : list Q) (idx : list nat) (i : nat) :
  sorts a idx -> In i idx <-> (i < length a)%nat.
Proof.
  intros [Hperm _]. split; intro H.
  - apply (Permutation_in _ Hperm) in H. apply in_seq in H. lia.
  - apply (Permutation_in _ (Permutation_sym Hperm)). apply in_seq. lia.
Qed.

Lemma sorts_bounded (a : list Q) (idx : list nat) :
  sorts a idx -> Forall (fun i => (i < length a)%nat) idx.
Proof.
  intros H. apply Forall_forall. intros i. now apply sorts_in.
Qed.

Lemma sorts_NoDup (a : list Q) (idx : list nat) : sorts a idx -> NoDup idx.
Proof.
  intros [Hperm _].
  apply (Permutation_NoDup (Permutation_sym Hperm)), seq_NoDup.
Qed.

Lemma sorts_perm (a : list Q) (idx : list nat) :
  sorts a idx -> Permutation (gather a idx) a.
Proof.
  intros [Hperm _]. unfold gather at 1. rewrite (Permutation_map _ Hperm).
  fold (gather a (seq 0 (length a))). now rewrite gather_seq.
Qed.

(** The sorted samples begin with the smallest and end with the largest
    sample. *)
Lemma sorts_ends (a : list Q) (idx : list nat) :
  sorts a idx -> a <> [] ->
  hd 0 (gather a idx) == min_of a /\ last (gather a idx) 0 == max_of a.
Proof.
  intros Hs Hne. pose proof (sorts_perm a idx Hs) as Hp.
  pose proof (proj2 Hs) as Hasc.
  assert (Hn : (0 < length (gather a idx))%nat).
  { rewrite gather_length, (sorts_length a idx Hs).
    destruct a; simpl; [congruence | lia]. }
  split.
  - destruct (min_of_spec a Hne) as [Hin Hall]. apply Qle_antisym.
    + apply (Permutation_in _ (Permutation_sym Hp)) in Hin.
      destruct (In_nth _ _ 0 Hin) as (k & Hk & <-).
      rewrite hd_nth. apply Hasc. lia.
    + rewrite Forall_forall in Hall. apply Hall.
      apply (Permutation_in _ Hp). rewrite hd_nth. now apply nth_In.
  - destruct (max_of_spec a Hne) as [Hin Hall]. apply Qle_antisym.
    + rewrite Forall_forall in Hall. apply Hall.
      apply (Permutation_in _ Hp). rewrite last_nth. apply nth_In. lia.
    + apply (Permutation_in _ (Permutation_sym Hp)) in Hin.
      destruct (In_nth _ _ 0 Hin) as (k & Hk & <-).
      rewrite last_nth. apply Hasc. lia.
Qed.

Lemma take_length (a : list Q) (idx : list nat) (r : list Q) :
  np.take a idx = Return r -> length r = length idx.
Proof.
  revert r. induction idx as [| i idx IH]; intros r; cbn [np.take].
  - now intros [= <-].
  - destruct (nth_error a i); [| discriminate].
    destruct (np.take a idx) as [r' |]; cbn [and_then]; [| discriminate].
    intros [= <-]. cbn [length]. now rewrite (IH r' eq_refl).
Qed.

(** What a call of lines 60 to 69 that returns has computed: the samples
    in ascending order and one coordinate for each of them. *)
Lemma any_coordinates_inv (argsort : list Q -> list nat)
  (values weights vs : list Q) (xs : list float64) :
  sorting argsort ->
  AnySort.sorted_coordinates argsort values weights = Return (vs, xs) ->
  values <> [] /\ vs = gather values (argsort values) /\
  length xs = length values.
Proof.
  intros Hs. unfold AnySort.sorted_coordinates.
  rewrite (take_in_bounds values) by apply sorts_bounded, Hs.
  cbn [and_then].
  destruct (np.take weights (argsort values)) as [w |] eqn:Ew;
    cbn [and_then]; [| discriminate].
  apply take_length in Ew. rewrite (sorts_length _ _ (Hs values)) in Ew.
  rewrite positions_unfold.
  destruct (np.min (positions w)) as [lo |] eqn:Emin;
    cbn [and_then]; [| discriminate].
  destruct (np.max (positions w)) as [hi |]; cbn [and_then];
    [| discriminate].
  intros [= <- <-]. split; [| split].
  - intros ->. destruct w; [discriminate Emin | discriminate Ew].
  - reflexivity.
  - unfold np.div_scalar, np.sub_scalar. rewrite !length_map.
    unfold positions. now rewrite positions_from_length.
Qed.

(** With exact arithmetic valid weights give the coordinates [normalized]
    of the weights in the order of the sort. *)
Lemma any_coordinates_valid (argsort : list Q -> list nat)
  (values : list Q) (weights : option (list Q)) :
  sorting argsort -> values <> [] -> valid_weights values weights ->
  let ws := gather (default_weights values weights) (argsort values) in
  Forall (Qle 0) ws /\ Exists (Qlt 0) ws /\ length ws = length values /\
  AnySort.sorted_coordinates argsort values (default_weights values weights)
  = Return (gather values (argsort values), map Fin (normalized ws)).
Proof.
  intros Hs Hne (Hlen & Hnn & Hex) ws.
  pose proof (Hs values) as Hv.
  assert (Hwnn : Forall (Qle 0) ws).
  { apply gather_Forall; [exact Hnn |]. rewrite Hlen.
    now apply sorts_bounded. }
  assert (Hwex : Exists (Qlt 0) ws).
  { apply gather_Exists; [exact Hex |]. rewrite Hlen.
    intros i Hi. now apply (sorts_in values). }
  assert (Hwl : length ws = length values).
  { unfold ws. now rewrite gather_length, (sorts_length _ _ Hv). }
  split; [exact Hwnn |]. split; [exact Hwex |]. split; [exact Hwl |].
  unfold AnySort.sorted_coordinates.
  rewrite (take_in_bounds values) by now apply sorts_bounded.
  cbn [and_then].
  rewrite take_in_bounds by (rewrite Hlen; now apply sorts_bounded).
  cbn [and_then]. rewrite !positions_unfold. fold ws.
  pose proof (w_nonempty ws Hwnn Hwex) as Hwne.
  rewrite (np_min_nonempty _ (positions_nonempty ws Hwne)). cbn [and_then].
  rewrite (np_max_nonempty _ (positions_nonempty ws Hwne)). cbn [and_then].
  pose proof (positions_max_pos ws Hwnn Hwex) as Hmax.
  rewrite div_scalar_fin by lra.
  unfold normalized, np.sub_scalar. do 3 f_equal. apply map_map.
Qed.

(** ** Boundary quantiles *)

Lemma interp_singleton (x : Q) (dx : list float64) (dy : list Q) :
  np.interp [x] dx dy = [interp_one dx dy x].
Proof.
  unfold np.interp, interp_one.
  now destruct (Nat.eqb (length dx) 1).
Qed.

(** The scan passes every entry that is not greater than the key. *)
Lemma scan_all (key : Q) (xs : list Q) (i : nat) :
  Forall (fun x => x <= key) xs ->
  np.scan key (map Fin xs) i = (i + length xs)%nat.
Proof.
  intros H. revert i. induction H as [| x xs Hx _ IH]; intros i; cbn.
  - lia.
  - rewrite (proj2 (Qle_bool_iff x key) Hx), IH. lia.
Qed.

(** So does the bisection: it ends at its upper end. *)
Lemma bisect_all (key : Q) (xs : list Q) (fuel imin imax : nat) :
  Forall (fun x => x <= key) xs ->
  (imin <= imax <= length xs)%nat -> (imax - imin <= fuel)%nat ->
  np.bisect fuel key (map Fin xs) imin imax = imax.
Proof.
  intros H. rewrite Forall_forall in H. revert imin imax.
  induction fuel as [| fuel IH]; intros imin imax Hr Hf; cbn [np.bisect].
  - lia.
  - destruct (Nat.ltb_spec imin imax) as [Hlt | Hge]; [| lia].
    set (imid := (imin + (imax - imin) / 2)%nat).
    assert (Hmid : (imin <= imid < imax)%nat).
    { unfold imid. split; [lia |].
      assert ((imax - imin) / 2 < imax - imin)%nat
        by (apply Nat.div_lt; lia).
      lia. }
    rewrite nth_map_Fin by lia. cbn [f_le].
    rewrite (proj2 (Qle_bool_iff (nth imid xs 0) key))
      by (apply H, nth_In; lia).
    apply IH; lia.
Qed.

(** A key that no coordinate exceeds is found above the array or at its
    last index, in whatever order the coordinates are. *)
Lemma search_top (key : Q) (xs : list Q) (guess : nat) :
  xs <> [] -> Forall (fun x => x <= key) xs ->
  let p := np.binary_search_with_guess key (map Fin xs) guess in
  p = np.Above \/ p = np.Inside (length xs - 1).
Proof.
  intros Hne Hall. pose proof Hall as Hin. rewrite Forall_forall in Hin.
  assert (Hlen : (0 < length xs)%nat) by (destruct xs; [congruence | cbn; lia]).
  assert (Hitem : forall i, (i < length xs)%nat ->
                            f_lt (Fin key) (nth i (map Fin xs) NaN) = false).
  { intros i Hi. rewrite nth_map_Fin by lia. cbn [f_lt].
    apply Qlt_bool_false. apply Hin, nth_In. lia. }
  unfold np.binary_search_with_guess. rewrite length_map.
  destruct (f_lt (nth (length xs - 1) (map Fin xs) NaN) (Fin key));
    [now left | right].
  rewrite (Hitem 0%nat) by lia.
  destruct (Nat.leb_spec (length xs) 4) as [H4 | H4].
  - destruct xs as [| a xs]; [congruence |]. cbn [map tl].
    rewrite scan_all by now inversion Hall.
    cbn [length]. now replace (S (length xs) - 1)%nat with (length xs) by lia.
  - set (g1 := if Nat.ltb (length xs - 3) guess then (length xs - 3)%nat
               else guess).
    set (g := if Nat.ltb g1 1 then 1%nat else g1).
    assert (Hg : (1 <= g <= length xs - 3)%nat).
    { unfold g, g1.
      destruct (Nat.ltb_spec (length xs - 3) guess);
        repeat match goal with
               | |- context [Nat.ltb ?a ?b] => destruct (Nat.ltb_spec a b)
               end; lia. }
    clearbody g. clear g1.
    rewrite (Hitem g), (Hitem (g + 1)%nat), (Hitem (g + 2)%nat) by lia.
    match goal with
    | |- context [np.bisect _ _ _ _ ?i] => set (imax := i)
    end.
    assert (Hmax : imax = length xs).
    { unfold imax, np.LIKELY_IN_CACHE_SIZE.
      destruct (Nat.ltb_spec g (length xs - 8 - 1)); cbn [andb];
        [| reflexivity].
      now rewrite Hitem by lia. }
    rewrite Hmax, bisect_all by (auto; lia).
    destruct (length xs); [lia |]. cbn [np.position_of].
    f_equal. lia.
Qed.

(** The entry for such a key is the last sample. *)
Lemma interp_top (key : Q) (xs ys : list Q) :
  xs <> [] -> length xs = length ys -> Forall (fun x => x <= key) xs ->
  interp_one (map Fin xs) ys key = Fin (last ys 0).
Proof.
  intros Hne Hlen Hall. unfold interp_one. rewrite length_map.
  destruct (Nat.eqb_spec (length xs) 1) as [H1 | H1].
  - destruct xs as [| a [| ? ?]]; try discriminate.
    destruct ys as [| b [| ? ?]]; try discriminate.
    unfold np.interp_single. cbn [map hd last].
    now repeat match goal with
               | |- context [if ?b then _ else _] => destruct b
               end.
  - destruct (search_top key xs 0 Hne Hall) as [-> | ->];
      unfold np.interp_at; [reflexivity |].
    rewrite length_map, Nat.eqb_refl, Hlen. now rewrite <- last_nth.
Qed.

(** A requested quantile that no x-coordinate exceeds returns the largest
    sample, whatever the sort. *)
Lemma any_sort_top (argsort : list Q -> list nat)
  (values : list Q) (weights : option (list Q)) (vs xs : list Q) (q : Q) :
  sorting argsort ->
  AnySort.sorted_coordinates argsort values (default_weights values weights)
  = Return (vs, map Fin xs) ->
  0 <= q -> q <= 1 -> Forall (fun x => x <= q) xs ->
  exists r, AnySort.weighted_quantile argsort values [q] weights
            = Return [Fin r] /\
            r == max_of values.
Proof.
  intros Hs Hc Hq0 Hq1 Hall.
  destruct (any_coordinates_inv _ _ _ _ _ Hs Hc) as (Hne & -> & Hxl).
  rewrite length_map in Hxl.
  assert (Hxne : xs <> []).
  { intros ->. destruct values; [congruence | discriminate]. }
  pose proof (Hs values) as Hv.
  exists (last (gather values (argsort values)) 0).
  split; [| apply (sorts_ends values _ Hv Hne)].
  unfold AnySort.weighted_quantile. cbn [np.all_in_unit forallb].
  rewrite (proj2 (Qle_bool_iff 0 q) Hq0), (proj2 (Qle_bool_iff q 1) Hq1).
  cbn [andb negb]. rewrite Hc. cbn [and_then].
  rewrite interp_singleton. do 2 f_equal.
  apply interp_top; [exact Hxne | | exact Hall].
  now rewrite gather_length, (sorts_length _ _ Hv).
Qed.

(** [C3], what holds of the two boundary quantiles, whatever the order the
    sort gives to equal samples.  At the quantile 1 the estimator returns
    the largest sample whenever the x-coordinates of lines 64 to 69 are
    numbers of which none exceeds 1.  At the quantile 0 it returns the
    smallest sample whenever the x-coordinates are numbers in ascending
    order, the first is 0 and the second, if there is one, is positive. *)
Theorem boundary_values (argsort : list Q -> list nat)
  (values : list Q) (weights : option (list Q)) (vs xs : list Q) :
  sorting argsort ->
  AnySort.sorted_coordinates argsort values (default_weights values weights)
  = Return (vs, map Fin xs) ->
  (Forall (fun x => x <= 1) xs ->
   exists r, AnySort.weighted_quantile argsort values [1] weights
             = Return [Fin r] /\
             r == max_of values) /\
  (ascending xs -> hd 0 xs == 0 ->
   ((2 <= length xs)%nat -> 0 < nth 1 xs 0) ->
   exists r, AnySort.weighted_quantile argsort values [0] weights
             = Return [Fin r] /\
             r == min_of values).
Proof.
  intros Hs Hc. split.
  { intros Hall.
    apply (any_sort_top argsort values weights vs xs 1 Hs Hc); auto;
      discriminate. }
  destruct (any_coordinates_inv _ _ _ _ _ Hs Hc) as (Hne & -> & Hxl).
  rewrite length_map in Hxl.
  assert (Hxne : xs <> []).
  { intros ->. destruct values; [congruence | discriminate]. }
  pose proof (Hs values) as Hv.
  set (ys := gather values (argsort values)) in *.
  assert (Hvl : length ys = length values).
  { unfold ys. now rewrite gather_length, (sorts_length _ _ Hv). }
  destruct (sorts_ends values _ Hv Hne) as [Hfirst _]. fold ys in Hfirst.
  intros Hasc H0 H1.
  destruct (interp_one_fin xs ys 0 Hasc Hxne) as (r & Hr & Hrel); [lia |].
  exists r. split.
  { unfold AnySort.weighted_quantile. cbn [np.all_in_unit forallb].
    change (Qle_bool 0 0 && Qle_bool 0 1 && true) with true.
    cbn [negb]. rewrite Hc. cbn [and_then].
    now rewrite interp_singleton, Hr. }
  rewrite <- Hfirst.
  pose proof (ascending_ends xs Hxne Hasc) as Hends.
  destruct Hrel as [Hx | Hx | Hall Hx | j r' Hj Hle Hgt Hr']; try lra.
  - destruct (le_lt_dec 2 (length xs)) as [H2 | H2].
    + specialize (Hall 1%nat ltac:(lia)). specialize (H1 H2). lra.
    + rewrite hd_nth, last_nth.
      replace (length ys - 1)%nat with 0%nat by lia.
      reflexivity.
  - destruct j as [| j].
    + rewrite hd_nth in H0. rewrite Hr', hd_nth.
      setoid_replace (0 - nth 0 xs 0) with 0 by lra. ring.
    + specialize (Hle 1%nat ltac:(lia)).
      specialize (H1 ltac:(lia)). lra.
Qed.

Lemma boundary_values_witness :
  (sorting np.argsort /\
   AnySort.sorted_coordinates np.argsort [10; 20; 30]
     (default_weights [10; 20; 30] (Some [1; 1; 2]))
   = Return ([10; 20; 30], map Fin (normalized [1; 1; 2]))) /\
  (Forall (fun x => x <= 1) (normalized [1; 1; 2]) /\
   exists r, weighted_quantile [10; 20; 30] [1] (Some [1; 1; 2])
             = Return [Fin r] /\ r == max_of [10; 20; 30]) /\
  (ascending (normalized [1; 1; 2]) /\ hd 0 (normalized [1; 1; 2]) == 0 /\
   ((2 <= length (normalized [1; 1; 2]%Q))%nat ->
    0 < nth 1 (normalized [1; 1; 2]) 0) /\
   exists r, weighted_quantile [10; 20; 30] [0] (Some [1; 1; 2])
             = Return [Fin r] /\ r == min_of [10; 20; 30]).
Proof.
  assert (Hc : AnySort.sorted_coordinates np.argsort [10; 20; 30]
                 (default_weights [10; 20; 30] (Some [1; 1; 2]))
               = Return ([10; 20; 30], map Fin (normalized [1; 1; 2])))
    by reflexivity.
  assert (Hall : Forall (fun x => x <= 1) (normalized [1; 1; 2])).
  { vm_compute. repeat constructor; discriminate. }
  assert (Hnn : Forall (Qle 0) [1; 1; 2])
    by (repeat constructor; discriminate).
  assert (Hex : Exists (Qlt 0) [1; 1; 2]) by (left; reflexivity).
  assert (Hasc : ascending (normalized [1; 1; 2]))
    by exact (normalized_ascending [1; 1; 2] Hnn Hex).
  assert (H0 : hd 0 (normalized [1; 1; 2]) == 0) by reflexivity.
  assert (H1 : (2 <= length (normalized [1; 1; 2]%Q))%nat ->
               0 < nth 1 (normalized [1; 1; 2]) 0)
    by (intros _; reflexivity).
  pose proof (boundary_values np.argsort [10; 20; 30] (Some [1; 1; 2])
                [10; 20; 30] (normalized [1; 1; 2]) argsort_sorting Hc)
    as H.
  split; [exact (conj argsort_sorting Hc) |]. split.
  - exact (conj Hall (proj1 H Hall)).
  - exact (conj Hasc (conj H0 (conj H1 (proj2 H Hasc H0 H1)))).
Defined.

(** [C3] as stated fails: with weights [0; 0; 1] for the samples
    [1; 2; 3], the quantile 0 is the second sample, not the smallest. *)
Lemma zero_weight_pair_counterexample :
  valid_weights [1; 2; 3] (Some [0; 0; 1]) /\
  weighted_quantile [1; 2; 3] [0] (Some [0; 0; 1]) = Return [Fin 2] /\
  np.min [1; 2; 3] = Return 1 /\
  ~ (exists r, weighted_quantile [1; 2; 3] [0] (Some [0; 0; 1])
               = Return [Fin r] /\ r == min_of [1; 2; 3]).
Proof.
  split.
  { split; [reflexivity |]. split.
    - repeat constructor; discriminate.
    - right. right. left. reflexivity. }
  split; [reflexivity |]. split; [reflexivity |].
  intros (r & Hr & Hm). vm_compute in Hr. injection Hr as <-.
  vm_compute in Hm. discriminate.
Qed.

(** ** The estimator on well-formed input, for any sort *)

Lemma all_in_unit_one (q : Q) :
  0 <= q -> q <= 1 -> np.all_in_unit [q] = true.
Proof.
  intros H0 H1. unfold np.all_in_unit. cbn [forallb].
  now rewrite (proj2 (Qle_bool_iff 0 q) H0), (proj2 (Qle_bool_iff q 1) H1).
Qed.

Section AnySortValid.

Variable argsort : list Q -> list nat.
Hypothesis argsort_sorts : sorting argsort.

Variables (values : list Q) (weights : option (list Q)).
Hypothesis values_nonempty : values <> [].
Hypothesis weights_valid : valid_weights values weights.

Let ws := gather (default_weights values weights) (argsort values).
Let vs := gather values (argsort values).

Lemma any_sort_each (quantiles : list Q) :
  np.all_in_unit quantiles = true ->
  AnySort.weighted_quantile argsort values quantiles weights
  = Return (np.interp quantiles (map Fin (normalized ws)) vs).
Proof using argsort_sorts values_nonempty weights_valid.
  intros Hq.
  destruct (any_coordinates_valid argsort values weights argsort_sorts
              values_nonempty weights_valid) as (_ & _ & _ & Hc).
  unfold AnySort.weighted_quantile. rewrite Hq. cbn [negb].
  now rewrite Hc.
Qed.

Lemma any_sort_shape :
  normalized ws <> [] /\ length (normalized ws) = length vs /\
  ascending (normalized ws) /\ ascending vs /\ vs <> [].
Proof using argsort_sorts values_nonempty weights_valid.
  destruct (any_coordinates_valid argsort values weights argsort_sorts
              values_nonempty weights_valid) as (Hnn & Hex & Hwl & _).
  fold ws in Hnn, Hex, Hwl.
  pose proof (argsort_sorts values) as Hv.
  assert (Hvl : length vs = length values).
  { unfold vs. now rewrite gather_length, (sorts_length _ _ Hv). }
  assert (Hn : (0 < length values)%nat)
    by (destruct values; [congruence | cbn; lia]).
  repeat split.
  - intros E. apply (f_equal (@length Q)) in E.
    rewrite normalized_length, Hwl in E. cbn in E. lia.
  - now rewrite normalized_length, Hwl, Hvl.
  - exact (normalized_ascending ws Hnn Hex).
  - exact (proj2 Hv).
  - intros E. apply (f_equal (@length Q)) in E. rewrite Hvl in E.
    cbn in E. lia.
Qed.

(** One requested quantile: the result is finite and is the
    interpolation over the coordinates and the sorted samples. *)
Lemma any_sort_one (q : Q) :
  0 <= q -> q <= 1 ->
  exists r, AnySort.weighted_quantile argsort values [q] weights
            = Return [Fin r] /\
            interp_rel (normalized ws) vs q r.
Proof using argsort_sorts values_nonempty weights_valid.
  intros H0 H1. destruct any_sort_shape as (Hxne & Hlen & Hasc & _ & _).
  destruct (interp_one_fin (normalized ws) vs q Hasc Hxne Hlen)
    as (r & Hr & Hrel).
  exists r. split; [| exact Hrel].
  rewrite (any_sort_each [q] (all_in_unit_one q H0 H1)).
  now rewrite interp_singleton, Hr.
Qed.

End AnySortValid.

(** ** Monotonicity *)



(** ** Equal weights *)



(** ** The normalization and the standard percentile *)

(** [C1]: the function divides by the maximum taken before the minimum is
    subtracted.  For four samples without weights the coordinates end at
    6/7, where the normalization of the specification ends at 1. *)
Theorem coordinates_divided_by_unshifted_max :
  (exists x0 x1 x2 x3,
     sorted_coordinates [10; 20; 30; 40] (np.ones 4)
     = Return ([10; 20; 30; 40], [Fin x0; Fin x1; Fin x2; Fin x3]) /\
     x0 == 0 /\ x1 == 2 # 7 /\ x2 == 4 # 7 /\ x3 == 6 # 7) /\
  Forall2 Qeq (spec_normalized (positions (np.ones 4)))
              [0; 1 # 3; 2 # 3; 1].
Proof.
  split.
  - do 4 eexists. split; [vm_compute; reflexivity |].
    repeat split; reflexivity.
  - vm_compute. repeat constructor.
Qed.

(** [C2]: without weights the estimate at the first quartile of
    [10; 20; 30; 40] is 18.75; the standard percentile is 17.5. *)
Theorem unweighted_not_standard_percentile :
  (exists r, weighted_quantile [10; 20; 30; 40] [1 # 4] None
             = Return [Fin r] /\ r == 75 # 4) /\
  standard_percentile [10; 20; 30; 40] ((1 # 4) * 100) == 35 # 2.
Proof.
  split.
  - eexists. split; [vm_compute; reflexivity | reflexivity].
  - vm_compute. reflexivity.
Qed.

(** ** Effects on the store *)

Module StatefulFacts.
Import Stateful.

Lemma lookup_alloc (h : heap) (o : object) :
  nth_error (h ++ [o]) (length h) = Some o.
Proof. now rewrite nth_error_app2, Nat.sub_diag by lia. Qed.

Lemma lookup_ext (h : heap) (o o' : object) (l : loc) :
  nth_error h l = Some o -> nth_error (h ++ [o']) l = Some o.
Proof.
  intros H. rewrite nth_error_app1; [exact H |].
  apply nth_error_Some. congruence.
Qed.

Lemma bind_run {A B : Type} (m : M A) (k : A -> M B) (h h' : heap) (a : A) :
  m h = (Return a, h') -> bind m k h = k a h'.
Proof. intros H. unfold bind. now rewrite H. Qed.

Lemma bind_fail {A B : Type} (m : M A) (k : A -> M B) (h h' : heap)
  (e : exn) :
  m h = (Raise e, h') -> bind m k h = (Raise e, h').
Proof. intros H. unfold bind. now rewrite H. Qed.

Lemma floats_run (h : heap) (l : loc) (a : list Q) :
  nth_error h l = Some (FloatArray a) -> floats l h = (Return a, h).
Proof. intros H. unfold floats. now rewrite H. Qed.

Lemma indices_run (h : heap) (l : loc) (a : list nat) :
  nth_error h l = Some (IndexArray a) -> indices l h = (Return a, h).
Proof. intros H. unfold indices. now rewrite H. Qed.

Lemma float64s_run (h : heap) (l : loc) (a : list float64) :
  nth_error h l = Some (Float64Array a) -> float64s l h = (Return a, h).
Proof. intros H. unfold float64s. now rewrite H. Qed.

Lemma unary_run (f : list Q -> object) (h : heap) (l : loc) (a : list Q) :
  nth_error h l = Some (FloatArray a) ->
  (x <~ floats l ;; alloc (f x)) h = (Return (length h), h ++ [f a]).
Proof. intros H. now rewrite (bind_run _ _ _ _ _ (floats_run h l a H)). Qed.

Lemma sub_run (h : heap) (x y : loc) (a b : list Q) :
  nth_error h x = Some (FloatArray a) ->
  nth_error h y = Some (FloatArray b) ->
  sub x y h = (Return (length h), h ++ [FloatArray (np.sub a b)]).
Proof.
  intros Ha Hb. unfold sub.
  rewrite (bind_run _ _ _ _ _ (floats_run h x a Ha)).
  now rewrite (bind_run _ _ _ _ _ (floats_run h y b Hb)).
Qed.

Lemma take_run (h : heap) (x idx : loc) (a : list Q) (i : list nat) :
  nth_error h x = Some (FloatArray a) ->
  nth_error h idx = Some (IndexArray i) ->
  take x idx h =
  match np.take a i with
  | Return r => (Return (length h), h ++ [FloatArray r])
  | Raise e => (Raise e, h)
  end.
Proof.
  intros Ha Hi. unfold take.
  rewrite (bind_run _ _ _ _ _ (floats_run h x a Ha)).
  rewrite (bind_run _ _ _ _ _ (indices_run h idx i Hi)).
  unfold bind, lift. now destruct (np.take a i).
Qed.

Lemma reduce_run (f : list Q -> result Q) (h : heap) (l : loc)
  (a : list Q) :
  nth_error h l = Some (FloatArray a) ->
  (x <~ floats l ;; lift (f x)) h = (f a, h).
Proof.
  intros H. rewrite (bind_run _ _ _ _ _ (floats_run h l a H)). reflexivity.
Qed.

Lemma interp_run (h : heap) (x xp fp : loc) (a c : list Q)
  (b : list float64) :
  nth_error h x = Some (FloatArray a) ->
  nth_error h xp = Some (Float64Array b) ->
  nth_error h fp = Some (FloatArray c) ->
  interp x xp fp h
  = (Return (length h), h ++ [Float64Array (np.interp a b c)]).
Proof.
  intros Ha Hb Hc. unfold interp.
  rewrite (bind_run _ _ _ _ _ (floats_run h x a Ha)).
  rewrite (bind_run _ _ _ _ _ (float64s_run h xp b Hb)).
  now rewrite (bind_run _ _ _ _ _ (floats_run h fp c Hc)).
Qed.

Ltac lookup :=
  repeat first [apply lookup_alloc | apply lookup_ext]; eassumption.

End StatefulFacts.

Module StatefulRun.
Import Stateful StatefulFacts.

Ltac run lem := erewrite bind_run; [| solve [eapply lem; lookup]].
Ltac fail_with lem := erewrite bind_fail; [| solve [eapply lem; lookup]].

Lemma array_run (h : heap) (l : loc) (a : list Q) :
  nth_error h l = Some (FloatArray a) ->
  array l h = (Return (length h), h ++ [FloatArray a]).
Proof. apply (unary_run FloatArray). Qed.

Lemma argsort_run (h : heap) (l : loc) (a : list Q) :
  nth_error h l = Some (FloatArray a) ->
  argsort l h = (Return (length h), h ++ [IndexArray (np.argsort a)]).
Proof. apply (unary_run (fun x => IndexArray (np.argsort x))). Qed.

Lemma cumsum_run (h : heap) (l : loc) (a : list Q) :
  nth_error h l = Some (FloatArray a) ->
  cumsum l h = (Return (length h), h ++ [FloatArray (np.cumsum a)]).
Proof. apply (unary_run (fun x => FloatArray (np.cumsum x))). Qed.

Lemma scale_run (c : Q) (h : heap) (l : loc) (a : list Q) :
  nth_error h l = Some (FloatArray a) ->
  scale c l h = (Return (length h), h ++ [FloatArray (np.scale c a)]).
Proof. apply (unary_run (fun x => FloatArray (np.scale c x))). Qed.

Lemma sub_scalar_run (c : Q) (h : heap) (l : loc) (a : list Q) :
  nth_error h l = Some (FloatArray a) ->
  sub_scalar l c h
  = (Return (length h), h ++ [FloatArray (np.sub_scalar a c)]).
Proof. apply (unary_run (fun x => FloatArray (np.sub_scalar x c))). Qed.

Lemma div_scalar_run (c : Q) (h : heap) (l : loc) (a : list Q) :
  nth_error h l = Some (FloatArray a) ->
  div_scalar l c h
  = (Return (length h), h ++ [Float64Array (np.div_scalar a c)]).
Proof. apply (unary_run (fun x => Float64Array (np.div_scalar x c))). Qed.

Lemma all_in_unit_run (h : heap) (l : loc) (a : list Q) :
  nth_error h l = Some (FloatArray a) ->
  all_in_unit l h = (Return (np.all_in_unit a), h).
Proof.
  intros H. unfold all_in_unit.
  now rewrite (bind_run _ _ _ _ _ (floats_run h l a H)).
Qed.

Lemma len_run (h : heap) (l : loc) (a : list Q) :
  nth_error h l = Some (FloatArray a) ->
  len l h = (Return (length a), h).
Proof.
  intros H. unfold len.
  now rewrite (bind_run _ _ _ _ _ (floats_run h l a H)).
Qed.

Lemma min_run (h : heap) (l : loc) (a : list Q) :
  nth_error h l = Some (FloatArray a) -> min l h = (np.min a, h).
Proof. apply (reduce_run np.min). Qed.

Lemma max_run (h : heap) (l : loc) (a : list Q) :
  nth_error h l = Some (FloatArray a) -> max l h = (np.max a, h).
Proof. apply (reduce_run np.max). Qed.

(** The copies of the three arguments, lines 51 to 55. *)
Lemma copies_run (h : heap) (values quantiles : loc) (weights : option loc)
  (vs qs : list Q) (ws : option (list Q)) :
  nth_error h values = Some (FloatArray vs) ->
  nth_error h quantiles = Some (FloatArray qs) ->
  weights_at h weights ws ->
  exists ext v q w,
    nth_error (h ++ ext) v = Some (FloatArray vs) /\
    nth_error (h ++ ext) q = Some (FloatArray qs) /\
    nth_error (h ++ ext) w = Some (FloatArray (default_weights vs ws)) /\
    forall k : loc -> loc -> loc -> M loc,
      (values' <~ array values ;;
       quantiles' <~ array quantiles ;;
       weights' <~ match weights with
                   | None => n <~ len values' ;; ones n
                   | Some w => ret w
                   end ;;
       weights'' <~ array weights' ;;
       k values' quantiles' weights'') h
      = k v q w (h ++ ext).
Proof.
  intros Hv Hq Hw.
  destruct weights as [lw |], ws as [w |]; try contradiction;
    cbn [weights_at default_weights] in *.
  - exists [FloatArray vs; FloatArray qs; FloatArray w].
    change (h ++ [FloatArray vs; FloatArray qs; FloatArray w])
      with (h ++ [FloatArray vs] ++ [FloatArray qs] ++ [FloatArray w]).
    rewrite !app_assoc.
    eexists. eexists. eexists.
    split; [| split; [| split]]; cycle 3.
    + intros k. run array_run. run array_run.
      erewrite bind_run; [| reflexivity].
      run array_run. reflexivity.
    + lookup.
    + lookup.
    + lookup.
  - exists [FloatArray vs; FloatArray qs; FloatArray (np.ones (length vs));
            FloatArray (np.ones (length vs))].
    change (h ++ [FloatArray vs; FloatArray qs;
                  FloatArray (np.ones (length vs));
                  FloatArray (np.ones (length vs))])
      with (h ++ [FloatArray vs] ++ [FloatArray qs]
              ++ [FloatArray (np.ones (length vs))]
              ++ [FloatArray (np.ones (length vs))]).
    rewrite !app_assoc.
    eexists. eexists. eexists.
    split; [| split; [| split]]; cycle 3.
    + intros k. run array_run. run array_run.
      erewrite bind_run.
      2:{ erewrite bind_run; [| solve [eapply len_run; lookup]].
          reflexivity. }
      run array_run. reflexivity.
    + lookup.
    + lookup.
    + lookup.
Qed.

(** Lines 57 to 71 on the copies. *)
Lemma body_run (h : heap) (v q w : loc) (vs qs wts : list Q) :
  nth_error h v = Some (FloatArray vs) ->
  nth_error h q = Some (FloatArray qs) ->
  nth_error h w = Some (FloatArray wts) ->
  exists ext res,
    (ok <~ all_in_unit q ;;
     if negb ok then raise quantile_error
     else
       idx <~ argsort v ;;
       values <~ take v idx ;;
       weights <~ take w idx ;;
       c <~ cumsum weights ;;
       s <~ scale (1 # 2) weights ;;
       weighted_quantiles <~ sub c s ;;
       min_val <~ min weighted_quantiles ;;
       max_val <~ max weighted_quantiles ;;
       d <~ sub_scalar weighted_quantiles min_val ;;
       weighted_quantiles <~ div_scalar d max_val ;;
       interp q weighted_quantiles values) h
    = (res, h ++ ext) /\
    match res,
          (if negb (np.all_in_unit qs) then Raise quantile_error
           else
             '(values, weighted_quantiles) <- sorted_coordinates vs wts ;;
             Return (np.interp qs weighted_quantiles values))
    with
    | Return l, Return r => nth_error (h ++ ext) l = Some (Float64Array r)
    | Raise e, Raise e' => e = e'
    | _, _ => False
    end /\
    (forall l, res = Return l -> (length h <= l)%nat).
Proof.
  intros Hv Hq Hw. unfold sorted_coordinates. rewrite take_argsort.
  cbn [and_then].
  destruct (np.all_in_unit qs) eqn:Eq; cbn [negb].
  2:{ exists [], (Raise quantile_error). rewrite app_nil_r. split.
      - run all_in_unit_run. rewrite Eq. reflexivity.
      - split; [reflexivity | discriminate]. }
  destruct (np.take wts (np.argsort vs)) as [wsorted | e] eqn:Et;
    cbn [and_then].
  2:{ eexists. exists (Raise e).
      split; [| split; [reflexivity | discriminate]].
      run all_in_unit_run. rewrite Eq. cbn [negb].
      run argsort_run.
      erewrite bind_run.
      2:{ erewrite take_run by lookup. rewrite take_argsort. reflexivity. }
      erewrite bind_fail.
      2:{ erewrite take_run by lookup. rewrite Et. reflexivity. }
      rewrite <- !app_assoc. reflexivity. }
  destruct (np.min (np.sub (np.cumsum wsorted) (np.scale (1 # 2) wsorted)))
    as [min_val | e] eqn:Emin; cbn [and_then].
  2:{ eexists. exists (Raise e).
      split; [| split; [reflexivity | discriminate]].
      run all_in_unit_run. rewrite Eq. cbn [negb].
      run argsort_run.
      erewrite bind_run.
      2:{ erewrite take_run by lookup. rewrite take_argsort. reflexivity. }
      erewrite bind_run.
      2:{ erewrite take_run by lookup. rewrite Et. reflexivity. }
      run cumsum_run. run scale_run. run sub_run.
      erewrite bind_fail.
      2:{ erewrite min_run by lookup. rewrite Emin. reflexivity. }
      rewrite <- !app_assoc. reflexivity. }
  destruct (np.max (np.sub (np.cumsum wsorted) (np.scale (1 # 2) wsorted)))
    as [max_val | e] eqn:Emax; cbn [and_then].
  2:{ eexists. exists (Raise e).
      split; [| split; [reflexivity | discriminate]].
      run all_in_unit_run. rewrite Eq. cbn [negb].
      run argsort_run.
      erewrite bind_run.
      2:{ erewrite take_run by lookup. rewrite take_argsort. reflexivity. }
      erewrite bind_run.
      2:{ erewrite take_run by lookup. rewrite Et. reflexivity. }
      run cumsum_run. run scale_run. run sub_run.
      erewrite bind_run.
      2:{ erewrite min_run by lookup. rewrite Emin. reflexivity. }
      erewrite bind_fail.
      2:{ erewrite max_run by lookup. rewrite Emax. reflexivity. }
      rewrite <- !app_assoc. reflexivity. }
  eexists. eexists. split.
  - run all_in_unit_run. rewrite Eq. cbn [negb].
    run argsort_run.
    erewrite bind_run.
    2:{ erewrite take_run by lookup. rewrite take_argsort. reflexivity. }
    erewrite bind_run.
    2:{ erewrite take_run by lookup. rewrite Et. reflexivity. }
    run cumsum_run. run scale_run. run sub_run.
    erewrite bind_run.
    2:{ erewrite min_run by lookup. rewrite Emin. reflexivity. }
    erewrite bind_run.
    2:{ erewrite max_run by lookup. rewrite Emax. reflexivity. }
    run sub_scalar_run. run div_scalar_run.
    erewrite interp_run by lookup.
    rewrite <- !app_assoc. reflexivity.
  - split.
    + cbn beta iota. rewrite !app_assoc. lookup.
    + intros l [= <-]. rewrite !length_app. lia.
Qed.

End StatefulRun.

(** [C9]: a call leaves every array of its caller as it was, the three
    arguments among them: the store after the call is the store before it
    followed by new arrays.  What the call returns or raises is what the
    function gives for the contents of the arguments, whatever else the
    store holds. *)
Theorem inputs_unchanged
  (h : Stateful.heap) (values quantiles : Stateful.loc)
  (weights : option Stateful.loc) (vs qs : list Q) (ws : option (list Q)) :
  nth_error h values = Some (Stateful.FloatArray vs) ->
  nth_error h quantiles = Some (Stateful.FloatArray qs) ->
  Stateful.weights_at h weights ws ->
  exists ext res,
    Stateful.weighted_quantile values quantiles weights h = (res, h ++ ext) /\
    (forall l o, nth_error h l = Some o -> nth_error (h ++ ext) l = Some o) /\
    match res, weighted_quantile vs qs ws with
    | Return l, Return r =>
        nth_error (h ++ ext) l = Some (Stateful.Float64Array r)
    | Raise e, Raise e' => e = e'
    | _, _ => False
    end.
Proof.
  intros Hv Hq Hw.
  destruct (StatefulRun.copies_run h values quantiles weights vs qs ws
              Hv Hq Hw) as (ext0 & v & q & w & Hv' & Hq' & Hw' & Hk).
  destruct (StatefulRun.body_run (h ++ ext0) v q w vs qs
              (default_weights vs ws) Hv' Hq' Hw')
    as (ext & res & Hrun & Hres & _).
  exists (ext0 ++ ext), res. rewrite app_assoc. split; [| split].
  - unfold Stateful.weighted_quantile. rewrite Hk. exact Hrun.
  - intros l o Hl. rewrite <- app_assoc, nth_error_app1; [exact Hl |].
    apply nth_error_Some. congruence.
  - exact Hres.
Qed.

Lemma inputs_unchanged_witness :
  (nth_error example_store 0 = Some (Stateful.FloatArray [10; 20; 30]) /\
   nth_error example_store 1 = Some (Stateful.FloatArray [1 # 2]) /\
   Stateful.weights_at example_store (Some 2%nat) (Some [1; 1; 2])) /\
  exists ext res,
    Stateful.weighted_quantile 0%nat 1%nat (Some 2%nat) example_store
    = (res, example_store ++ ext) /\
    (forall l o, nth_error example_store l = Some o ->
                 nth_error (example_store ++ ext) l = Some o) /\
    match res, weighted_quantile [10; 20; 30] [1 # 2] (Some [1; 1; 2]) with
    | Return l, Return r =>
        nth_error (example_store ++ ext) l = Some (Stateful.Float64Array r)
    | Raise e, Raise e' => e = e'
    | _, _ => False
    end.
Proof.
  assert (Hv : nth_error example_store 0
               = Some (Stateful.FloatArray [10; 20; 30])) by reflexivity.
  assert (Hq : nth_error example_store 1
               = Some (Stateful.FloatArray [1 # 2])) by reflexivity.
  assert (Hw : Stateful.weights_at example_store (Some 2%nat)
                 (Some [1; 1; 2])) by reflexivity.
  split; [exact (conj Hv (conj Hq Hw)) |].
  exact (inputs_unchanged example_store 0%nat 1%nat (Some 2%nat)
           [10; 20; 30] [1 # 2] (Some [1; 1; 2]) Hv Hq Hw).
Defined.

(** * Further properties of the estimator *)

Lemma interp_fin_list (xs ys quantiles : list Q) :
  ascending xs -> xs <> [] -> length xs = length ys ->
  exists r, np.interp quantiles (map Fin xs) ys = map Fin r /\
            Forall2 (interp_rel xs ys) quantiles r.
Proof.
  intros Hasc Hne Hlen. rewrite (interp_map quantiles xs ys Hasc Hne).
  induction quantiles as [| q l (r & Hr & Hrel)].
  - exists []. split; [reflexivity | constructor].
  - destruct (interp_one_fin xs ys q Hasc Hne Hlen) as (a & Ha & Hra).
    exists (a :: r). cbn [map].
    rewrite Ha, Hr. split; [reflexivity | now constructor].
Qed.



Lemma all_in_unit_cons (q : Q) (l : list Q) :
  np.all_in_unit (q :: l) = true ->
  np.all_in_unit [q] = true /\ np.all_in_unit l = true.
Proof.
  unfold np.all_in_unit. cbn [forallb]. rewrite !andb_true_iff.
  intros [[H0 H1] Hl]. auto.
Qed.

(** Whenever the x-coordinates of lines 64 to 69 are numbers in ascending
    order, a call with several quantiles returns, in the order of the
    request, what the calls with each single quantile return, whatever the
    order the sort gives to equal samples: the index that the search of
    [np.interp] carries from one quantile to the next has no influence
    then. *)
Theorem quantiles_one_by_one (argsort : list Q -> list nat)
  (values quantiles : list Q) (weights : option (list Q)) (vs xs : list Q) :
  sorting argsort ->
  np.all_in_unit quantiles = true ->
  AnySort.sorted_coordinates argsort values (default_weights values weights)
  = Return (vs, map Fin xs) ->
  ascending xs ->
  exists r, AnySort.weighted_quantile argsort values quantiles weights
            = Return r /\
            Forall2 (fun q x =>
                       AnySort.weighted_quantile argsort values [q] weights
                       = Return [x])
                    quantiles r.
Proof.
  intros Hs Hq Hc Hasc.
  destruct (any_coordinates_inv _ _ _ _ _ Hs Hc) as (Hv & _ & Hxl).
  rewrite length_map in Hxl.
  assert (Hne : xs <> []).
  { intros ->. destruct values; [congruence | discriminate]. }
  unfold AnySort.weighted_quantile. rewrite Hq, Hc. cbn [negb and_then].
  eexists. split; [reflexivity |].
  rewrite (interp_map quantiles xs vs Hasc Hne).
  induction quantiles as [| q l IH]; cbn [map]; constructor.
  - destruct (all_in_unit_cons q l Hq) as [H1 _]. rewrite H1.
    cbn [negb and_then].
    now rewrite (interp_map [q] xs vs Hasc Hne).
  - apply IH. now destruct (all_in_unit_cons q l Hq).
Qed.

Lemma quantiles_one_by_one_witness :
  (sorting np.argsort /\ np.all_in_unit [1; 0] = true /\
   AnySort.sorted_coordinates np.argsort [10; 20; 30]
     (default_weights [10; 20; 30] (Some [1; 1; 2]))
   = Return ([10; 20; 30], map Fin (normalized [1; 1; 2])) /\
   ascending (normalized [1; 1; 2])) /\
  exists r, weighted_quantile [10; 20; 30] [1; 0] (Some [1; 1; 2])
            = Return r /\
            Forall2 (fun q x =>
                       weighted_quantile [10; 20; 30] [q] (Some [1; 1; 2])
                       = Return [x])
                    [1; 0] r.
Proof.
  assert (Hq : np.all_in_unit [1; 0] = true) by reflexivity.
  assert (Hc : AnySort.sorted_coordinates np.argsort [10; 20; 30]
                 (default_weights [10; 20; 30] (Some [1; 1; 2]))
               = Return ([10; 20; 30], map Fin (normalized [1; 1; 2])))
    by reflexivity.
  assert (Hasc : ascending (normalized [1; 1; 2])).
  { apply normalized_ascending.
    - repeat constructor; discriminate.
    - left. reflexivity. }
  split; [exact (conj argsort_sorting (conj Hq (conj Hc Hasc))) |].
  exact (quantiles_one_by_one np.argsort [10; 20; 30] [1; 0]
           (Some [1; 1; 2]) [10; 20; 30] (normalized [1; 1; 2])
           argsort_sorting Hq Hc Hasc).
Defined.

(** Over coordinates that are NaN the entries do depend on the request:
    with weights that are all zero the third quartile of [0; 1; 2; 3; 3]
    alone is NaN, and after the first quartile it is 3.  The search for
    the second quantile starts from the index found for the first and
    stops between the two equal samples. *)
Theorem requests_interact_over_nan :
  weighted_quantile [0; 1; 2; 3; 3] [3 # 4] (Some [0; 0; 0; 0; 0])
  = Return [NaN] /\
  weighted_quantile [0; 1; 2; 3; 3] [1 # 4] (Some [0; 0; 0; 0; 0])
  = Return [NaN] /\
  weighted_quantile [0; 1; 2; 3; 3] [1 # 4; 3 # 4] (Some [0; 0; 0; 0; 0])
  = Return [NaN; Fin 3].
Proof. repeat split. Qed.

(** Without samples the call fails: with the quantile error when a
    quantile is out of range, otherwise in the minimum of the empty array
    of positions, whatever the weights. *)
Theorem no_samples_error (quantiles : list Q) (weights : option (list Q)) :
  weighted_quantile [] quantiles weights
  = Raise (if np.all_in_unit quantiles
           then empty_reduction_error "minimum"
           else quantile_error).
Proof.
  unfold weighted_quantile.
  destruct (np.all_in_unit quantiles); reflexivity.
Qed.

(** ** Weights up to a common factor *)

Lemma gather_map (f : Q -> Q) (a : list Q) (idx : list nat) :
  Forall (fun i => (i < length a)%nat) idx ->
  gather (map f a) idx = map f (gather a idx).
Proof.
  intros H. unfold gather. rewrite map_map. apply map_ext_in.
  intros i Hi. rewrite Forall_forall in H. unfold val.
  apply nth_map_Q, H, Hi.
Qed.

Lemma positions_from_scale_map (c acc acc' : Q) (w : list Q) (k : nat) :
  acc' == c * acc ->
  nth k (positions_from acc' (map (Qmult c) w)) 0
  == c * nth k (positions_from acc w) 0.
Proof.
  revert acc acc' k. induction w as [| x w IH]; intros acc acc' k H.
  - destruct k; simpl; ring.
  - cbn [map]. rewrite !positions_from_cons. destruct k as [| k].
    + cbn [nth]. rewrite H. ring.
    + cbn [nth]. apply IH. rewrite H. ring.
Qed.

Lemma scaled_nonneg (c : Q) (w : list Q) :
  0 < c -> Forall (Qle 0) w -> Forall (Qle 0) (map (Qmult c) w).
Proof.
  intros Hc H. rewrite Forall_map. eapply Forall_impl; [| exact H].
  simpl. intros x Hx. apply Qmult_le_0_compat; lra.
Qed.

Lemma scaled_positive (c : Q) (w : list Q) :
  0 < c -> Exists (Qlt 0) w -> Exists (Qlt 0) (map (Qmult c) w).
Proof.
  intros Hc H. rewrite Exists_map. eapply Exists_impl; [| exact H].
  simpl. intros x Hx. apply Qmult_lt_0_compat; lra.
Qed.

Lemma normalized_scale (c : Q) (w : list Q) :
  0 < c -> Forall (Qle 0) w -> Exists (Qlt 0) w ->
  pointwise_eq (normalized (map (Qmult c) w)) (normalized w).
Proof.
  intros Hc Hnn Hex. split.
  { now rewrite !normalized_length, length_map. }
  intros k. destruct (le_lt_dec (length w) k) as [Hk | Hk].
  { rewrite !nth_overflow; [reflexivity | |];
      rewrite normalized_length, ?length_map; exact Hk. }
  pose proof (scaled_nonneg c w Hc Hnn) as Hnn'.
  pose proof (scaled_positive c w Hc Hex) as Hex'.
  pose proof (w_nonempty w Hnn Hex) as Hne.
  pose proof (w_nonempty _ Hnn' Hex') as Hne'.
  pose proof (positions_max_pos w Hnn Hex) as Hmax1.
  assert (Hmin : min_of (positions (map (Qmult c) w))
                 == c * min_of (positions w)).
  { rewrite !min_of_ascending
      by auto using positions_nonempty, positions_ascending.
    rewrite !hd_nth. apply positions_from_scale_map. ring. }
  assert (Hmax : max_of (positions (map (Qmult c) w))
                 == c * max_of (positions w)).
  { rewrite !max_of_ascending
      by auto using positions_nonempty, positions_ascending.
    rewrite !last_nth. unfold positions.
    rewrite !positions_from_length, length_map.
    apply positions_from_scale_map. ring. }
  rewrite !normalized_nth by now rewrite ?length_map.
  rewrite Hmin, Hmax. unfold positions at 1 3.
  rewrite (positions_from_scale_map c 0 0 w k) by ring.
  fold (positions w). field. split; lra.
Qed.



(** ** The span of the x-coordinates *)

Lemma positions_first (w : list Q) :
  w <> [] -> hd 0 (positions w) == (1 # 2) * nth 0 w 0.
Proof.
  destruct w as [| a w]; [congruence | intros _].
  unfold positions. rewrite positions_from_cons. cbn [hd nth]. ring.
Qed.

Lemma ascending_below_last (xs : list Q) (c : Q) :
  ascending xs -> last xs 0 <= c -> Forall (fun x => x <= c) xs.
Proof.
  intros Hasc Hlast. apply Forall_forall. intros x Hx.
  destruct (In_nth _ _ 0 Hx) as (k & Hk & <-).
  apply Qle_trans with (last xs 0); [| exact Hlast].
  rewrite last_nth. apply Hasc. lia.
Qed.



(** Whenever the x-coordinates of lines 64 to 69 are numbers, every
    requested quantile that none of them exceeds returns the largest
    sample, whatever the order the sort gives to equal samples:
    [np.interp] returns [fp[-1]] from the last point on. *)
Theorem upper_quantiles_saturate (argsort : list Q -> list nat)
  (values : list Q) (weights : option (list Q)) (vs xs : list Q) (q : Q) :
  sorting argsort ->
  AnySort.sorted_coordinates argsort values (default_weights values weights)
  = Return (vs, map Fin xs) ->
  0 <= q -> q <= 1 -> Forall (fun x => x <= q) xs ->
  exists r, AnySort.weighted_quantile argsort values [q] weights
            = Return [Fin r] /\
            r == max_of values.
Proof.
  intros Hs Hc Hq0 Hq1 Hall.
  destruct (any_sort_top argsort values weights vs xs q Hs Hc Hq0 Hq1 Hall)
    as (r & Hr & Hmax).
  exists r. split; [exact Hr | exact Hmax].
Qed.

Lemma upper_quantiles_saturate_witness :
  (sorting np.argsort /\
   AnySort.sorted_coordinates np.argsort [10; 20; 30; 40]
     (default_weights [10; 20; 30; 40] None)
   = Return ([10; 20; 30; 40], map Fin (normalized [1; 1; 1; 1])) /\
   0 <= 9 # 10 /\ 9 # 10 <= 1 /\
   Forall (fun x => x <= 9 # 10) (normalized [1; 1; 1; 1])) /\
  exists r, weighted_quantile [10; 20; 30; 40] [9 # 10] None
            = Return [Fin r] /\
            r == max_of [10; 20; 30; 40].
Proof.
  assert (Hc : AnySort.sorted_coordinates np.argsort [10; 20; 30; 40]
                 (default_weights [10; 20; 30; 40] None)
               = Return ([10; 20; 30; 40],
                         map Fin (normalized [1; 1; 1; 1])))
    by reflexivity.
  assert (Hq0 : 0 <= 9 # 10) by discriminate.
  assert (Hq1 : 9 # 10 <= 1) by discriminate.
  assert (Hall : Forall (fun x => x <= 9 # 10) (normalized [1; 1; 1; 1])).
  { vm_compute. repeat constructor; discriminate. }
  split; [exact (conj argsort_sorting (conj Hc (conj Hq0 (conj Hq1 Hall)))) |].
  exact (upper_quantiles_saturate np.argsort [10; 20; 30; 40] None
           [10; 20; 30; 40] (normalized [1; 1; 1; 1]) (9 # 10)
           argsort_sorting Hc Hq0 Hq1 Hall).
Defined.

(** ** Calls without weights *)

Lemma positions_from_ones (acc : Q) (n k : nat) :
  (k < n)%nat ->
  nth k (positions_from acc (repeat 1 n)) 0
  == acc + inject_Z (Z.of_nat k) + (1 # 2).
Proof.
  revert acc k. induction n as [| n IH]; intros acc k Hk; [lia |].
  cbn [repeat]. rewrite positions_from_cons. destruct k as [| k].
  - cbn [nth]. change (inject_Z (Z.of_nat 0)) with 0. ring.
  - cbn [nth]. rewrite IH by lia.
    rewrite Nat2Z.inj_succ, <- Z.add_1_r, inject_Z_plus.
    change (inject_Z 1) with 1. ring.
Qed.

(** Without weights the x-coordinate of the sample of rank [k] among [N]
    is [2k / (2N - 1)]. *)
Theorem unweighted_coordinates (values : list Q) :
  values <> [] ->
  exists xs,
    sorted_coordinates values (default_weights values None)
    = Return (sorted_values values, map Fin xs) /\
    length xs = length values /\
    forall k, (k < length values)%nat ->
      nth k xs 0
      == 2 * inject_Z (Z.of_nat k)
         / (2 * inject_Z (Z.of_nat (length values)) - 1).
Proof.
  intros Hne.
  pose proof (valid_weights_None values Hne) as Hw.
  set (n := length values).
  assert (Hn : (0 < n)%nat).
  { unfold n. destruct values; simpl; [congruence | lia]. }
  assert (Hs : sorted_weights values None = repeat 1 n).
  { change (sorted_weights values None)
      with (sorted_weights values (Some (repeat 1 (length values)))).
    apply sorted_weights_repeat. }
  exists (normalized (repeat 1 n)). split.
  { rewrite <- Hs. apply (sorted_coordinates_valid values None Hne Hw). }
  split.
  { now rewrite normalized_length, repeat_length. }
  intros k Hk.
  pose proof (sorted_weights_nonneg values None Hne Hw) as Hnn.
  pose proof (sorted_weights_positive values None Hne Hw) as Hex.
  rewrite Hs in Hnn, Hex.
  pose proof (w_nonempty _ Hnn Hex) as Hwne.
  rewrite normalized_nth by now rewrite repeat_length.
  rewrite (min_of_ascending _ (positions_nonempty _ Hwne)
             (positions_ascending _ Hnn)).
  rewrite (max_of_ascending _ (positions_nonempty _ Hwne)
             (positions_ascending _ Hnn)).
  rewrite hd_nth, last_nth. unfold positions.
  rewrite positions_from_length, repeat_length.
  rewrite !positions_from_ones by lia.
  assert (Hn1 : inject_Z (Z.of_nat (n - 1)) == inject_Z (Z.of_nat n) - 1).
  { rewrite Nat2Z.inj_sub by lia. unfold Zminus.
    rewrite inject_Z_plus, inject_Z_opp. reflexivity. }
  rewrite Hn1. change (inject_Z (Z.of_nat 0)) with 0.
  assert (1 <= inject_Z (Z.of_nat n)).
  { change 1 with (inject_Z 1). rewrite <- Zle_Qle. lia. }
  field. lra.
Qed.

Lemma unweighted_coordinates_witness :
  [10; 20; 30; 40] <> [] /\
  exists xs,
    sorted_coordinates [10; 20; 30; 40] (np.ones 4)
    = Return ([10; 20; 30; 40], map Fin xs) /\
    length xs = 4%nat /\
    forall k, (k < 4)%nat ->
      nth k xs 0 == 2 * inject_Z (Z.of_nat k) / (2 * inject_Z 4 - 1).
Proof.
  assert (Hne : [10; 20; 30; 40] <> []) by discriminate.
  split; [exact Hne |].
  exact (unweighted_coordinates [10; 20; 30; 40] Hne).
Defined.

(** ** A change of unit of the samples *)

Section Affine.

Variables a d : Q.
Hypothesis a_positive : 0 < a.

Let f (v : Q) : Q := a * v + d.

Lemma affine_le (x y : Q) : Qle_bool (f x) (f y) = Qle_bool x y.
Proof using a_positive.
  apply eq_true_iff_eq. rewrite !Qle_bool_iff. unfold f.
  rewrite <- (Qmult_le_l x y a a_positive). split; intros H; lra.
Qed.

Lemma insert_idx_affine (values : list Q) (i : nat) (idx : list nat) :
  (i < length values)%nat ->
  Forall (fun j => (j < length values)%nat) idx ->
  np.insert_idx (map f values) i idx = np.insert_idx values i idx.
Proof using a_positive.
  intros Hi H. induction H as [| j rest Hj _ IH]; [reflexivity |].
  cbn [np.insert_idx]. rewrite !nth_map_Q by assumption.
  rewrite affine_le, IH. reflexivity.
Qed.

Lemma argsort_affine (values : list Q) :
  np.argsort (map f values) = np.argsort values.
Proof using a_positive.
  unfold np.argsort. rewrite length_map.
  assert (H : Forall (fun j => (j < length values)%nat)
                (seq 0 (length values))).
  { apply Forall_forall. intros j Hj. apply in_seq in Hj. lia. }
  induction H as [| i l Hi Hl IH]; [reflexivity |].
  cbn [fold_right]. rewrite IH. apply insert_idx_affine; [exact Hi |].
  clear IH. induction Hl as [| j l Hj _ IH]; cbn [fold_right].
  - constructor.
  - apply Forall_forall. intros k Hk.
    apply (Permutation_in _ (insert_idx_perm values j _)) in Hk.
    destruct Hk as [<- | Hk]; [exact Hj |].
    rewrite Forall_forall in IH. now apply IH.
Qed.

Lemma sorted_values_affine (values : list Q) :
  sorted_values (map f values) = map f (sorted_values values).
Proof using a_positive.
  unfold sorted_values. rewrite argsort_affine.
  apply gather_map, argsort_bounded.
Qed.

Lemma sorted_weights_affine (values : list Q) (weights : option (list Q)) :
  sorted_weights (map f values) weights = sorted_weights values weights.
Proof using a_positive.
  unfold sorted_weights. rewrite argsort_affine.
  destruct weights; cbn [default_weights]; [reflexivity |].
  now rewrite length_map.
Qed.

Lemma valid_weights_affine (values : list Q) (weights : option (list Q)) :
  valid_weights values weights -> valid_weights (map f values) weights.
Proof using a_positive.
  unfold valid_weights.
  destruct weights; cbn [default_weights]; rewrite !length_map; auto.
Qed.

Lemma last_map_affine (ys : list Q) :
  ys <> [] -> last (map f ys) 0 = f (last ys 0).
Proof using a_positive.
  induction ys as [| y ys IH]; [congruence | intros _].
  destruct ys as [| z ys]; [reflexivity |].
  simpl in *. apply IH. discriminate.
Qed.

Lemma interp_rel_affine (xs ys : list Q) (x r : Q) :
  ys <> [] -> length xs = length ys ->
  interp_rel xs ys x r -> interp_rel xs (map f ys) x (f r).
Proof using a_positive.
  intros Hne Hlen [Hx | Hx | Hall Hx | j r' Hj Hle Hgt Hr].
  - replace (f (hd 0 ys)) with (hd 0 (map f ys))
      by (destruct ys; [congruence | reflexivity]).
    now apply interp_below.
  - rewrite <- (last_map_affine ys Hne). now apply interp_above.
  - rewrite <- (last_map_affine ys Hne). now apply interp_last.
  - apply (interp_inside xs (map f ys) x j); auto.
    rewrite !nth_map_Q by lia. unfold f. rewrite Hr.
    unfold Qdiv. ring.
Qed.

Lemma default_weights_affine (values : list Q) (weights : option (list Q)) :
  default_weights (map f values) weights = default_weights values weights.
Proof using a_positive.
  destruct weights; cbn [default_weights]; [reflexivity |].
  now rewrite length_map.
Qed.


End Affine.


(** ** Calls in sequence over one store *)

Lemma lookup_app (h ext : Stateful.heap) (l : Stateful.loc)
  (o : Stateful.object) :
  nth_error h l = Some o -> nth_error (h ++ ext) l = Some o.
Proof.
  intros H. rewrite nth_error_app1; [exact H |].
  apply nth_error_Some. congruence.
Qed.

Lemma weights_at_app (h ext : Stateful.heap) (weights : option Stateful.loc)
  (ws : option (list Q)) :
  Stateful.weights_at h weights ws ->
  Stateful.weights_at (h ++ ext) weights ws.
Proof.
  destruct weights, ws; cbn; auto. apply lookup_app.
Qed.

Lemma call_outcome
  (h : Stateful.heap) (values quantiles : Stateful.loc)
  (weights : option Stateful.loc) (vs qs : list Q) (ws : option (list Q)) :
  nth_error h values = Some (Stateful.FloatArray vs) ->
  nth_error h quantiles = Some (Stateful.FloatArray qs) ->
  Stateful.weights_at h weights ws ->
  exists ext res,
    Stateful.weighted_quantile values quantiles weights h = (res, h ++ ext) /\
    outcome_in (h ++ ext) res (weighted_quantile vs qs ws) /\
    (forall l, res = Return l -> (length h <= l)%nat).
Proof.
  intros Hv Hq Hw.
  destruct (StatefulRun.copies_run h values quantiles weights vs qs ws
              Hv Hq Hw) as (ext0 & v & q & w & Hv' & Hq' & Hw' & Hk).
  destruct (StatefulRun.body_run (h ++ ext0) v q w vs qs
              (default_weights vs ws) Hv' Hq' Hw')
    as (ext & res & Hrun & Hres & Hfresh).
  exists (ext0 ++ ext), res. rewrite app_assoc. split; [| split].
  - unfold Stateful.weighted_quantile. rewrite Hk. exact Hrun.
  - exact Hres.
  - intros l Hl. specialize (Hfresh l Hl). rewrite length_app in Hfresh. lia.
Qed.

Lemma outcome_in_bound (h : Stateful.heap) (l : Stateful.loc)
  (expected : result (list float64)) :
  outcome_in h (Return l) expected -> (l < length h)%nat.
Proof.
  unfold outcome_in. destruct expected; [| contradiction].
  intros H. apply nth_error_Some. congruence.
Qed.

(** Two calls in sequence on the same samples and weights with two
    requests of quantiles: the second call, made over the store the first
    one leaves, gives the outcome of the function for its own quantiles;
    both calls only add arrays to the store; the result of the first call
    is still in place after the second, whose result is another array. *)
Theorem calls_do_not_interfere
  (h : Stateful.heap) (values quantiles1 quantiles2 : Stateful.loc)
  (weights : option Stateful.loc) (vs qs1 qs2 : list Q)
  (ws : option (list Q)) :
  nth_error h values = Some (Stateful.FloatArray vs) ->
  nth_error h quantiles1 = Some (Stateful.FloatArray qs1) ->
  nth_error h quantiles2 = Some (Stateful.FloatArray qs2) ->
  Stateful.weights_at h weights ws ->
  exists ext1 res1 ext2 res2,
    Stateful.weighted_quantile values quantiles1 weights h
    = (res1, h ++ ext1) /\
    Stateful.weighted_quantile values quantiles2 weights (h ++ ext1)
    = (res2, h ++ ext1 ++ ext2) /\
    outcome_in (h ++ ext1 ++ ext2) res1 (weighted_quantile vs qs1 ws) /\
    outcome_in (h ++ ext1 ++ ext2) res2 (weighted_quantile vs qs2 ws) /\
    (forall l1 l2, res1 = Return l1 -> res2 = Return l2 ->
                   (length h <= l1)%nat /\ (l1 < l2)%nat).
Proof.
  intros Hv Hq1 Hq2 Hw.
  destruct (call_outcome h values quantiles1 weights vs qs1 ws Hv Hq1 Hw)
    as (ext1 & res1 & Hrun1 & Hres1 & Hfresh1).
  destruct (call_outcome (h ++ ext1) values quantiles2 weights vs qs2 ws
              (lookup_app _ _ _ _ Hv) (lookup_app _ _ _ _ Hq2)
              (weights_at_app _ _ _ _ Hw))
    as (ext2 & res2 & Hrun2 & Hres2 & Hfresh2).
  exists ext1, res1, ext2, res2. rewrite app_assoc.
  split; [exact Hrun1 |]. split; [exact Hrun2 |].
  split; [| split; [exact Hres2 |]].
  - unfold outcome_in in *.
    destruct res1, (weighted_quantile vs qs1 ws); auto.
    now apply lookup_app.
  - intros l1 l2 -> ->. split; [now apply Hfresh1 |].
    apply outcome_in_bound in Hres1.
    specialize (Hfresh2 l2 eq_refl). lia.
Qed.

Lemma calls_do_not_interfere_witness :
  (nth_error reuse_store 0 = Some (Stateful.FloatArray [10; 20; 30]) /\
   nth_error reuse_store 1 = Some (Stateful.FloatArray [1 # 4]) /\
   nth_error reuse_store 3 = Some (Stateful.FloatArray [3 # 4; 1]) /\
   Stateful.weights_at reuse_store (Some 2%nat) (Some [1; 1; 2])) /\
  exists ext1 res1 ext2 res2,
    Stateful.weighted_quantile 0%nat 1%nat (Some 2%nat) reuse_store
    = (res1, reuse_store ++ ext1) /\
    Stateful.weighted_quantile 0%nat 3%nat (Some 2%nat)
      (reuse_store ++ ext1)
    = (res2, reuse_store ++ ext1 ++ ext2) /\
    outcome_in (reuse_store ++ ext1 ++ ext2) res1
      (weighted_quantile [10; 20; 30] [1 # 4] (Some [1; 1; 2])) /\
    outcome_in (reuse_store ++ ext1 ++ ext2) res2
      (weighted_quantile [10; 20; 30] [3 # 4; 1] (Some [1; 1; 2])) /\
    (forall l1 l2, res1 = Return l1 -> res2 = Return l2 ->
                   (length reuse_store <= l1)%nat /\ (l1 < l2)%nat).
Proof.
  assert (Hv : nth_error reuse_store 0
               = Some (Stateful.FloatArray [10; 20; 30])) by reflexivity.
  assert (Hq1 : nth_error reuse_store 1
                = Some (Stateful.FloatArray [1 # 4])) by reflexivity.
  assert (Hq2 : nth_error reuse_store 3
                = Some (Stateful.FloatArray [3 # 4; 1])) by reflexivity.
  assert (Hw : Stateful.weights_at reuse_store (Some 2%nat)
                 (Some [1; 1; 2])) by reflexivity.
  split; [exact (conj Hv (conj Hq1 (conj Hq2 Hw))) |].
  exact (calls_do_not_interfere reuse_store 0%nat 1%nat 3%nat
           (Some 2%nat) [10; 20; 30] [1 # 4] [3 # 4; 1] (Some [1; 1; 2])
           Hv Hq1 Hq2 Hw).
Defined.

(** * Vertical finite differences *)

Module EadyFacts.
Import Eady.

Lemma level_in_range (x : list Q) (k : nat) :
  (k < length x)%nat -> level x k = Return (nth k x 0).
Proof.
  intros Hk. unfold level.
  destruct (nth_error x k) as [v |] eqn:E.
  - now rewrite (nth_error_nth _ _ 0 E).
  - apply nth_error_None in E. lia.
Qed.

Lemma level_out_of_range (x : list Q) (k : nat) :
  (length x <= k)%nat -> level x k = Raise (IndexError k (length x)).
Proof.
  intros Hk. unfold level. now rewrite (proj2 (nth_error_None x k) Hk).
Qed.

Lemma span_length (x : list Q) (a b : nat) :
  (a <= b <= length x)%nat -> length (span x a b) = (b - a)%nat.
Proof.
  intros H. unfold span. rewrite length_firstn, length_skipn. lia.
Qed.

Lemma span_nth (x : list Q) (a b i : nat) :
  (i < b - a)%nat -> nth i (span x a b) 0 = nth (a + i) x 0.
Proof.
  intros Hi. unfold span. rewrite nth_firstn.
  rewrite (proj2 (Nat.ltb_lt i (b - a)) Hi). apply nth_skipn.
Qed.

Lemma slice_some (x : list Q) (a b : nat) :
  (a < b <= length x)%nat -> slice x a b = Return (span x a b).
Proof.
  intros H. unfold slice.
  pose proof (span_length x a b) as Hl.
  destruct (span x a b); [cbn in Hl; lia | reflexivity].
Qed.

Lemma slice_none (x : list Q) (a b : nat) :
  (b <= a)%nat \/ (length x <= a)%nat -> slice x a b = Raise ZeroLengthSlice.
Proof.
  intros H. unfold slice, span.
  destruct H as [H | H].
  - now replace (b - a)%nat with 0%nat by lia.
  - rewrite skipn_all2 by lia. now rewrite firstn_nil.
Qed.

Lemma elementwise_same_length {A B C : Type} (f : A -> B -> C)
  (a : list A) (b : list B) :
  length a = length b ->
  elementwise f a b = Return (map (fun p => f (fst p) (snd p)) (combine a b)).
Proof.
  intros H. unfold elementwise. now rewrite H, Nat.eqb_refl.
Qed.

Lemma nth_zip {A B C : Type} (f : A -> B -> C) (a : list A) (b : list B)
  (i : nat) (da : A) (db : B) (dc : C) :
  length a = length b -> (i < length a)%nat ->
  nth i (map (fun p => f (fst p) (snd p)) (combine a b)) dc
  = f (nth i a da) (nth i b db).
Proof.
  intros Hlen Hi.
  rewrite (nth_indep _ dc (f da db))
    by (rewrite length_map, length_combine; lia).
  rewrite (map_nth (fun p => f (fst p) (snd p)) _ (da, db)).
  now rewrite combine_nth.
Qed.

Lemma roll_one_snoc {A : Type} (l : list A) (z : A) :
  roll 1 (l ++ [z]) = z :: l.
Proof.
  unfold roll. rewrite length_app. cbn [length].
  replace (length l + 1)%nat with (S (length l)) by lia.
  destruct l as [| u l].
  - reflexivity.
  - cbn [length]. rewrite Nat.mod_small by lia.
    replace (S (S (length l)) - 1)%nat with (length (u :: l))
      by (cbn [length]; lia).
    rewrite skipn_app, skipn_all, Nat.sub_diag, firstn_app, firstn_all,
      Nat.sub_diag.
    cbn. now rewrite app_nil_r.
Qed.

(** The three parts of the result for columns of the same length. *)
Lemma vertical_integration_parts (x y : list Q) :
  length x = length y -> (3 <= length x)%nat ->
  exists centre,
    vertical_integration x y
    = Return (quotient (nth 1 x 0 - nth 0 x 0) (nth 1 y 0 - nth 0 y 0)
              :: centre
              ++ [quotient (nth (length x - 1) x 0 - nth (length x - 2) x 0)
                           (nth (length x - 1) y 0 - nth (length x - 2) y 0)])
    /\ length centre = (length x - 2)%nat
    /\ forall i, (i < length x - 2)%nat ->
         nth i centre NaN
         = quotient (nth (i + 2) x 0 - nth i x 0)
                    (nth (i + 2) y 0 - nth i y 0).
Proof.
  intros Hlen Hn. set (n := length x) in *.
  assert (Hsx2 : length (span x 2 n) = (n - 2)%nat)
    by (apply span_length; lia).
  assert (Hsx0 : length (span x 0 (n - 2)) = (n - 2)%nat)
    by (rewrite span_length; lia).
  assert (Hsy2 : length (span y 2 n) = (n - 2)%nat)
    by (apply span_length; lia).
  assert (Hsy0 : length (span y 0 (n - 2)) = (n - 2)%nat)
    by (rewrite span_length; lia).
  set (dx := map (fun p => fst p - snd p)
               (combine (span x 2 n) (span x 0 (n - 2)))).
  set (dy := map (fun p => fst p - snd p)
               (combine (span y 2 n) (span y 0 (n - 2)))).
  assert (Hdx : length dx = (n - 2)%nat).
  { unfold dx. rewrite length_map, length_combine. lia. }
  assert (Hdy : length dy = (n - 2)%nat).
  { unfold dy. rewrite length_map, length_combine. lia. }
  set (centre := map (fun p => quotient (fst p) (snd p)) (combine dx dy)).
  exists centre. split; [| split].
  - unfold vertical_integration. fold n.
    rewrite !level_in_range by lia. cbn [and_then].
    rewrite (slice_some x 2 n), (slice_some x 0 (n - 2)) by lia.
    cbn [and_then].
    rewrite (elementwise_same_length Qminus (span x 2 n)) by lia.
    cbn [and_then]. fold dx.
    rewrite (slice_some y 2 n), (slice_some y 0 (n - 2)) by lia.
    cbn [and_then].
    rewrite (elementwise_same_length Qminus (span y 2 n)) by lia.
    cbn [and_then]. fold dy.
    rewrite (elementwise_same_length quotient dx dy) by lia.
    cbn [and_then]. fold centre.
    change (centre ++ [?e; ?z]) with (centre ++ [e] ++ [z]).
    now rewrite app_assoc, roll_one_snoc.
  - unfold centre. rewrite length_map, length_combine. lia.
  - intros i Hi. unfold centre.
    rewrite (nth_zip quotient dx dy i 0 0) by lia.
    unfold dx, dy.
    rewrite !(nth_zip Qminus _ _ i 0 0) by lia.
    rewrite !span_nth by lia.
    replace (2 + i)%nat with (i + 2)%nat by lia. reflexivity.
Qed.

End EadyFacts.

(** With at least three levels the result has one entry for each level: a
    one-sided difference quotient at the first and at the last level, and
    at every level in between the quotient of the differences between the
    two neighbouring levels. *)
Theorem finite_differences_by_level (x y : list Q) :
  length x = length y -> (3 <= length x)%nat ->
  exists dxdy,
    Eady.vertical_integration x y = Return dxdy /\
    length dxdy = length x /\
    nth 0 dxdy NaN
    = Eady.quotient (nth 1 x 0 - nth 0 x 0) (nth 1 y 0 - nth 0 y 0) /\
    nth (length x - 1) dxdy NaN
    = Eady.quotient (nth (length x - 1) x 0 - nth (length x - 2) x 0)
                    (nth (length x - 1) y 0 - nth (length x - 2) y 0) /\
    forall k, (1 <= k <= length x - 2)%nat ->
      nth k dxdy NaN
      = Eady.quotient (nth (k + 1) x 0 - nth (k - 1) x 0)
                      (nth (k + 1) y 0 - nth (k - 1) y 0).
Proof.
  intros Hlen Hn.
  destruct (EadyFacts.vertical_integration_parts x y Hlen Hn)
    as (centre & Hrun & Hc & Hnth).
  eexists. split; [exact Hrun |]. split; [| split; [| split]].
  - cbn [length]. rewrite length_app. cbn [length]. lia.
  - reflexivity.
  - replace (length x - 1)%nat with (S (length centre + 0)) by lia.
    cbn [nth]. now rewrite app_nth2_plus.
  - intros k Hk. destruct k as [| k]; [lia |]. cbn [nth].
    rewrite app_nth1 by lia. rewrite Hnth by lia.
    replace (k + 2)%nat with (S k + 1)%nat by lia.
    replace (S k - 1)%nat with k by lia. reflexivity.
Qed.

Lemma finite_differences_by_level_witness :
  (length [1; 4; 9; 16] = length [1; 2; 3; 4] /\
   (3 <= length [1; 4; 9; 16]%Q)%nat) /\
  exists dxdy,
    Eady.vertical_integration [1; 4; 9; 16] [1; 2; 3; 4] = Return dxdy /\
    length dxdy = 4%nat /\
    nth 0 dxdy NaN = Eady.quotient (4 - 1) (2 - 1) /\
    nth 3 dxdy NaN = Eady.quotient (16 - 9) (4 - 3) /\
    forall k, (1 <= k <= 2)%nat ->
      nth k dxdy NaN
      = Eady.quotient (nth (k + 1) [1; 4; 9; 16] 0
                       - nth (k - 1) [1; 4; 9; 16] 0)
                      (nth (k + 1) [1; 2; 3; 4] 0
                       - nth (k - 1) [1; 2; 3; 4] 0).
Proof.
  assert (Hlen : length [1; 4; 9; 16] = length [1; 2; 3; 4]) by reflexivity.
  assert (Hn : (3 <= length [1; 4; 9; 16]%Q)%nat) by (simpl; lia).
  split; [exact (conj Hlen Hn) |].
  exact (finite_differences_by_level [1; 4; 9; 16] [1; 2; 3; 4] Hlen Hn).
Defined.

(** With fewer than two levels the first index fails. *)
Theorem too_few_levels (x y : list Q) :
  (length x < 2)%nat ->
  Eady.vertical_integration x y = Raise (IndexError 1 (length x)).
Proof.
  intros Hn. unfold Eady.vertical_integration.
  now rewrite EadyFacts.level_out_of_range by lia.
Qed.

Lemma too_few_levels_witness :
  (length [5]%Q < 2)%nat /\
  Eady.vertical_integration [5] [7] = Raise (IndexError 1 1).
Proof.
  assert (Hn : (length [5]%Q < 2)%nat) by (simpl; lia).
  split; [exact Hn |].
  exact (too_few_levels [5] [7] Hn).
Defined.

(** With exactly two levels the slice [2:plevs] of line 114 selects no
    level, and iris refuses it: the method needs three levels. *)
Theorem two_levels_fail (x y : list Q) :
  length x = 2%nat -> (2 <= length y)%nat ->
  Eady.vertical_integration x y = Raise ZeroLengthSlice.
Proof.
  intros Hx Hy. unfold Eady.vertical_integration.
  rewrite !EadyFacts.level_in_range by lia. cbn [and_then].
  now rewrite EadyFacts.slice_none by lia.
Qed.

Lemma two_levels_fail_witness :
  (length [1; 4] = 2%nat /\ (2 <= length [1; 2]%Q)%nat) /\
  Eady.vertical_integration [1; 4] [1; 2] = Raise ZeroLengthSlice.
Proof.
  assert (Hx : length [1; 4] = 2%nat) by reflexivity.
  assert (Hy : (2 <= length [1; 2]%Q)%nat) by (simpl; lia).
  split; [exact (conj Hx Hy) |].
  exact (two_levels_fail [1; 4] [1; 2] Hx Hy).
Defined.

Lemma quotient_linear (a b x0 x1 y0 y1 : Q) :
  ~ y1 == y0 -> x0 == a * y0 + b -> x1 == a * y1 + b ->
  exists r, Eady.quotient (x1 - x0) (y1 - y0) = Fin r /\ r == a.
Proof.
  intros Hy H0 H1. unfold Eady.quotient, f_div.
  assert (Hd : ~ y1 - y0 == 0) by lra.
  rewrite (proj2 (Qeq_bool_false _ _) Hd).
  eexists. split; [reflexivity |]. rewrite H0, H1. field. exact Hd.
Qed.



(** ** The growth rate *)

Lemma quotient_finite (n d : Q) :
  ~ d == 0 -> Eady.quotient n d = Fin (n / d).
Proof.
  intros Hd. unfold Eady.quotient, f_div.
  now rewrite (proj2 (Qeq_bool_false _ _) Hd).
Qed.

Lemma vertical_integration_finite (x y : list Q) :
  length x = length y -> (3 <= length x)%nat ->
  (forall i j, (i < j < length y)%nat -> ~ nth j y 0 == nth i y 0) ->
  exists r, Eady.vertical_integration x y = Return (map Fin r) /\
            length r = length x.
Proof.
  intros Hlen Hn Hy.
  destruct (EadyFacts.vertical_integration_parts x y Hlen Hn)
    as (centre & Hrun & Hc & Hnth).
  assert (Hcentre : exists c, centre = map Fin c /\ length c = length centre).
  { clear Hrun.
    assert (Hgen : forall (l : list float64) (g : nat -> Q),
               (forall i, (i < length l)%nat -> nth i l NaN = Fin (g i)) ->
               exists c, l = map Fin c /\ length c = length l).
    { induction l as [| v l IH]; intros g Hg.
      - exists []. split; reflexivity.
      - destruct (IH (fun i => g (S i))) as (c & -> & Hl).
        + intros i Hi. apply (Hg (S i)). simpl. lia.
        + exists (g 0%nat :: c). split.
          * cbn [map]. f_equal. apply (Hg 0%nat). simpl. lia.
          * simpl. now rewrite Hl. }
    apply (Hgen centre (fun i => (nth (i + 2) x 0 - nth i x 0)
                                 / (nth (i + 2) y 0 - nth i y 0))).
    intros i Hi. rewrite Hnth by lia. apply quotient_finite.
    assert (~ nth (i + 2) y 0 == nth i y 0) by (apply Hy; lia). lra. }
  destruct Hcentre as (c & -> & Hcl).
  rewrite !quotient_finite in Hrun.
  - eexists (_ :: c ++ [_]). split.
    + rewrite Hrun. cbn [map]. now rewrite map_app.
    + cbn [length]. rewrite length_app. cbn [length].
      rewrite length_map in Hc. lia.
  - assert (~ nth (length x - 1) y 0 == nth (length x - 2) y 0)
      by (apply Hy; lia). lra.
  - assert (~ nth 1 y 0 == nth 0 y 0) by (apply Hy; lia). lra.
Qed.



(** * The caller of the estimator *)

Module PercentilesFacts.
Import Percentiles.

Lemma member_weights_missing (weights : list (string * Q))
  (before after : list string) (member : string) :
  Forall (fun m => lookup m weights <> None) before ->
  lookup member weights = None ->
  member_weights weights (before ++ member :: after)
  = Failed (KeyError member).
Proof.
  intros Hb Hm. induction Hb as [| m l Hml _ IH]; cbn.
  - now rewrite Hm.
  - destruct (lookup m weights); [| congruence]. now rewrite IH.
Qed.

Lemma member_weights_cases (weights : list (string * Q))
  (members : list string) :
  (exists ws, member_weights weights members = Done ws) \/
  (exists m, member_weights weights members = Failed (KeyError m)).
Proof.
  induction members as [| m l IH]; cbn.
  - left. now eexists.
  - destruct (lookup m weights).
    + destruct IH as [(ws & ->) | (k & ->)]; cbn.
      * left. now eexists.
      * right. now eexists.
    + right. now eexists.
Qed.

Lemma call_sample_weight (values : list Q) (w quantiles : pyvalue) :
  call values [("sample_weight", w); ("quantiles", quantiles)]%string
  = Failed (Exception (TypeError
      "weighted_quantile() got an unexpected keyword argument 'sample_weight'")).
Proof. reflexivity. Qed.

Lemma apply_ufunc_first_fails (f : list Q -> outcome (list float64))
  (l : list (list Q)) (e : error) :
  l <> [] -> (forall s, f s = Failed e) -> apply_ufunc f l = Failed e.
Proof.
  intros Hne Hf. destruct l as [| s l]; [congruence |].
  cbn. now rewrite Hf.
Qed.

End PercentilesFacts.

(** A member of the ensemble without a weight makes the call fail with a
    key error for the first such member, before any quantile is
    computed. *)
Theorem member_without_weight
  (data : Percentiles.data_array) (percentiles : list Q)
  (weights : list (string * Q)) (before after : list string)
  (member : string) :
  weights <> [] ->
  Percentiles.model_ensemble data = before ++ member :: after ->
  Forall (fun m => Percentiles.lookup m weights <> None) before ->
  Percentiles.lookup member weights = None ->
  Percentiles.calculate_percentiles data percentiles (Some weights)
  = Percentiles.Failed (Percentiles.KeyError member).
Proof.
  intros Hne Hm Hb Hl. unfold Percentiles.calculate_percentiles.
  destruct weights as [| kv weights]; [congruence |].
  rewrite Hm, (PercentilesFacts.member_weights_missing _ _ _ _ Hb Hl).
  reflexivity.
Qed.

(** Every call for data that is not empty fails: the estimator has no
    parameter [sample_weight], the keyword of line 164.  The failure is
    the key error of a member without weight or, when no weight is
    missing, the type error of the first call of the estimator. *)
Theorem calculate_percentiles_fails
  (data : Percentiles.data_array) (percentiles : list Q)
  (weights : option (list (string * Q))) :
  Percentiles.slices data <> [] ->
  (exists member,
     Percentiles.calculate_percentiles data percentiles weights
     = Percentiles.Failed (Percentiles.KeyError member)) \/
  Percentiles.calculate_percentiles data percentiles weights
  = Percentiles.Failed (Percentiles.Exception (TypeError
      "weighted_quantile() got an unexpected keyword argument 'sample_weight'")).
Proof.
  intros Hne. unfold Percentiles.calculate_percentiles.
  assert (Hcall : forall w,
            Percentiles.apply_ufunc
              (fun values =>
                 Percentiles.call values
                   [("sample_weight"%string, w);
                    ("quantiles"%string,
                     Percentiles.PyFloats
                       (map (fun p => p / 100) percentiles))])
              (Percentiles.slices data)
            = Percentiles.Failed (Percentiles.Exception (TypeError
                "weighted_quantile() got an unexpected keyword argument 'sample_weight'"))).
  { intros w. apply PercentilesFacts.apply_ufunc_first_fails; [exact Hne |].
    intros s. apply PercentilesFacts.call_sample_weight. }
  destruct weights as [[| kv d] |]; cbn [Percentiles.then_].
  - right. now rewrite Hcall.
  - destruct (PercentilesFacts.member_weights_cases (kv :: d)
                (Percentiles.model_ensemble data)) as [(ws & E) | (m & E)];
      rewrite E; cbn [Percentiles.then_].
    + right. now rewrite Hcall.
    + left. now exists m.
  - right. now rewrite Hcall.
Qed.

Lemma member_without_weight_witness :
  ([("model_a"%string, 1)] <> [] /\
   Percentiles.model_ensemble example_data
   = ["model_a"%string] ++ "model_b"%string :: [] /\
   Forall (fun m => Percentiles.lookup m [("model_a"%string, 1)] <> None)
          ["model_a"%string] /\
   Percentiles.lookup "model_b" [("model_a"%string, 1)] = None) /\
  Percentiles.calculate_percentiles example_data [25; 75]
    (Some [("model_a"%string, 1)])
  = Percentiles.Failed (Percentiles.KeyError "model_b").
Proof.
  assert (Hne : [("model_a"%string, 1)] <> []) by discriminate.
  assert (Hm : Percentiles.model_ensemble example_data
               = ["model_a"%string] ++ "model_b"%string :: [])
    by reflexivity.
  assert (Hb : Forall (fun m => Percentiles.lookup m [("model_a"%string, 1)]
                                <> None) ["model_a"%string]).
  { constructor; [discriminate | constructor]. }
  assert (Hl : Percentiles.lookup "model_b" [("model_a"%string, 1)] = None)
    by reflexivity.
  split; [exact (conj Hne (conj Hm (conj Hb Hl))) |].
  exact (member_without_weight example_data [25; 75]
           [("model_a"%string, 1)] ["model_a"%string] [] "model_b"
           Hne Hm Hb Hl).
Defined.

Lemma calculate_percentiles_fails_witness :
  Percentiles.slices example_data <> [] /\
  ((exists member,
      Percentiles.calculate_percentiles example_data [25; 75] None
      = Percentiles.Failed (Percentiles.KeyError member)) \/
   Percentiles.calculate_percentiles example_data [25; 75] None
   = Percentiles.Failed (Percentiles.Exception (TypeError
       "weighted_quantile() got an unexpected keyword argument 'sample_weight'"))).
Proof.
  assert (Hne : Percentiles.slices example_data <> []) by discriminate.
  split; [exact Hne |].
  exact (calculate_percentiles_fails example_data [25; 75] None Hne).
Defined.

(** ** Columns of different lengths *)

Lemma level_firstn (y : list Q) (n k : nat) :
  (k < n <= length y)%nat -> Eady.level (firstn n y) k = Eady.level y k.
Proof.
  intros H.
  rewrite !EadyFacts.level_in_range by (rewrite ?length_firstn; lia).
  rewrite nth_firstn. now rewrite (proj2 (Nat.ltb_lt k n)) by lia.
Qed.

Lemma slice_firstn (y : list Q) (n a b : nat) :
  (a <= b <= n)%nat -> Eady.slice (firstn n y) a b = Eady.slice y a b.
Proof.
  intros H. unfold Eady.slice, Eady.span.
  rewrite skipn_firstn_comm, firstn_firstn.
  now replace (Nat.min (b - a) (n - a)) with (b - a)%nat by lia.
Qed.

(** Levels of [y] beyond the levels of [x] are ignored. *)
Theorem surplus_levels_ignored (x y : list Q) :
  (length x <= length y)%nat ->
  Eady.vertical_integration x y
  = Eady.vertical_integration x (firstn (length x) y).
Proof.
  intros Hlen. unfold Eady.vertical_integration.
  destruct (le_lt_dec 2 (length x)) as [Hn | Hn].
  - rewrite !(level_firstn y (length x)) by lia.
    rewrite !(slice_firstn y (length x)) by lia. reflexivity.
  - now rewrite (EadyFacts.level_out_of_range x 1) by lia.
Qed.

Lemma surplus_levels_ignored_witness :
  (length [1; 4; 9]%Q <= length [1; 2; 3; 7]%Q)%nat /\
  Eady.vertical_integration [1; 4; 9] [1; 2; 3; 7]
  = Eady.vertical_integration [1; 4; 9] [1; 2; 3].
Proof.
  assert (H : (length [1; 4; 9]%Q <= length [1; 2; 3; 7]%Q)%nat)
    by (simpl; lia).
  split; [exact H |].
  exact (surplus_levels_ignored [1; 4; 9] [1; 2; 3; 7] H).
Defined.

(** With fewer levels in [y] than in [x] the call fails. *)
Theorem missing_levels_fail (x y : list Q) :
  (length y < length x)%nat ->
  exists e, Eady.vertical_integration x y = Raise e.
Proof.
  intros Hlen. unfold Eady.vertical_integration.
  destruct (le_lt_dec 2 (length x)) as [Hn | Hn].
  2:{ rewrite (EadyFacts.level_out_of_range x 1) by lia. now eexists. }
  rewrite !(EadyFacts.level_in_range x) by lia. cbn [and_then].
  destruct (Eady.level y 1) as [y1 | e]; cbn [and_then]; [| now eexists].
  destruct (Eady.level y 0) as [y0 | e]; cbn [and_then]; [| now eexists].
  destruct (Eady.slice x 2 _) as [xu | e]; cbn [and_then]; [| now eexists].
  destruct (Eady.slice x 0 _) as [xl | e]; cbn [and_then]; [| now eexists].
  destruct (Eady.elementwise Qminus _ _) as [dx | e]; cbn [and_then];
    [| now eexists].
  destruct (Eady.slice y 2 _) as [yu | e]; cbn [and_then]; [| now eexists].
  destruct (Eady.slice y 0 _) as [yl | e]; cbn [and_then]; [| now eexists].
  destruct (Eady.elementwise Qminus _ _) as [dy | e]; cbn [and_then];
    [| now eexists].
  destruct (Eady.elementwise Eady.quotient dx dy) as [c | e];
    cbn [and_then]; [| now eexists].
  rewrite (EadyFacts.level_out_of_range y (length x - 1)) by lia.
  now eexists.
Qed.

Lemma missing_levels_fail_witness :
  (length [1; 2; 3]%Q < length [1; 4; 9; 16]%Q)%nat /\
  exists e, Eady.vertical_integration [1; 4; 9; 16] [1; 2; 3] = Raise e.
Proof.
  assert (H : (length [1; 2; 3]%Q < length [1; 4; 9; 16]%Q)%nat)
    by (simpl; lia).
  split; [exact H |].
  exact (missing_levels_fail [1; 4; 9; 16] [1; 2; 3] H).
Defined.

(** * Rounding and overflow in binary64 *)

Set Warnings "-inexact-float".

Module Binary64Facts.

Import PrimFloat.
Local Open Scope float_scope.



(** Weights whose sum overflows: the cumulated weights reach infinity,
    [max_val] is infinite, the x-coordinates after the first are NaN and so
    are the estimates. *)
Theorem overflowing_weights_give_nan :
  Binary64.sorted_coordinates [1; 2; 3]
    (Binary64.Float64 [0x1p1023; 0x1p1023; 0x1p1023])
  = Return ([1; 2; 3], [0; nan; nan]) /\
  Binary64.weighted_quantile [1; 2; 3] [0.8; 1]
    (Some (Binary64.Float64 [0x1p1023; 0x1p1023; 0x1p1023]))
  = Return [nan; nan].
Proof. split; vm_compute; reflexivity. Qed.

(** Positive weights of very different sizes: the x-coordinate of the
    second sample underflows to 0, and the quantile 0 returns the second
    sample, not the smallest one. *)
Theorem underflowing_coordinate_at_zero :
  Binary64.sorted_coordinates [1; 2; 3]
    (Binary64.Float64 [0x1p-600; 0x1p-600; 0x1p600])
  = Return ([1; 2; 3], [0; 0; 1]) /\
  Binary64.weighted_quantile [1; 2; 3] [0]
    (Some (Binary64.Float64 [0x1p-600; 0x1p-600; 0x1p600]))
  = Return [2].
Proof. split; vm_compute; reflexivity. Qed.

(** An estimate above the largest sample: for the samples [8.6; 28.7] with
    the weights [0.25; 2] the x-coordinates are [0; 0.9], and the quantile
    [0.8999999999999999] is interpolated to [28.700000000000003]. *)
Theorem rounding_exceeds_largest_sample :
  Binary64.sorted_coordinates [8.6; 28.7] (Binary64.Float64 [0.25; 2])
  = Return ([8.6; 28.7], [0; 0.9]) /\
  Binary64.weighted_quantile [8.6; 28.7] [0.8999999999999999]
    (Some (Binary64.Float64 [0.25; 2]))
  = Return [28.700000000000003] /\
  ltb 28.7 28.700000000000003 = true.
Proof. repeat split; vm_compute; reflexivity. Qed.

(** A common factor of the weights changes the last digits: the weights
    [1; 1; 2] give the median [23.333333333333336] of [10; 20; 30], the
    weights [0.1; 0.1; 0.2] give [23.333333333333332]. *)
Theorem rounding_under_scaled_weights :
  Binary64.weighted_quantile [10; 20; 30] [0.5]
    (Some (Binary64.Float64 [1; 1; 2]))
  = Return [23.333333333333336] /\
  Binary64.weighted_quantile [10; 20; 30] [0.5]
    (Some (Binary64.Float64 [0.1; 0.1; 0.2]))
  = Return [23.333333333333332] /\
  eqb 23.333333333333336 23.333333333333332 = false.
Proof. repeat split; vm_compute; reflexivity. Qed.

(** Integer weights whose sum passes [2^63]: the cumulated weights wrap
    around to negative numbers, an x-coordinate exceeds 1, and the quantile
    1 returns the smallest sample. *)
Theorem wrapping_integer_weights :
  Binary64.sorted_coordinates [1; 2; 3]
    (Binary64.Int64 [2 ^ 62; 2 ^ 62; 2 ^ 62]%Z)
  = Return ([1; 2; 3], [6; 0; 2]) /\
  Binary64.weighted_quantile [1; 2; 3] [1]
    (Some (Binary64.Int64 [2 ^ 62; 2 ^ 62; 2 ^ 62]%Z))
  = Return [1].
Proof. split; vm_compute; reflexivity. Qed.


End Binary64Facts.

(** ** The order of equal samples *)

Lemma Q_eq_dec (x y : Q) : {x = y} + {x <> y}.
Proof. decide equality; [apply Pos.eq_dec | apply Z.eq_dec]. Defined.

(** With exact arithmetic, the estimate depends on the order that the sort
    gives to equal samples when their weights differ: for the samples
    [1, 1, 3] with the weights [0, 1, 1], two sorts that both return every
    index once with the samples ascending give the median [3/2] (indices
    [0, 1, 2]) and [2] (indices [1, 0, 2]). *)
Theorem tie_order_changes_estimate :
  exists (argsort1 argsort2 : list Q -> list nat) (r1 r2 : Q),
    sorting argsort1 /\ sorting argsort2 /\
    argsort1 [1; 1; 3] = [0; 1; 2]%nat /\
    argsort2 [1; 1; 3] = [1; 0; 2]%nat /\
    AnySort.weighted_quantile argsort1 [1; 1; 3] [1 # 2] (Some [0; 1; 1])
    = Return [Fin r1] /\
    AnySort.weighted_quantile argsort2 [1; 1; 3] [1 # 2] (Some [0; 1; 1])
    = Return [Fin r2] /\
    r1 == 3 # 2 /\ r2 == 2.
Proof.
  exists np.argsort.
  exists (fun a => if list_eq_dec Q_eq_dec a [1; 1; 3]
                   then [1; 0; 2]%nat else np.argsort a).
  eexists. eexists.
  split; [exact argsort_sorting |]. split.
  - intros a. destruct (list_eq_dec Q_eq_dec a [1; 1; 3]) as [-> | _].
    + split.
      * cbn. apply perm_swap.
      * intros i j [Hij Hj]. cbn in Hj.
        destruct i as [| [| [| i]]]; destruct j as [| [| [| j]]];
          cbn; try lia; try lra; discriminate.
    + apply argsort_sorting.
  - split; [reflexivity |]. split; [reflexivity |].
    split; [vm_compute; reflexivity |].
    split; [vm_compute; reflexivity |].
    split; reflexivity.
Qed.
